(** * Filter expression language: parser, AST, predicate compiler, parse cache

    A shallow embedding of the filter-expression component
    ([modules/db/sqlalchemy_filter_expressions] and
    [queries/application/application.py]) together with the properties
    established about it.

    The Python sources hand the grammar string [GRAMMAR] to
    [Lark(..., parser='lalr', transformer=FilterTransformer())].  The
    embedding therefore contains
    - the operator registry of [constants.py],
    - the node classes of [models.py],
    - the callbacks of [transformers.py],
    - the grammar of [grammar.py] as a list of rules, the LALR(1) table
      that Lark derives from it (shift wins a shift/reduce conflict), Lark's
      contextual lexer and its parser loop,
    - the two entry points of [application.py] with the module-level dict
      [_AST_CACHE] threaded as explicit state,
    - the visitor of [filters.py]. *)

From Stdlib Require Import ZArith String Ascii List Bool Lia SpecFloat.
From stdpp Require Import base gmap strings.

Import ListNotations.
Set Warnings "-register-all".
Local Open Scope string_scope.
Local Open Scope list_scope.

(** ** Exceptions and results *)

(** The exceptions that reach the code under study.  [UnexpectedToken] and
    [UnexpectedCharacters] are Lark's; they are siblings below
    [UnexpectedInput], neither is a subclass of the other.  [OtherError] is
    an exception of any other class, by the name of the class: only the
    operators of an attribute of a model class raise one (SQLAlchemy's
    [InvalidRequestError] of a relationship attribute, for one). *)
Inductive exn : Type :=
  | UnexpectedToken (token_type : string)
  | UnexpectedCharacters (rest : string)
  | ValueError (msg : string)
  | TypeError (msg : string)
  | IndexError
  | KeyError (key : string)
  | AssertionError
  | AttributeError (name : string)
  | OtherError (class_name : string).

Inductive result (A : Type) : Type :=
  | Ok (a : A)
  | Raise (e : exn).
Arguments Ok {A} a.
Arguments Raise {A} e.

Definition bind {A B} (r : result A) (k : A -> result B) : result B :=
  match r with
  | Ok a => k a
  | Raise e => Raise e
  end.

Notation "'let*' x ':=' r 'in' k" := (bind r (fun x => k))
  (at level 10, x pattern, r at level 100, k at level 200).

(** ** constants.py: the operator registry *)

(** Each enum class is a module: [t] is the class, [value] the member's
    [.value], [values] the classmethod [BaseEnum.values()] (the tuple of
    member values in definition order) and [call] the lookup by value
    written [ComparisonOp(op)] in Python. *)
Module ComparisonOp.
Inductive t := EQ | NEQ | GT | GTE | LT | LTE.
Definition value (o : t) : string :=
  match o with
  | EQ => "eq" | NEQ => "neq" | GT => "gt"
  | GTE => "gte" | LT => "lt" | LTE => "lte"
  end.
Definition members : list t := [EQ; NEQ; GT; GTE; LT; LTE].
Definition values : list string := map value members.
Definition call (s : string) : result t :=
  match find (fun o => String.eqb (value o) s) members with
  | Some o => Ok o
  | None => Raise (ValueError (s ++ " is not a valid ComparisonOp"))
  end.
End ComparisonOp.

Module CollectionOp.
Inductive t := IN | NOT_IN.
Definition value (o : t) : string :=
  match o with IN => "in" | NOT_IN => "not_in" end.
Definition members : list t := [IN; NOT_IN].
Definition values : list string := map value members.
Definition call (s : string) : result t :=
  match find (fun o => String.eqb (value o) s) members with
  | Some o => Ok o
  | None => Raise (ValueError (s ++ " is not a valid CollectionOp"))
  end.
End CollectionOp.

Module RangeOp.
Inductive t := BETWEEN.
Definition value (o : t) : string :=
  match o with BETWEEN => "between" end.
Definition members : list t := [BETWEEN].
Definition values : list string := map value members.
End RangeOp.

Module TextOp.
Inductive t := LIKE | ILIKE | CONTAINS.
Definition value (o : t) : string :=
  match o with LIKE => "like" | ILIKE => "ilike" | CONTAINS => "contains" end.
Definition members : list t := [LIKE; ILIKE; CONTAINS].
Definition values : list string := map value members.
Definition call (s : string) : result t :=
  match find (fun o => String.eqb (value o) s) members with
  | Some o => Ok o
  | None => Raise (ValueError (s ++ " is not a valid TextOp"))
  end.
End TextOp.

Module LogicalOp.
Inductive t := AND | OR | NOT.
Definition value (o : t) : string :=
  match o with AND => "and" | OR => "or" | NOT => "not" end.
Definition members : list t := [AND; OR; NOT].
Definition values : list string := map value members.
End LogicalOp.

(** ** Python values met by the transformer *)

(** A Python [float] is an IEEE-754 binary64 number. *)
Definition prec : Z := 53.
Definition emax : Z := 1024.
Definition float : Type := spec_float.

(** The scalars and lists that the value callbacks produce. *)
Inductive value : Type :=
  | VStr (s : string)
  | VFloat (f : float)
  | VList (l : list value).

(** The result of [str(v)].  For a [str] it is the string itself; the
    digits that the interpreter prints for a float or a list are not
    modelled and [str] of such a value is kept as a formal coercion. *)
Inductive strval : Type :=
  | Text (s : string)
  | StrOf (v : value).

Definition py_str (v : value) : strval :=
  match v with
  | VStr s => Text s
  | _ => StrOf v
  end.

(** A dynamically typed operand of [==] and [in], as far as
    [comparison_expr] needs them: a [str] or a [tuple] of [str]. *)
Inductive pyobj : Type :=
  | PyStr (s : string)
  | PyTuple (items : list string).

(** [a == b]: objects of different types are never equal. *)
Definition py_eq (a b : pyobj) : bool :=
  match a, b with
  | PyStr x, PyStr y => String.eqb x y
  | PyTuple x, PyTuple y => bool_decide (x = y)
  | _, _ => false
  end.

(** [a in b] for a tuple [b]: some item is [==] to [a]. *)
Definition py_in (a : string) (b : list string) : bool :=
  existsb (fun x => py_eq (PyStr a) (PyStr x)) b.

(** ** models.py: the AST node classes *)

Inductive FilterNode : Type :=
  | Comparison_Node (field : string) (operator : ComparisonOp.t) (val : value)
  | Collection_Node (field : string) (operator : CollectionOp.t) (values : list value)
  | Range_Node (field : string) (start : value) (end_ : value)
  | Text_Search_Node (field : string) (operator : TextOp.t) (pattern : strval)
  | Logical_Node (operator : LogicalOp.t) (operands : list FilterNode).

(** ** Character classes and [float(...)] of a number literal *)

Definition is_digit (c : ascii) : bool :=
  let n := nat_of_ascii c in (48 <=? n)%nat && (n <=? 57)%nat.

Definition is_letter (c : ascii) : bool :=
  let n := nat_of_ascii c in
  ((65 <=? n)%nat && (n <=? 90)%nat) || ((97 <=? n)%nat && (n <=? 122)%nat).

(** Longest prefix of [s] whose characters satisfy [p], and the rest. *)
Fixpoint span (p : ascii -> bool) (s : string) : string * string :=
  match s with
  | String c s' =>
      if p c then let '(a, b) := span p s' in (String c a, b) else ("", s)
  | EmptyString => ("", "")
  end.

Definition digit_val (c : ascii) : Z := Z.of_nat (nat_of_ascii c) - 48.

Fixpoint digits_val (acc : Z) (s : string) : Z :=
  match s with
  | String c s' => digits_val (10 * acc + digit_val c) s'
  | EmptyString => acc
  end.

(** An exponent part [("e"|"E") ["+"|"-"] DIGIT+] at the head of [s]: its
    value and the rest of [s]. *)
Definition exponent_part (s : string) : option (Z * string) :=
  match s with
  | String c s1 =>
      if Ascii.eqb c "e" || Ascii.eqb c "E" then
        let '(neg, s2) :=
          match s1 with
          | String "+" s2 => (false, s2)
          | String "-" s2 => (true, s2)
          | _ => (false, s1)
          end in
        let '(ds, s3) := span is_digit s2 in
        match ds with
        | EmptyString => None
        | _ => Some (if neg then (- digits_val 0 ds)%Z else digits_val 0 ds, s3)
        end
      else None
  | EmptyString => None
  end.

(** The decimal number [m * 10^e] (with [0 <= m]) rounded to the nearest
    binary64, ties to even, as [float] does. *)
Definition float_of_decimal (m e : Z) : float :=
  match m with
  | Zpos p =>
      if (0 <=? e)%Z then binary_normalize prec emax (m * 10 ^ e) 0 false
      else SFdiv prec emax (S754_finite false p 0)
                 (S754_finite false (Z.to_pos (10 ^ (- e))) 0)
  | _ => S754_zero false
  end.

(** [float(s)] for the literals that the terminal [NUMBER] admits: digits
    with an optional fraction and an optional exponent.  Any other string
    handed to this function raises (Python accepts a few more spellings,
    such as signs and [inf], that the grammar never produces). *)
Definition py_float (s : string) : result float :=
  let bad := Raise (ValueError ("could not convert string to float: " ++ s)) in
  let '(ip, s1) := span is_digit s in
  let '(fp, s2) :=
    match s1 with
    | String "." s1' => span is_digit s1'
    | _ => ("", s1)
    end in
  match (ip ++ fp)%string with
  | EmptyString => bad
  | ds =>
      let m := digits_val 0 ds in
      let fl := Z.of_nat (String.length fp) in
      match s2 with
      | EmptyString => Ok (float_of_decimal m (- fl))
      | _ =>
          match exponent_part s2 with
          | Some (e, EmptyString) => Ok (float_of_decimal m (e - fl))
          | _ => bad
          end
      end
  end.

(** ** grammar.py: terminals, nonterminals and rules *)

(** The terminals of [GRAMMAR]: the imported [CNAME], [ESCAPED_STRING],
    [NUMBER] and [WS]; the declared [OPERATOR]; the anonymous literals
    ["and"], ["or"], ["not"], [":"] and [","], which Lark names [AND], [OR],
    [NOT], [COLON] and [COMMA]; and the end marker [$END]. *)
Inductive terminal : Type :=
  | CNAME | ESCAPED_STRING | NUMBER | WS | OPERATOR
  | AND | OR | NOT | COLON | COMMA | END.

(** The nonterminals.  [value_expr_plus] is the helper rule
    [__value_expr_plus_0] that Lark creates for [("," single_value)+]. *)
Inductive nonterminal : Type :=
  | root_start | start | expression | logical_expr | comparison_expr
  | field | operator | value_expr | value_expr_plus | single_value.

Inductive symbol : Type :=
  | T (t : terminal)
  | N (n : nonterminal).

Global Instance terminal_eq_dec : EqDecision terminal.
Proof. solve_decision. Defined.
Global Instance nonterminal_eq_dec : EqDecision nonterminal.
Proof. solve_decision. Defined.
Global Instance symbol_eq_dec : EqDecision symbol.
Proof. solve_decision. Defined.

Definition terminal_name (t : terminal) : string :=
  match t with
  | CNAME => "CNAME" | ESCAPED_STRING => "ESCAPED_STRING"
  | NUMBER => "NUMBER" | WS => "WS" | OPERATOR => "OPERATOR"
  | AND => "AND" | OR => "OR" | NOT => "NOT"
  | COLON => "COLON" | COMMA => "COMMA" | END => "$END"
  end.

Definition nonterminal_name (n : nonterminal) : string :=
  match n with
  | root_start => "$root_start" | start => "start"
  | expression => "expression" | logical_expr => "logical_expr"
  | comparison_expr => "comparison_expr" | field => "field"
  | operator => "operator" | value_expr => "value_expr"
  | value_expr_plus => "__value_expr_plus_0"
  | single_value => "single_value"
  end.

(** A terminal written as a string literal inside a rule is anonymous and
    is filtered out of the children handed to a callback. *)
Definition filter_out (t : terminal) : bool :=
  match t with
  | AND | OR | NOT | COLON | COMMA => true
  | _ => false
  end.

(** A rule: [alias] is the name after [->]; [expand1] is the [?] prefix of
    the rule name; [keep_all_tokens] is the [!] prefix. *)
Record rule : Type := Rule {
  origin : nonterminal;
  expansion : list symbol;
  alias : option string;
  expand1 : bool;
  keep_all_tokens : bool
}.

(** The rules of [GRAMMAR], in the order of the text, after Lark's
    expansion of the [+] repetition, preceded by the root rule
    [$root_start: start] that Lark adds for its LR(0) automaton. *)
Definition rules : list rule :=
  [ Rule root_start [N start] None false false;
    Rule start [N expression] None true false;
    Rule expression [N logical_expr] None true false;
    Rule logical_expr [N comparison_expr] None true false;
    Rule logical_expr [N logical_expr; T AND; N logical_expr] (Some "and_op") true false;
    Rule logical_expr [N logical_expr; T OR; N logical_expr] (Some "or_op") true false;
    Rule logical_expr [T NOT; N logical_expr] (Some "not_op") true false;
    Rule comparison_expr [N field; T COLON; N operator; T COLON; N value_expr]
         None true false;
    Rule field [T CNAME] None false false;
    Rule operator [T OPERATOR] None false false;
    Rule value_expr [N single_value] (Some "single_value_expr") false false;
    Rule value_expr [N single_value; N value_expr_plus] (Some "list_value_expr")
         false false;
    Rule value_expr_plus [T COMMA; N single_value] None false false;
    Rule value_expr_plus [N value_expr_plus; T COMMA; N single_value] None false false;
    Rule single_value [T ESCAPED_STRING] (Some "string_value") false true;
    Rule single_value [T NUMBER] (Some "number_value") false true;
    Rule single_value [T CNAME] (Some "name_value") false true ].

(** ** Lark's LALR(1) table construction *)

Module LALR.

(** An LR(1) item: rule index, position of the dot, lookahead. *)
Definition item : Type := nat * nat * terminal.

Definition item_eqb (a b : item) : bool := bool_decide (a = b).

Definition mem {A} (eqb : A -> A -> bool) (x : A) (l : list A) : bool :=
  existsb (eqb x) l.

Definition add {A} (eqb : A -> A -> bool) (x : A) (l : list A) : list A :=
  if mem eqb x l then l else l ++ [x].

Definition union {A} (eqb : A -> A -> bool) (l k : list A) : list A :=
  fold_left (fun acc x => add eqb x acc) k l.

Definition subset {A} (eqb : A -> A -> bool) (l k : list A) : bool :=
  forallb (fun x => mem eqb x k) l.

Definition set_eqb {A} (eqb : A -> A -> bool) (l k : list A) : bool :=
  subset eqb l k && subset eqb k l.

Definition term_eqb (a b : terminal) : bool := bool_decide (a = b).
Definition sym_eqb (a b : symbol) : bool := bool_decide (a = b).

Section Grammar.
Variable g : list rule.

Definition nonterminals : list nonterminal :=
  [root_start; start; expression; logical_expr; comparison_expr;
   field; operator; value_expr; value_expr_plus; single_value].

(** FIRST sets, by iteration from the empty table.  No rule of the
    grammar is empty, so the first symbol of an expansion decides. *)
Definition first_of (table : list (nonterminal * list terminal)) (x : symbol)
  : list terminal :=
  match x with
  | T t => [t]
  | N n =>
      match find (fun p => bool_decide (fst p = n)) table with
      | Some p => snd p
      | None => []
      end
  end.

Definition first_step (table : list (nonterminal * list terminal))
  : list (nonterminal * list terminal) :=
  map (fun n =>
         (n, fold_left
               (fun acc r =>
                  if bool_decide (origin r = n) then
                    match expansion r with
                    | y :: _ => union term_eqb acc (first_of table y)
                    | [] => acc
                    end
                  else acc)
               g []))
      nonterminals.

Definition first_table : list (nonterminal * list terminal) :=
  Nat.iter (length nonterminals) first_step [].

(** The symbols after the dot of an item. *)
Definition after_dot (it : item) : list symbol :=
  let '(r, d, _) := it in
  match nth_error g r with
  | Some ru => skipn d (expansion ru)
  | None => []
  end.

Section Items.
(** The FIRST table, computed once. *)
Variable ft : list (nonterminal * list terminal).

(** The items that one item adds to a closure. *)
Definition closure_step (it : item) : list item :=
  match after_dot it with
  | N b :: beta =>
      let las :=
        match beta with
        | y :: _ => first_of ft y
        | [] => [snd it]
        end in
      flat_map
        (fun '(i, r) =>
           if bool_decide (origin r = b)
           then map (fun la => (i, 0, la)) las
           else [])
        (combine (seq 0 (length g)) g)
  | _ => []
  end.

Fixpoint closure (fuel : nat) (items : list item) : list item :=
  match fuel with
  | O => items
  | S fuel' =>
      let items' :=
        fold_left (fun acc it => union item_eqb acc (closure_step it))
                  items items in
      if (length items' =? length items)%nat then items
      else closure fuel' items'
  end.

Definition closure_fuel : nat := 200.

(** The kernel of the state reached from [items] over [x]. *)
Definition advance (items : list item) (x : symbol) : list item :=
  flat_map
    (fun it =>
       match after_dot it with
       | y :: _ =>
           if sym_eqb x y then let '(r, d, la) := it in [(r, S d, la)]
           else []
       | [] => []
       end)
    items.

Definition goto (items : list item) (x : symbol) : list item :=
  closure closure_fuel (advance items x).

(** The symbols that follow a dot in a state. *)
Definition next_symbols (items : list item) : list symbol :=
  fold_left
    (fun acc it =>
       match after_dot it with
       | y :: _ => add sym_eqb y acc
       | [] => acc
       end)
    items [].

(** The canonical collection of LR(1) states, breadth first. *)
Fixpoint explore (fuel : nat) (done todo : list (list item))
  : list (list item) :=
  match fuel with
  | O => done ++ todo
  | S fuel' =>
      match todo with
      | [] => done
      | st :: todo' =>
          let done' := done ++ [st] in
          let news :=
            fold_left
              (fun acc x =>
                 let st' := goto st x in
                 if mem (set_eqb item_eqb) st' (done' ++ todo' ++ acc)
                 then acc else acc ++ [st'])
              (next_symbols st) [] in
          explore fuel' done' (todo' ++ news)
      end
  end.

Definition lr1_states : list (list item) :=
  explore 500 [] [closure closure_fuel [(0, 0, END)]].

(** The core of a state: its items without their lookaheads. *)
Definition core (items : list item) : list (nat * nat) :=
  fold_left (fun acc it => add (fun a b => bool_decide (a = b)) (fst it) acc)
            items [].

Definition same_core (a b : list item) : bool :=
  set_eqb (fun x y => bool_decide (x = y)) (core a) (core b).

(** LALR(1): the LR(1) states with the same core are merged. *)
Definition merge_states (sts : list (list item)) : list (list item) :=
  fold_left
    (fun acc st =>
       if existsb (same_core st) acc
       then map (fun m => if same_core st m then union item_eqb m st else m) acc
       else acc ++ [st])
    sts [].

Definition lalr_states : list (list item) := merge_states lr1_states.

Fixpoint index_of (st : list item) (sts : list (list item)) (i : nat)
  : option nat :=
  match sts with
  | [] => None
  | m :: sts' => if same_core st m then Some i else index_of st sts' (S i)
  end.

Inductive action : Type :=
  | Shift (state : nat)
  | Reduce (r : nat).

(** The row of a state among the states [all].  Shifts come from the
    transitions.  A reduction is entered for each lookahead of a
    completed item, unless the lookahead already has a shift: Lark
    settles a shift/reduce conflict as a shift.  Two reductions on
    one lookahead are a grammar error. *)
Definition shifts (all : list (list item)) (st : list item)
  : list (symbol * action) :=
  flat_map
    (fun x =>
       match index_of (goto st x) all 0 with
       | Some j => [(x, Shift j)]
       | None => []
       end)
    (next_symbols st).

Definition lookup {A} (x : symbol) (row : list (symbol * A)) : option A :=
  match find (fun p => sym_eqb x (fst p)) row with
  | Some p => Some (snd p)
  | None => None
  end.

Definition reductions (st : list item) : list (terminal * nat) :=
  flat_map
    (fun it =>
       match after_dot it with
       | [] => let '(r, _, la) := it in [(la, r)]
       | _ => []
       end)
    st.

Definition row_of (all : list (list item)) (st : list item)
  : option (list (symbol * action)) :=
  fold_left
    (fun acc '(la, r) =>
       match acc with
       | None => None
       | Some row =>
           match lookup (T la) row with
           | Some (Shift _) => Some row
           | Some (Reduce r') =>
               if (r =? r')%nat then Some row else None
           | None => Some (row ++ [(T la, Reduce r)])
           end
       end)
    (reductions st) (Some (shifts all st)).

Fixpoint all_rows (all sts : list (list item))
  : option (list (list (symbol * action))) :=
  match sts with
  | [] => Some []
  | st :: sts' =>
      match row_of all st, all_rows all sts' with
      | Some row, Some rows => Some (row :: rows)
      | _, _ => None
      end
  end.
End Items.

(** [None] stands for Lark's [GrammarError] on a reduce/reduce
    collision. *)
Definition parse_table : option (list (list (symbol * action))) :=
  let ft := first_table in
  let all := lalr_states ft in
  all_rows ft all all.

End Grammar.
End LALR.

(** The table of [GRAMMAR].  State 0 is the start state. *)
Definition states : list (list (symbol * LALR.action)) :=
  Eval vm_compute in
    match LALR.parse_table rules with
    | Some t => t
    | None => []
    end.

Definition start_state : nat := 0.

(** The state that holds the completed root item: the one reached from
    the start state over [start]. *)
Definition end_state : nat := 1.

Definition row (state : nat) : list (symbol * LALR.action) :=
  nth state states [].

Definition action_of (state : nat) (x : symbol) : option LALR.action :=
  LALR.lookup x (row state).

(** ** The terminals as patterns *)

Record Token : Type := mkToken { type : terminal; text : string }.

Definition is_ident_start (c : ascii) : bool :=
  is_letter c || Ascii.eqb c "_".

Definition is_ident (c : ascii) : bool :=
  is_ident_start c || is_digit c.

(** [WS: /[ \t\f\r\n]/+] *)
Definition is_ws (c : ascii) : bool :=
  let n := nat_of_ascii c in
  (n =? 32)%nat || (n =? 9)%nat || (n =? 12)%nat || (n =? 13)%nat || (n =? 10)%nat.

(** [s] without the prefix [p], when [p] is a prefix of [s]. *)
Fixpoint strip_prefix (p s : string) : option string :=
  match p, s with
  | EmptyString, _ => Some s
  | String a p', String b s' =>
      if Ascii.eqb a b then strip_prefix p' s' else None
  | String _ _, EmptyString => None
  end.

(** [CNAME: ("_"|LETTER) ("_"|LETTER|DIGIT)*] *)
Definition match_CNAME (s : string) : option (string * string) :=
  match s with
  | String c s' =>
      if is_ident_start c
      then let '(a, b) := span is_ident s' in Some (String c a, b)
      else None
  | EmptyString => None
  end.

Definition match_WS (s : string) : option (string * string) :=
  match span is_ws s with
  | (EmptyString, _) => None
  | (w, rest) => Some (w, rest)
  end.

(** The text of an exponent part at the head of [s], and the rest. *)
Definition match_exponent (s : string) : option (string * string) :=
  match s with
  | String c s1 =>
      if Ascii.eqb c "e" || Ascii.eqb c "E" then
        let '(sign, s2) :=
          match s1 with
          | String "+" s2 => ("+", s2)
          | String "-" s2 => ("-", s2)
          | _ => ("", s1)
          end in
        match span is_digit s2 with
        | (EmptyString, _) => None
        | (ds, s3) => Some (String c (sign ++ ds)%string, s3)
        end
      else None
  | EmptyString => None
  end.

(** An optional exponent after the text [w]. *)
Definition with_optional_exponent (w s : string) : string * string :=
  match match_exponent s with
  | Some (e, rest) => ((w ++ e)%string, rest)
  | None => (w, s)
  end.

(** [NUMBER: FLOAT | INT] with [FLOAT: INT _EXP | DECIMAL _EXP?] and
    [DECIMAL: INT "." INT? | "." INT].  The alternatives are tried in this
    order and the first that matches is taken, as Python's [re] does. *)
Definition match_NUMBER (s : string) : option (string * string) :=
  match span is_digit s with
  | (EmptyString, _) =>
      match s with
      | String "." s1 =>
          match span is_digit s1 with
          | (EmptyString, _) => None
          | (fp, s2) => Some (with_optional_exponent (String "." fp) s2)
          end
      | _ => None
      end
  | (ip, s1) =>
      match match_exponent s1 with
      | Some (e, rest) => Some ((ip ++ e)%string, rest)
      | None =>
          match s1 with
          | String "." s2 =>
              let '(fp, s3) := span is_digit s2 in
              Some (with_optional_exponent (ip ++ String "." fp)%string s3)
          | _ => Some (ip, s1)
          end
      end
  end.

(** The body of an [ESCAPED_STRING] after its opening quote: everything up
    to the first quote that an even number of backslashes precedes.  The
    pattern is a quote, [/.*?/], [/(?<!\\)(\\\\)*?/] and a quote, in which [.]
    does not match a newline.  [esc] tells whether an odd number of backslashes
    has just been read. *)
Fixpoint match_string_body (s : string) (esc : bool) : option (string * string) :=
  match s with
  | EmptyString => None
  | String c s' =>
      if Ascii.eqb c (ascii_of_nat 10) then None
      else if Ascii.eqb c (ascii_of_nat 34) then
        if esc then
          match match_string_body s' false with
          | Some (a, b) => Some (String c a, b)
          | None => None
          end
        else Some (String c "", s')
      else
        match match_string_body s' (Ascii.eqb c (ascii_of_nat 92) && negb esc) with
        | Some (a, b) => Some (String c a, b)
        | None => None
        end
  end.

Definition match_ESCAPED_STRING (s : string) : option (string * string) :=
  match s with
  | String c s' =>
      if Ascii.eqb c (ascii_of_nat 34) then
        match match_string_body s' false with
        | Some (a, b) => Some (String c a, b)
        | None => None
        end
      else None
  | EmptyString => None
  end.

(** [OPERATOR]: the literals in the order of the grammar text. *)
Definition OPERATOR_literals : list string :=
  ["eq"; "neq"; "gt"; "gte"; "lt"; "lte"; "in"; "not_in"; "between";
   "like"; "ilike"; "contains"].

(** Lark joins the alternatives of a terminal into one regular expression
    after a stable sort that puts the longer ones first, so that the
    leftmost alternative that matches is also the longest. *)
Fixpoint insert_by_width (x : string) (l : list string) : list string :=
  match l with
  | [] => [x]
  | y :: l' =>
      if (String.length y <? String.length x)%nat then x :: l
      else y :: insert_by_width x l'
  end.

Definition sort_by_width (l : list string) : list string :=
  fold_left (fun acc x => insert_by_width x acc) l [].

Definition OPERATOR_alternatives : list string :=
  Eval vm_compute in sort_by_width OPERATOR_literals.

Definition match_literal (lit s : string) : option (string * string) :=
  match strip_prefix lit s with
  | Some rest => Some (lit, rest)
  | None => None
  end.

Fixpoint match_first (lits : list string) (s : string) : option (string * string) :=
  match lits with
  | [] => None
  | lit :: lits' =>
      match match_literal lit s with
      | Some r => Some r
      | None => match_first lits' s
      end
  end.

(** The literal of an anonymous terminal. *)
Definition literal_of (t : terminal) : option string :=
  match t with
  | AND => Some "and" | OR => Some "or" | NOT => Some "not"
  | COLON => Some ":" | COMMA => Some ","
  | _ => None
  end.

(** The lexeme that terminal [t] matches at the head of [s], and the rest. *)
Definition match_terminal (t : terminal) (s : string) : option (string * string) :=
  match t with
  | CNAME => match_CNAME s
  | ESCAPED_STRING => match_ESCAPED_STRING s
  | NUMBER => match_NUMBER s
  | WS => match_WS s
  | OPERATOR => match_first OPERATOR_alternatives s
  | END => None
  | _ => match literal_of t with
         | Some lit => match_literal lit s
         | None => None
         end
  end.

(** ** Lark's lexers *)

(** The order in which a scanner tries its terminals: the patterns of
    unbounded width first, then by decreasing width.  ([CNAME],
    [ESCAPED_STRING], [NUMBER] and [WS] begin with different characters,
    so their mutual order has no effect.) *)
Definition scan_order : list terminal :=
  [CNAME; ESCAPED_STRING; NUMBER; WS; OPERATOR; AND; NOT; OR; COLON; COMMA].

Definition accepted (terms : list terminal) (t : terminal) : bool :=
  LALR.mem LALR.term_eqb t terms.

Fixpoint scan (order terms : list terminal) (s : string)
  : option (terminal * string * string) :=
  match order with
  | [] => None
  | t :: order' =>
      if accepted terms t then
        match match_terminal t s with
        | Some (w, rest) => Some (t, w, rest)
        | None => scan order' terms s
        end
      else scan order' terms s
  end.

(** A literal terminal of the lexer whose text is itself a [CNAME] is
    recognised through [CNAME]: when the whole lexeme equals the literal,
    the token takes the literal's type. *)
Definition unless (terms : list terminal) (t : terminal) (w : string) : terminal :=
  match t with
  | CNAME =>
      match find (fun k => accepted terms k &&
                           match literal_of k with
                           | Some lit => String.eqb lit w
                           | None => false
                           end) [AND; OR; NOT] with
      | Some k => k
      | None => CNAME
      end
  | _ => t
  end.

(** [BasicLexer.next_token] for the terminals [terms] (to which the
    ignored [WS] always belongs): [Ok None] at the end of the text, the
    next token that is not ignored and the remaining text otherwise.
    [WS] matches a whole run of white space, so skipping the run first
    and scanning once is the same as scanning, finding [WS] and scanning
    again. *)
Definition next_token (terms : list terminal) (s : string)
  : result (option (Token * string)) :=
  let '(_, s1) := span is_ws s in
  match s1 with
  | EmptyString => Ok None
  | _ =>
      match scan scan_order terms s1 with
      | Some (t, w, rest) => Ok (Some (mkToken (unless terms t w) w, rest))
      | None => Raise (UnexpectedCharacters s1)
      end
  end.

(** The terminals that a parser state accepts: the keys of its row that
    are terminals of the grammar. *)
Definition accepts (state : nat) : list terminal :=
  flat_map (fun p => match fst p with
                     | T END => []
                     | T t => [t]
                     | N _ => []
                     end) (row state).

Definition all_terminals : list terminal := scan_order.

(** One step of [ContextualLexer.lex]: the lexer of the current parser
    state reads the next token.  When it finds none, the root lexer, which
    knows every terminal, is tried at the same place: if it finds a token
    the error is [UnexpectedToken], otherwise [UnexpectedCharacters]. *)
Definition lex (state : nat) (s : string) : result (option (Token * string)) :=
  match next_token (accepts state) s with
  | Raise (UnexpectedCharacters s1) =>
      match next_token all_terminals s1 with
      | Ok (Some (tok, _)) => Raise (UnexpectedToken (terminal_name (type tok)))
      | _ => Raise (UnexpectedCharacters s1)
      end
  | r => r
  end.

(** ** transformers.py: the callbacks *)

(** What a callback receives and returns: a token, a scalar or list, an
    AST node, or the [Tree] that Lark builds for a rule without callback. *)
Inductive obj : Type :=
  | OTok (tok : Token)
  | OVal (v : value)
  | ONode (n : FilterNode)
  | OTree (data : string) (children : list obj).

(** [args[0]] *)
Definition item0 (args : list obj) : result obj :=
  match args with
  | a :: _ => Ok a
  | [] => Raise IndexError
  end.

(** The characters of an object that is a [str] (a [Token] is one). *)
Definition as_str (o : obj) : result string :=
  match o with
  | OTok tok => Ok (text tok)
  | OVal (VStr s) => Ok s
  | _ => Raise (TypeError "not a str")
  end.

Definition as_value (o : obj) : result value :=
  match o with
  | OTok tok => Ok (VStr (text tok))
  | OVal v => Ok v
  | _ => Raise (TypeError "neither a scalar nor a list")
  end.

Definition as_node (o : obj) : result FilterNode :=
  match o with
  | ONode n => Ok n
  | _ => Raise (TypeError "not a FilterNode")
  end.

Fixpoint mapM {A B} (f : A -> result B) (l : list A) : result (list B) :=
  match l with
  | [] => Ok []
  | a :: l' =>
      let* b := f a in
      let* bs := mapM f l' in
      Ok (b :: bs)
  end.

(** [s[1:-1]] *)
Definition slice_1_m1 (s : string) : string :=
  match s with
  | String _ s' => string_of_list_ascii (removelast (list_ascii_of_string s'))
  | EmptyString => ""
  end.

Definition startswith_quote (s : string) : bool :=
  match s with
  | String c _ => Ascii.eqb c (ascii_of_nat 34)
  | EmptyString => false
  end.

Definition endswith_quote (s : string) : bool :=
  match rev (list_ascii_of_string s) with
  | c :: _ => Ascii.eqb c (ascii_of_nat 34)
  | [] => false
  end.

Module FilterTransformer.

(** The node classes declare [operands] a list of nodes, [field] a
    [str]; the conversions below fail only on arguments that the
    grammar never passes. *)
Definition and_op (args : list obj) : result obj :=
  let* operands := mapM as_node args in
  Ok (ONode (Logical_Node LogicalOp.AND operands)).

Definition or_op (args : list obj) : result obj :=
  let* operands := mapM as_node args in
  Ok (ONode (Logical_Node LogicalOp.OR operands)).

Definition not_op (args : list obj) : result obj :=
  let* operands := mapM as_node args in
  Ok (ONode (Logical_Node LogicalOp.NOT operands)).

Definition field (args : list obj) : result obj :=
  let* a := item0 args in
  let* s := as_str a in
  Ok (OVal (VStr s)).

Definition operator (args : list obj) : result obj :=
  let* a := item0 args in
  let* s := as_str a in
  Ok (OVal (VStr s)).

Definition string_value (args : list obj) : result obj :=
  let* a := item0 args in
  let* v := as_str a in
  if startswith_quote v && endswith_quote v
  then Ok (OVal (VStr (slice_1_m1 v)))
  else Ok (OVal (VStr v)).

Definition number_value (args : list obj) : result obj :=
  let* a := item0 args in
  let* s := as_str a in
  let* f := py_float s in
  Ok (OVal (VFloat f)).

Definition name_value (args : list obj) : result obj :=
  let* a := item0 args in
  let* s := as_str a in
  Ok (OVal (VStr s)).

Definition single_value_expr (args : list obj) : result obj :=
  item0 args.

Definition list_value_expr (args : list obj) : result obj :=
  let* l := mapM as_value args in
  Ok (OVal (VList l)).

Definition comparison_expr (args : list obj) : result obj :=
  match args with
  | [field; op; val] =>
      let* op := as_str op in
      let* field := as_str field in
      let* val := as_value val in
      if py_in op ComparisonOp.values then
        let* o := ComparisonOp.call op in
        Ok (ONode (Comparison_Node field o val))
      else if py_in op CollectionOp.values then
        let vals := match val with
                    | VList l => l
                    | _ => [val]
                    end in
        let* o := CollectionOp.call op in
        Ok (ONode (Collection_Node field o vals))
      else if py_eq (PyStr op) (PyTuple RangeOp.values) then
        match val with
        | VList [a; b] => Ok (ONode (Range_Node field a b))
        | _ => Raise (ValueError "Between operator requires exactly two values")
        end
      else if py_in op TextOp.values then
        let* o := TextOp.call op in
        Ok (ONode (Text_Search_Node field o (py_str val)))
      else Raise (ValueError ("Unknown operator: " ++ op))
  | _ => Raise (ValueError "wrong number of values to unpack")
  end.

(** [getattr(transformer, name)] *)
Definition getattr (name : string) : option (list obj -> result obj) :=
  if String.eqb name "and_op" then Some and_op
  else if String.eqb name "or_op" then Some or_op
  else if String.eqb name "not_op" then Some not_op
  else if String.eqb name "field" then Some field
  else if String.eqb name "operator" then Some operator
  else if String.eqb name "string_value" then Some string_value
  else if String.eqb name "number_value" then Some number_value
  else if String.eqb name "name_value" then Some name_value
  else if String.eqb name "single_value_expr" then Some single_value_expr
  else if String.eqb name "list_value_expr" then Some list_value_expr
  else if String.eqb name "comparison_expr" then Some comparison_expr
  else None.

End FilterTransformer.

(** ** Lark's tree builder: what a reduction calls *)

(** A child is dropped when it is a filtered terminal (unless the rule
    keeps all tokens), and replaced by its own children when it is the
    tree of a rule whose name begins with an underscore. *)
Definition included (r : rule) (x : symbol) : bool :=
  match x with
  | T t => keep_all_tokens r || negb (filter_out t)
  | N _ => true
  end.

Definition should_expand (x : symbol) : bool :=
  match x with
  | T _ => false
  | N n => match nonterminal_name n with
           | String "_" _ => true
           | _ => false
           end
  end.

Fixpoint child_filter (r : rule) (syms : list symbol) (i : nat) (children : list obj)
  : result (list obj) :=
  match syms with
  | [] => Ok []
  | x :: syms' =>
      if included r x then
        match nth_error children i with
        | None => Raise IndexError
        | Some c =>
            let* here :=
              (if should_expand x then
                 match c with
                 | OTree _ cs => Ok cs
                 | _ => Raise (AttributeError "children")
                 end
               else Ok [c]) in
            let* more := child_filter r syms' (S i) children in
            Ok (here ++ more)
        end
      else child_filter r syms' (S i) children
  end.

Definition callback_name (r : rule) : string :=
  match alias r with
  | Some a => a
  | None => nonterminal_name (origin r)
  end.

(** The callback of rule [r]: the children are filtered; a rule marked
    [?] without alias returns a single child as it is; otherwise the
    transformer's method of that name is called, or a [Tree] is built when
    the transformer has none. *)
Definition callback (r : rule) (children : list obj) : result obj :=
  let* filtered := child_filter r (expansion r) 0 children in
  match expand1 r, alias r, filtered with
  | true, None, [c] => Ok c
  | _, _, _ =>
      match FilterTransformer.getattr (callback_name r) with
      | Some f => f filtered
      | None => Ok (OTree (callback_name r) filtered)
      end
  end.

(** ** Lark's LALR parser loop *)

(** Both stacks have their top at the head. *)
Record ParserState : Type := mkState {
  state_stack : list nat;
  value_stack : list obj
}.

Inductive fed : Type :=
  | Shifted (ps : ParserState)
  | Returned (v : obj).

(** [ParserState.feed_token]: look the token up in the row of the top
    state; shift and return, or reduce and repeat.  With [is_end] the loop
    returns the value on top once the end state is reached.  [callbacks]
    is the table of rule callbacks that the parser was built with.  [None]
    is returned when [fuel] iterations were not enough. *)
Fixpoint feed_token (callbacks : rule -> list obj -> result obj)
    (fuel : nat) (ps : ParserState) (token : Token) (is_end : bool)
  : option (result fed) :=
  match fuel with
  | O => None
  | S fuel' =>
      match state_stack ps with
      | [] => Some (Raise IndexError)
      | state :: _ =>
          match action_of state (T (type token)) with
          | None => Some (Raise (UnexpectedToken (terminal_name (type token))))
          | Some (LALR.Shift arg) =>
              if is_end then Some (Raise AssertionError)
              else Some (Ok (Shifted (mkState (arg :: state_stack ps)
                                              (OTok token :: value_stack ps))))
          | Some (LALR.Reduce ri) =>
              match nth_error rules ri with
              | None => Some (Raise (KeyError "rule"))
              | Some r =>
                  let size := length (expansion r) in
                  let s := rev (firstn size (value_stack ps)) in
                  let state_stack' := skipn size (state_stack ps) in
                  let value_stack' := skipn size (value_stack ps) in
                  match callbacks r s with
                  | Raise e => Some (Raise e)
                  | Ok v =>
                      match state_stack' with
                      | [] => Some (Raise IndexError)
                      | below :: _ =>
                          match action_of below (N (origin r)) with
                          | Some (LALR.Shift new_state) =>
                              if is_end && (new_state =? end_state)%nat
                              then Some (Ok (Returned v))
                              else feed_token callbacks fuel'
                                     (mkState (new_state :: state_stack')
                                              (v :: value_stack'))
                                     token is_end
                          | Some (LALR.Reduce _) => Some (Raise AssertionError)
                          | None => Some (Raise (KeyError (nonterminal_name (origin r))))
                          end
                      end
                  end
              end
          end
      end
  end.

(** Iterations granted to one call of [feed_token]: four for every state
    on the stack and four more. *)
Fixpoint feed_fuel (stack : list nat) : nat :=
  match stack with
  | [] => 4
  | _ :: stack' => S (S (S (S (feed_fuel stack'))))
  end.

Definition END_token : Token := mkToken END "".

(** [_Parser.parse_from_state]: the tokens that the lexer yields for the
    current parser state are fed to the parser one at a time; when the
    lexer is exhausted [$END] is fed.  The lexer is an object with a
    method [lex(parser_state)]; here it is a function [next] from the top
    state and the remaining input to the next token. *)
Section ParseFromState.
Context {input : Type}.
Variable next : nat -> input -> result (option (Token * input)).
Variable callbacks : rule -> list obj -> result obj.

Fixpoint parse_from_state (rounds : nat) (ps : ParserState) (s : input)
  : option (result obj) :=
  match state_stack ps with
  | [] => Some (Raise IndexError)
  | state :: _ =>
      match next state s with
      | Raise e => Some (Raise e)
      | Ok None =>
          match feed_token callbacks (feed_fuel (state_stack ps)) ps END_token true with
          | None => None
          | Some (Raise e) => Some (Raise e)
          | Some (Ok (Returned v)) => Some (Ok v)
          | Some (Ok (Shifted _)) => Some (Raise AssertionError)
          end
      | Ok (Some (token, rest)) =>
          match rounds with
          | O => None
          | S rounds' =>
              match feed_token callbacks (feed_fuel (state_stack ps)) ps token false with
              | None => None
              | Some (Raise e) => Some (Raise e)
              | Some (Ok (Returned v)) => Some (Ok v)
              | Some (Ok (Shifted ps')) => parse_from_state rounds' ps' rest
              end
          end
      end
  end.
End ParseFromState.

(** ** parser.py *)

Module FilterParser.

(** [Lark(GRAMMAR, parser='lalr', transformer=FilterTransformer())]
    followed by [.parse(expression)]: the contextual lexer, the callbacks
    of the transformer.  Every token has at least one character, so the
    length of the text bounds the number of rounds.  [None] would mean
    that the embedding ran out of iterations; it is shown below never to
    occur. *)
Definition run (expression : string) : option (result obj) :=
  parse_from_state lex callback (String.length expression)
                   (mkState [start_state] []) expression.

Definition parse (expression : string) : result FilterNode :=
  match run expression with
  | Some (Ok (ONode n)) => Ok n
  | Some (Ok _) => Raise (TypeError "the parse did not return a node")
  | Some (Raise e) => Raise e
  | None => Raise (TypeError "iteration bound exceeded")
  end.

End FilterParser.

(** ** application.py: the two entry points *)

(** The argument [filters_str] is any Python object: a [str], or
    something else ([None], a number, ...). *)
Inductive arg : Type :=
  | ArgStr (s : string)
  | ArgOther.

(** [isinstance(filters_str, str) and filters_str] *)
Definition nonempty_str (a : arg) : option string :=
  match a with
  | ArgStr (String c s) => Some (String c s)
  | _ => None
  end.

(** [parse_filters]: a fresh parser for each call; only [UnexpectedToken]
    is caught. *)
Definition parse_filters (filters_str : arg) : result (option FilterNode) :=
  match nonempty_str filters_str with
  | Some s =>
      match FilterParser.parse s with
      | Ok ast => Ok (Some ast)
      | Raise (UnexpectedToken _) => Ok None
      | Raise e => Raise e
      end
  | None => Ok None
  end.

(** [optimized_parse_filters]: the module-level dict [_AST_CACHE] is the
    state; the function returns its result (or the exception it raises)
    and the dict after the call. *)
Definition optimized_parse_filters (filters_str : arg) (_AST_CACHE : gmap string FilterNode)
  : result (option FilterNode) * gmap string FilterNode :=
  match nonempty_str filters_str with
  | None => (Ok None, _AST_CACHE)
  | Some s =>
      match _AST_CACHE !! s with
      | Some ast => (Ok (Some ast), _AST_CACHE)
      | None =>
          match FilterParser.parse s with
          | Ok ast => (Ok (Some ast), <[s := ast]> _AST_CACHE)
          | Raise (UnexpectedToken _) => (Ok None, _AST_CACHE)
          | Raise e => (Raise e, _AST_CACHE)
          end
      end
  end.

(** ** filters.py: the predicate compiler *)

(** What [build_filter] returns.  For a column these are the expression
    objects that SQLAlchemy's column operators build, and for a Logical
    node the call of [and_], [or_] or [not_] on the compiled operands.  The
    attribute that [getattr] fetches need not be a column: Python then
    applies the same operator to whatever object it is, and [build_filter]
    returns what that gives, a Python [bool] for the comparison of two
    plain objects ([Constant]), or the clause of another SQLAlchemy
    attribute ([Clause], by its text). *)
Inductive predicate : Type :=
  | Compare (column : string) (op : ComparisonOp.t) (v : value)
  | In_ (column : string) (vs : list value)
  | Not_in (column : string) (vs : list value)
  | Between (column : string) (a b : value)
  | Like (column : string) (p : strval)
  | Ilike (column : string) (p : strval)
  | Contains (column : string) (p : strval)
  | And_ (clauses : list predicate)
  | Or_ (clauses : list predicate)
  | Not_ (clause : predicate)
  | Constant (b : bool)
  | Clause (repr : string).

(** What the [visit_] methods do with the attribute they fetched. *)
Inductive operation : Type :=
  | Op_compare (op : ComparisonOp.t) (v : value)  (* column == value, column > value, ... *)
  | Op_in (vs : list value)                       (* column.in_(values) *)
  | Op_not_in (vs : list value)                   (* ~column.in_(values) *)
  | Op_between (a b : value)                      (* column.between(start, end) *)
  | Op_like (p : strval)                          (* column.like(pattern) *)
  | Op_ilike (p : strval)                         (* column.ilike(pattern) *)
  | Op_contains (p : strval).                     (* column.contains(pattern) *)

(** What an operation on an object returns: a Python [bool] or a clause. *)
Inductive pyvalue : Type :=
  | PyBool (b : bool)
  | PyClause (repr : string).

(** An attribute of a class that is no column, as far as the operations of
    the [visit_] methods go:
    - [StrObject s], the [str] [s];
    - [PlainObject], an object that Python compares by identity, that is not
      ordered with a [str], a [float] or a [list], and that has no
      attribute [in_], [between], [like], [ilike] or [contains]: a
      function, a tuple, an object of a class that defines none of these;
    - [ForeignObject operate], any other object, given by what each operation
      does on it. *)
Inductive pyobject : Type :=
  | StrObject (s : string)
  | PlainObject
  | ForeignObject (operate : operation -> result pyvalue).

(** What [getattr(model, name)] returns. *)
Inductive attribute : Type :=
  | Column (name : string)
  | Object (o : pyobject).

(** A model class, seen through [getattr(model, name)]: the attribute of
    that name, a column or another object; [None] when the class has no
    attribute of that name, so that [getattr] raises [AttributeError]. *)
Definition Model : Type := string -> option attribute.

(** The attribute that an operation looks up on the object. *)
Definition method_of (x : operation) : string :=
  match x with
  | Op_compare op _ =>
      match op with
      | ComparisonOp.EQ => "__eq__" | ComparisonOp.NEQ => "__ne__"
      | ComparisonOp.GT => "__gt__" | ComparisonOp.GTE => "__ge__"
      | ComparisonOp.LT => "__lt__" | ComparisonOp.LTE => "__le__"
      end
  | Op_in _ | Op_not_in _ => "in_"
  | Op_between _ _ => "between"
  | Op_like _ => "like"
  | Op_ilike _ => "ilike"
  | Op_contains _ => "contains"
  end.

(** Python's comparison of two objects neither of which knows the other:
    [==] is [False], [!=] is [True], and an ordering raises [TypeError]. *)
Definition compare_plain (op : ComparisonOp.t) : result predicate :=
  match op with
  | ComparisonOp.EQ => Ok (Constant false)
  | ComparisonOp.NEQ => Ok (Constant true)
  | _ => Raise (TypeError "ordering not supported between these instances")
  end.

(** Python's comparison of two [str]: equality, and the lexicographic order
    of the characters. *)
Definition compare_str (op : ComparisonOp.t) (s t : string) : bool :=
  match op with
  | ComparisonOp.EQ => String.eqb s t
  | ComparisonOp.NEQ => negb (String.eqb s t)
  | ComparisonOp.GT => String.ltb t s
  | ComparisonOp.GTE => String.leb t s
  | ComparisonOp.LT => String.ltb s t
  | ComparisonOp.LTE => String.leb s t
  end.

(** An operation of a [visit_] method on an attribute that is no column. *)
Definition operate (o : pyobject) (x : operation) : result predicate :=
  match o with
  | ForeignObject f =>
      let* v := f x in
      Ok (match v with
          | PyBool b => Constant b
          | PyClause repr => Clause repr
          end)
  | StrObject s =>
      match x with
      | Op_compare op (VStr t) => Ok (Constant (compare_str op s t))
      | Op_compare op _ => compare_plain op
      | _ => Raise (AttributeError (method_of x))
      end
  | PlainObject =>
      match x with
      | Op_compare op _ => compare_plain op
      | _ => Raise (AttributeError (method_of x))
      end
  end.

(** [not_] takes exactly one clause. *)
Definition sql_not (conditions : list predicate) : result predicate :=
  match conditions with
  | [c] => Ok (Not_ c)
  | _ => Raise (TypeError "not_() takes 1 positional argument")
  end.

Module SQLAlchemyFilterBuilder.

(** [getattr(model, node.field)] *)
Definition column_of (model : Model) (field : string) : result attribute :=
  match model field with
  | Some column => Ok column
  | None => Raise (AttributeError field)
  end.

Definition visit_comparison_node (field : string) (op : ComparisonOp.t) (v : value)
    (model : Model) : result predicate :=
  let* column := column_of model field in
  match column with
  | Column c => Ok (Compare c op v)
  | Object o => operate o (Op_compare op v)
  end.

Definition visit_collection_node (field : string) (op : CollectionOp.t)
    (vs : list value) (model : Model) : result predicate :=
  let* column := column_of model field in
  match op, column with
  | CollectionOp.IN, Column c => Ok (In_ c vs)
  | CollectionOp.IN, Object o => operate o (Op_in vs)
  | CollectionOp.NOT_IN, Column c => Ok (Not_in c vs)
  | CollectionOp.NOT_IN, Object o => operate o (Op_not_in vs)
  end.

Definition visit_range_node (field : string) (a b : value) (model : Model)
  : result predicate :=
  let* column := column_of model field in
  match column with
  | Column c => Ok (Between c a b)
  | Object o => operate o (Op_between a b)
  end.

Definition visit_text_search_node (field : string) (op : TextOp.t) (p : strval)
    (model : Model) : result predicate :=
  let* column := column_of model field in
  match op, column with
  | TextOp.LIKE, Column c => Ok (Like c p)
  | TextOp.LIKE, Object o => operate o (Op_like p)
  | TextOp.ILIKE, Column c => Ok (Ilike c p)
  | TextOp.ILIKE, Object o => operate o (Op_ilike p)
  | TextOp.CONTAINS, Column c => Ok (Contains c p)
  | TextOp.CONTAINS, Object o => operate o (Op_contains p)
  end.

(** [build_filter] dispatches on the class name of the node; each of the
    five classes has its [visit_] method.  [visit_logical_node] compiles
    the operands from left to right. *)
Fixpoint build_filter (node : FilterNode) (model : Model) {struct node}
  : result predicate :=
  match node with
  | Comparison_Node f op v => visit_comparison_node f op v model
  | Collection_Node f op vs => visit_collection_node f op vs model
  | Range_Node f a b => visit_range_node f a b model
  | Text_Search_Node f op p => visit_text_search_node f op p model
  | Logical_Node op operands =>
      let* conditions :=
        (fix each (l : list FilterNode) : result (list predicate) :=
           match l with
           | [] => Ok []
           | n :: l' =>
               let* c := build_filter n model in
               let* cs := each l' in
               Ok (c :: cs)
           end) operands in
      match op with
      | LogicalOp.AND => Ok (And_ conditions)
      | LogicalOp.OR => Ok (Or_ conditions)
      | LogicalOp.NOT => sql_not conditions
      end
  end.

End SQLAlchemyFilterBuilder.

(** The name begins with an underscore. *)
Definition leading_underscore (name : string) : bool :=
  match name with
  | String "_" _ => true
  | _ => false
  end.

(** [models.application.Users], seen through [getattr]:
    - the thirteen names bound to a [Column] in the class body are the
      columns of those names;
    - [to_dict] is the function that [models.common.Base] defines,
      [__table_args__] the tuple of the class body, [metadata] and
      [registry] the objects that SQLAlchemy's declarative base carries and
      [mro] the method of [type]: plain objects all;
    - [__tablename__] is the [str] of the class body and [__doc__] the
      docstring of the class;
    - [resources], the relationship attribute, whose operators are
      SQLAlchemy's, and the other names with a leading underscore, which
      Python's object model and SQLAlchemy's instrumentation define
      ([__class__], [__dict__], [__table__], [__mapper__], ...), are what
      [runtime] says: the sources of the repository do not settle them;
    - the class has no attribute of any other name. *)
Definition Users (runtime : Model) : Model := fun name =>
  if existsb (String.eqb name)
       ["id"; "userid"; "passwd"; "surname"; "forename"; "telno"; "addr1";
        "addr2"; "city"; "state"; "postcode"; "active"; "admin"]
  then Some (Column name)
  else if existsb (String.eqb name)
            ["to_dict"; "__table_args__"; "metadata"; "registry"; "mro"]
  then Some (Object PlainObject)
  else if String.eqb name "__tablename__" then Some (Object (StrObject "users"))
  else if String.eqb name "__doc__" then Some (Object (StrObject "User model"))
  else if String.eqb name "resources" || leading_underscore name then runtime name
  else None.

(** [get_users], up to the query it issues: [Ok None] is the unfiltered
    query, [Ok (Some p)] the query filtered by [p].  An AST object is
    always truthy.  The body runs inside the context manager of the
    session, which like SQLAlchemy's does not suppress an exception.
    [runtime] is the part of the class [Users] that the sources of the
    repository do not settle. *)
Definition get_users (runtime : Model) (filter_str : arg)
    (_AST_CACHE : gmap string FilterNode)
  : result (option predicate) * gmap string FilterNode :=
  let '(r, cache) := optimized_parse_filters filter_str _AST_CACHE in
  match r with
  | Raise e => (Raise e, cache)
  | Ok None => (Ok None, cache)
  | Ok (Some filter_ast) =>
      (let* filters := SQLAlchemyFilterBuilder.build_filter filter_ast (Users runtime) in
       Ok (Some filters), cache)
  end.

(** * Definitions for the statements and proofs *)

(** The dict holds only what the parser returned for the key. *)
Definition cache_sound (cache : gmap string FilterNode) : Prop :=
  forall s ast, cache !! s = Some ast -> FilterParser.parse s = Ok ast.

(** The dict after a sequence of calls. *)
Definition after_calls (calls : list arg) (cache : gmap string FilterNode)
  : gmap string FilterNode :=
  fold_left (fun c a => snd (optimized_parse_filters a c)) calls cache.

(** Every [Logical_Node] has two operands under [AND] and [OR], one under
    [NOT]. *)
Fixpoint well_formed (n : FilterNode) : bool :=
  match n with
  | Logical_Node op operands =>
      (length operands =? match op with LogicalOp.NOT => 1 | _ => 2 end)%nat
      && forallb well_formed operands
  | _ => true
  end.

Definition is_value (o : obj) : bool :=
  match o with
  | OVal _ => true
  | _ => false
  end.

(** The objects that the value stack holds for a grammar symbol. *)
Definition has_type (x : symbol) (o : obj) : bool :=
  match x, o with
  | T t, OTok tok => bool_decide (type tok = t)
  | N (start | expression | logical_expr | comparison_expr), ONode n => well_formed n
  | N (field | operator), OVal (VStr _) => true
  | N (single_value | value_expr), OVal _ => true
  | N value_expr_plus, OTree _ cs => forallb is_value cs
  | _, _ => false
  end.

(** The transitions that enter a state. *)
Definition incoming (q : nat) : list (nat * symbol) :=
  flat_map
    (fun q' =>
       flat_map
         (fun p => match snd p with
                   | LALR.Shift q2 => if (q2 =? q)%nat then [(q', fst p)] else []
                   | LALR.Reduce _ => []
                   end)
         (row q'))
    (seq 0 (length states)).

Definition sources_table : list (list nat) :=
  Eval vm_compute in map (fun q => map fst (incoming q)) (seq 0 (length states)).

Definition accessing_table : list symbol :=
  Eval vm_compute in
    map (fun q => match incoming q with
                  | p :: _ => snd p
                  | [] => T END
                  end) (seq 0 (length states)).

Definition sources (q : nat) : list nat := nth q sources_table [].
Definition accessing (q : nat) : symbol := nth q accessing_table (T END).

(** The stacks of a parser state: the state stack is a path of the
    automaton from the start state, and each value has the type of the
    symbol under which its state was entered. *)
Fixpoint path (ss : list nat) (vs : list obj) : Prop :=
  match ss, vs with
  | [q], [] => q = 0
  | q' :: ((q :: _) as ss'), v :: vs' =>
      In q (sources q') /\ q' <> end_state /\
      has_type (accessing q') v = true /\ path ss' vs'
  | _, _ => False
  end.

(** A bound on the reductions that do not shorten the stack, by state. *)
Definition weight (q : nat) : nat :=
  nth q [0; 0; 1; 2; 3; 0; 0; 1; 0; 0; 0; 0; 0; 0; 0; 1; 0; 0; 1; 2; 2; 2;
         0; 0; 0; 0; 0] 0.

Definition good_exn (e : exn) : Prop :=
  match e with
  | UnexpectedToken _ | UnexpectedCharacters _ | ValueError _ => True
  | _ => False
  end.

(** What [feed_token] may answer on stacks that form a path. *)
Definition feed_ok (is_end : bool) (r : option (result fed)) : Prop :=
  match r with
  | None => False
  | Some (Ok (Shifted ps')) =>
      is_end = false /\ path (state_stack ps') (value_stack ps')
  | Some (Ok (Returned v)) => has_type (N start) v = true
  | Some (Raise e) => good_exn e
  end.

(** ** What the stacks hold beyond their types *)

Definition is_ok {A} (r : result A) : bool :=
  match r with
  | Ok _ => true
  | Raise _ => false
  end.

(** One of the alternatives of the terminal [OPERATOR]. *)
Definition is_operator (s : string) : bool :=
  existsb (String.eqb s) OPERATOR_literals.

(** No node of the AST is a [Range_Node]. *)
Fixpoint range_free (n : FilterNode) : bool :=
  match n with
  | Range_Node _ _ _ => false
  | Logical_Node _ operands => forallb range_free operands
  | _ => true
  end.

(** What holds of the object on the value stack for a grammar symbol,
    beyond its type: [float] accepts the text of a [NUMBER] token, the
    text of an [OPERATOR] token, or the string that the callback
    [operator] made of it, is an alternative of the terminal, and an AST
    has no Range node. *)
Definition checked (x : symbol) (o : obj) : bool :=
  match x, o with
  | T NUMBER, OTok tok => is_ok (py_float (text tok))
  | T OPERATOR, OTok tok => is_operator (text tok)
  | N operator, OVal (VStr o) => is_operator o
  | N (start | expression | logical_expr | comparison_expr), ONode n => range_free n
  | _, _ => true
  end.

Fixpoint checked_path (ss : list nat) (vs : list obj) : Prop :=
  match ss, vs with
  | q' :: ss', v :: vs' => checked (accessing q') v = true /\ checked_path ss' vs'
  | _, _ => True
  end.

(** The exceptions of a parse: Lark's two, and the [ValueError] of
    [comparison_expr] for the operator [between]. *)
Definition parse_exn (e : exn) : Prop :=
  match e with
  | UnexpectedToken _ | UnexpectedCharacters _ => True
  | ValueError m => m = "Unknown operator: between"
  | _ => False
  end.

(** What [feed_token] may answer on such stacks. *)
Definition feed_checked (is_end : bool) (r : option (result fed)) : Prop :=
  match r with
  | None => False
  | Some (Ok (Shifted ps')) =>
      is_end = false /\ path (state_stack ps') (value_stack ps')
      /\ checked_path (state_stack ps') (value_stack ps')
  | Some (Ok (Returned v)) =>
      has_type (N start) v = true /\ checked (N start) v = true
  | Some (Raise e) => parse_exn e
  end.

(** What the parser loop may answer. *)
Definition parse_ok (r : option (result obj)) : Prop :=
  match r with
  | None => False
  | Some (Ok v) => has_type (N start) v = true
  | Some (Raise e) => good_exn e
  end.

(** ** The parser fed with a list of tokens *)

(** A lexer that hands out the tokens of a list, whatever the state. *)
Definition next_of_list (state : nat) (toks : list Token)
  : result (option (Token * list Token)) :=
  match toks with
  | [] => Ok None
  | tok :: rest => Ok (Some (tok, rest))
  end.

Definition parse_tokens (toks : list Token) : option (result obj) :=
  parse_from_state next_of_list callback (length toks) (mkState [start_state] []) toks.

(** ** Sentences in right-nested form *)

(** The three kinds of value token. *)
Inductive vkind : Type := KString | KNumber | KName.

Definition vkind_terminal (k : vkind) : terminal :=
  match k with
  | KString => ESCAPED_STRING
  | KNumber => NUMBER
  | KName => CNAME
  end.

Record vtoken : Type := VTok { vt_kind : vkind; vt_text : string }.

Definition vtoken_token (v : vtoken) : Token :=
  mkToken (vkind_terminal (vt_kind v)) (vt_text v).

(** The value that the callback of a value token returns. *)
Definition value_of (v : vtoken) : result value :=
  match vt_kind v with
  | KString =>
      let w := vt_text v in
      if startswith_quote w && endswith_quote w then Ok (VStr (slice_1_m1 w))
      else Ok (VStr w)
  | KNumber => let* f := py_float (vt_text v) in Ok (VFloat f)
  | KName => Ok (VStr (vt_text v))
  end.

(** A comparison: field, operator, first value, further values. *)
Record cmp : Type := Cmp {
  c_field : string;
  c_op : string;
  c_val : vtoken;
  c_vals : list vtoken
}.

Inductive connective : Type := KAnd | KOr.

Definition connective_token (k : connective) : Token :=
  match k with
  | KAnd => mkToken AND "and"
  | KOr => mkToken OR "or"
  end.

Definition connective_op (k : connective) : LogicalOp.t :=
  match k with
  | KAnd => LogicalOp.AND
  | KOr => LogicalOp.OR
  end.

(** A sentence whose operators nest to the right: [not] and the right
    operand of [and]/[or] extend to the end of the text. *)
Inductive sexpr : Type :=
  | SCmp (c : cmp)
  | SNot (e : sexpr)
  | SBin (c : cmp) (k : connective) (e : sexpr).

Definition COLON_token : Token := mkToken COLON ":".
Definition COMMA_token : Token := mkToken COMMA ",".
Definition NOT_token : Token := mkToken NOT "not".

Definition more_values (vs : list vtoken) : list Token :=
  flat_map (fun v => [COMMA_token; vtoken_token v]) vs.

Definition cmp_tokens (c : cmp) : list Token :=
  [mkToken CNAME (c_field c); COLON_token; mkToken OPERATOR (c_op c); COLON_token;
   vtoken_token (c_val c)] ++ more_values (c_vals c).

Fixpoint tokens (e : sexpr) : list Token :=
  match e with
  | SCmp c => cmp_tokens c
  | SNot e' => NOT_token :: tokens e'
  | SBin c k e' => cmp_tokens c ++ connective_token k :: tokens e'
  end.

(** The value handed to [comparison_expr]: the scalar, or the list when
    commas were written. *)
Definition cmp_value (c : cmp) : result value :=
  let* v := value_of (c_val c) in
  match c_vals c with
  | [] => Ok v
  | vs => let* l := mapM value_of vs in Ok (VList (v :: l))
  end.

Definition eval_cmp (c : cmp) : result FilterNode :=
  let* v := cmp_value c in
  let* r := FilterTransformer.comparison_expr
              [OVal (VStr (c_field c)); OVal (VStr (c_op c)); OVal v] in
  as_node r.

(** The AST of a sentence. *)
Fixpoint eval (e : sexpr) : result FilterNode :=
  match e with
  | SCmp c => eval_cmp c
  | SNot e' =>
      let* y := eval e' in
      Ok (Logical_Node LogicalOp.NOT [y])
  | SBin c k e' =>
      let* x := eval_cmp c in
      let* y := eval e' in
      Ok (Logical_Node (connective_op k) [x; y])
  end.

(** ** Stacks *)

(** What is open to the left of the point reached: a [not], or an
    operand and its connective. *)
Inductive frame : Type :=
  | FNot
  | FBin (x : FilterNode) (k : connective).

Definition connective_state (k : connective) : nat :=
  match k with KAnd => 8 | KOr => 9 end.

(** The state entered over [logical_expr] from an expression start. *)
Definition lexpr_state (q : nat) : nat :=
  match q with
  | 0 => 3
  | 5 => 10
  | 8 => 12
  | _ => 13
  end.

Definition top_of (K : list frame) : nat :=
  match K with
  | [] => 0
  | FNot :: _ => 5
  | FBin _ k :: _ => connective_state k
  end.

Fixpoint states_of (K : list frame) : list nat :=
  match K with
  | [] => [0]
  | FNot :: K' => 5 :: states_of K'
  | FBin _ k :: K' => connective_state k :: lexpr_state (top_of K') :: states_of K'
  end.

Fixpoint values_of (K : list frame) : list obj :=
  match K with
  | [] => []
  | FNot :: K' => OTok NOT_token :: values_of K'
  | FBin x k :: K' => OTok (connective_token k) :: ONode x :: values_of K'
  end.

Definition stack_of (K : list frame) : ParserState :=
  mkState (states_of K) (values_of K).

(** The AST once the open frames are closed around [x]. *)
Fixpoint unwind (K : list frame) (x : FilterNode) : FilterNode :=
  match K with
  | [] => x
  | FNot :: K' => unwind K' (Logical_Node LogicalOp.NOT [x])
  | FBin y k :: K' => unwind K' (Logical_Node (connective_op k) [y; x])
  end.

(** One iteration of [feed_token], the rest of the loop being [rec]. *)
Definition feed_body (callbacks : rule -> list obj -> result obj)
    (rec : ParserState -> Token -> bool -> option (result fed))
    (ps : ParserState) (token : Token) (is_end : bool) : option (result fed) :=
  match state_stack ps with
  | [] => Some (Raise IndexError)
  | state :: _ =>
      match action_of state (T (type token)) with
      | None => Some (Raise (UnexpectedToken (terminal_name (type token))))
      | Some (LALR.Shift arg) =>
          if is_end then Some (Raise AssertionError)
          else Some (Ok (Shifted (mkState (arg :: state_stack ps)
                                          (OTok token :: value_stack ps))))
      | Some (LALR.Reduce ri) =>
          match nth_error rules ri with
          | None => Some (Raise (KeyError "rule"))
          | Some r =>
              let size := length (expansion r) in
              let s := rev (firstn size (value_stack ps)) in
              let state_stack' := skipn size (state_stack ps) in
              let value_stack' := skipn size (value_stack ps) in
              match callbacks r s with
              | Raise e => Some (Raise e)
              | Ok v =>
                  match state_stack' with
                  | [] => Some (Raise IndexError)
                  | below :: _ =>
                      match action_of below (N (origin r)) with
                      | Some (LALR.Shift new_state) =>
                          if is_end && (new_state =? end_state)%nat
                          then Some (Ok (Returned v))
                          else rec (mkState (new_state :: state_stack')
                                            (v :: value_stack'))
                                   token is_end
                      | Some (LALR.Reduce _) => Some (Raise AssertionError)
                      | None => Some (Raise (KeyError (nonterminal_name (origin r))))
                      end
                  end
              end
          end
      end
  end.

(** ** Reading a comparison *)

Definition head_states (K : list frame) : list nat :=
  16 :: 14 :: 11 :: 6 :: states_of K.

Definition head_values (K : list frame) (f o : string) : list obj :=
  OTok COLON_token :: OVal (VStr o) :: OTok COLON_token :: OVal (VStr f) :: values_of K.

Definition vstate (k : vkind) : nat :=
  match k with KString => 19 | KNumber => 20 | KName => 21 end.

(** The stacks when a value token has just been shifted: [acc] holds
    the first value and the further values already reduced, if any. *)
Definition pending (K : list frame) (f o : string)
    (acc : option (value * list value)) (v : vtoken) : ParserState :=
  match acc with
  | None =>
      mkState (vstate (vt_kind v) :: head_states K)
              (OTok (vtoken_token v) :: head_values K f o)
  | Some (v1, []) =>
      mkState (vstate (vt_kind v) :: 23 :: 18 :: head_states K)
              (OTok (vtoken_token v) :: OTok COMMA_token :: OVal v1 :: head_values K f o)
  | Some (v1, l) =>
      mkState (vstate (vt_kind v) :: 24 :: 22 :: 18 :: head_states K)
              (OTok (vtoken_token v) :: OTok COMMA_token
               :: OTree "__value_expr_plus_0" (map OVal l) :: OVal v1
               :: head_values K f o)
  end.

Definition extend (acc : option (value * list value)) (val : value)
  : option (value * list value) :=
  match acc with
  | None => Some (val, [])
  | Some (v1, l) => Some (v1, l ++ [val])
  end.

(** The value that [comparison_expr] receives. *)
Definition final_value (acc : option (value * list value)) (val : value) : value :=
  match acc with
  | None => val
  | Some (v1, l) => VList (v1 :: l ++ [val])
  end.

Definition comparison (f o : string) (val : value) : result FilterNode :=
  let* r := FilterTransformer.comparison_expr [OVal (VStr f); OVal (VStr o); OVal val] in
  as_node r.

(** The values of a comparison, read from left to right. *)
Fixpoint values_from (acc : option (value * list value)) (v : vtoken)
    (vs : list vtoken) : result value :=
  let* val := value_of v in
  match vs with
  | [] => Ok (final_value acc val)
  | v' :: vs' => values_from (extend acc val) v' vs'
  end.

(** ** The surface grammar as derivations over tokens *)

Definition AND_token : Token := mkToken AND "and".
Definition OR_token : Token := mkToken OR "or".

(** [single_value: ESCAPED_STRING | NUMBER | CNAME] *)
Inductive single_value_d : list Token -> Prop :=
  | d_string w : single_value_d [mkToken ESCAPED_STRING w]
  | d_number w : single_value_d [mkToken NUMBER w]
  | d_name w : single_value_d [mkToken CNAME w].

(** [("," single_value)+] *)
Inductive plus_d : list Token -> Prop :=
  | d_plus_one sv : single_value_d sv -> plus_d (COMMA_token :: sv)
  | d_plus_more p sv :
      plus_d p -> single_value_d sv -> plus_d (p ++ COMMA_token :: sv).

(** [value_expr: single_value | single_value ("," single_value)+] *)
Inductive value_expr_d : list Token -> Prop :=
  | d_single sv : single_value_d sv -> value_expr_d sv
  | d_list sv p : single_value_d sv -> plus_d p -> value_expr_d (sv ++ p).

(** [comparison_expr: field ":" operator ":" value_expr] *)
Inductive comparison_d : list Token -> Prop :=
  | d_comparison f o ve :
      In o OPERATOR_literals -> value_expr_d ve ->
      comparison_d (mkToken CNAME f :: COLON_token :: mkToken OPERATOR o
                    :: COLON_token :: ve).

(** [logical_expr: comparison_expr | logical_expr "and" logical_expr
                 | logical_expr "or" logical_expr | "not" logical_expr] *)
Inductive logical_d : list Token -> Prop :=
  | d_cmp ts : comparison_d ts -> logical_d ts
  | d_and a b : logical_d a -> logical_d b -> logical_d (a ++ AND_token :: b)
  | d_or a b : logical_d a -> logical_d b -> logical_d (a ++ OR_token :: b)
  | d_not a : logical_d a -> logical_d (NOT_token :: a).

(** [start: expression] and [expression: logical_expr] *)
Definition sentence (ts : list Token) : Prop := logical_d ts.

(** The comparisons of a right-nested sentence. *)
Fixpoint comparisons (e : sexpr) : list cmp :=
  match e with
  | SCmp c => [c]
  | SNot e' => comparisons e'
  | SBin c _ e' => c :: comparisons e'
  end.

(** [e1 k e2], re-associated to the right. *)
Fixpoint graft (e1 : sexpr) (k : connective) (e2 : sexpr) : sexpr :=
  match e1 with
  | SCmp c => SBin c k e2
  | SNot e => SNot (graft e k e2)
  | SBin c k' e => SBin c k' (graft e k e2)
  end.

(** ** When the callbacks succeed *)

Definition number_ok (v : vtoken) : Prop :=
  vt_kind v = KNumber -> exists f, py_float (vt_text v) = Ok f.

Definition cmp_ok (c : cmp) : Prop :=
  In (c_op c) OPERATOR_literals /\ c_op c <> "between" /\
  number_ok (c_val c) /\ Forall number_ok (c_vals c).

(** ** The tokens of a text *)

(** Callbacks that build nothing: the parser as a recogniser. *)
Definition no_callbacks (r : rule) (s : list obj) : result obj := Ok (OTree "" []).

(** The tokens that the contextual lexer yields on [s], each read in the
    state that the automaton has reached on the tokens before it; [None]
    when the lexer finds no token or the automaton has no action for
    one. *)
Fixpoint tokenize (rounds : nat) (ps : ParserState) (s : string)
  : option (list Token) :=
  match state_stack ps with
  | [] => None
  | state :: _ =>
      match lex state s with
      | Raise _ => None
      | Ok None => Some []
      | Ok (Some (tok, rest)) =>
          match rounds with
          | O => None
          | S rounds' =>
              match feed_token no_callbacks (feed_fuel (state_stack ps)) ps tok false with
              | Some (Ok (Shifted ps')) =>
                  match tokenize rounds' ps' rest with
                  | Some toks => Some (tok :: toks)
                  | None => None
                  end
              | _ => None
              end
          end
      end
  end.

Definition tokens_of (s : string) : option (list Token) :=
  tokenize (String.length s) (mkState [start_state] []) s.

(** ** Every [NUMBER] lexeme is accepted by [float] *)

Fixpoint all_chars (p : ascii -> bool) (s : string) : bool :=
  match s with
  | EmptyString => true
  | String c s' => p c && all_chars p s'
  end.

Definition head_fails (p : ascii -> bool) (s : string) : bool :=
  match s with
  | EmptyString => true
  | String c _ => negb (p c)
  end.

(** The text of an exponent: a letter [e] or [E], an optional sign and
    digits. *)
Definition exponent_text (e : string) : Prop :=
  exists c sign ds,
    e = String c (sign ++ ds)%string /\
    (c = "e"%char \/ c = "E"%char) /\
    (sign = "" \/ sign = "+" \/ sign = "-") /\
    all_chars is_digit ds = true /\ ds <> "".

(** ** The tokens that the lexer yields *)

(** A [NUMBER] token whose text [float] accepts. *)
Definition number_token (tok : Token) : Prop :=
  type tok = NUMBER -> exists f, py_float (text tok) = Ok f.

(** ** Fields of an AST, in the order in which [build_filter] visits them *)

Fixpoint fields (n : FilterNode) : list string :=
  match n with
  | Comparison_Node f _ _ => [f]
  | Collection_Node f _ _ => [f]
  | Range_Node f _ _ => [f]
  | Text_Search_Node f _ _ => [f]
  | Logical_Node _ operands => flat_map fields operands
  end.

(** The attribute of that name is not a column of the model: the class has
    no such attribute, or the attribute is another object. *)
Definition not_column (model : Model) (f : string) : bool :=
  match model f with
  | Some (Column _) => false
  | _ => true
  end.

(** The first field of [n] that is not a column of the model. *)
Definition first_not_column (model : Model) (n : FilterNode) : option string :=
  find (not_column model) (fields n).

(** The answer of the entry points for what the parser did. *)
Definition answer (r : result FilterNode) : result (option FilterNode) :=
  match r with
  | Ok ast => Ok (Some ast)
  | Raise (UnexpectedToken _) => Ok None
  | Raise e => Raise e
  end.

Section FilterNode_induction.

Variable P : FilterNode -> Prop.
Hypothesis P_comparison : forall f o v, P (Comparison_Node f o v).
Hypothesis P_collection : forall f o vs, P (Collection_Node f o vs).
Hypothesis P_range : forall f a b, P (Range_Node f a b).
Hypothesis P_text : forall f o p, P (Text_Search_Node f o p).
Hypothesis P_logical : forall o operands, Forall P operands -> P (Logical_Node o operands).

Fixpoint FilterNode_nested_ind (n : FilterNode) : P n :=
  match n with
  | Comparison_Node f o v => P_comparison f o v
  | Collection_Node f o vs => P_collection f o vs
  | Range_Node f a b => P_range f a b
  | Text_Search_Node f o p => P_text f o p
  | Logical_Node o operands =>
      P_logical o operands
        ((fix each (l : list FilterNode) : Forall P l :=
            match l with
            | [] => @List.Forall_nil _ P
            | x :: l' => @List.Forall_cons _ P x l' (FilterNode_nested_ind x) (each l')
            end) operands)
  end.

End FilterNode_induction.

(** The operands of a [Logical_Node], compiled from left to right. *)
Definition each_operand (model : Model) : list FilterNode -> result (list predicate) :=
  fix each (l : list FilterNode) : result (list predicate) :=
    match l with
    | [] => Ok []
    | n :: l' =>
        let* c := SQLAlchemyFilterBuilder.build_filter n model in
        let* cs := each l' in
        Ok (c :: cs)
    end.

(** [build_filter] on [n]: a predicate when every field is a column; the
    [AttributeError] of the first field that is no column when the class
    has no attribute of that name. *)
Definition compiles (model : Model) (n : FilterNode) : Prop :=
  match first_not_column model n with
  | Some f =>
      model f = None ->
      SQLAlchemyFilterBuilder.build_filter n model = Raise (AttributeError f)
  | None => exists p, SQLAlchemyFilterBuilder.build_filter n model = Ok p
  end.

(** The nodes of [n] that are no Logical nodes, from left to right. *)
Fixpoint leaves (n : FilterNode) : list FilterNode :=
  match n with
  | Logical_Node _ operands => flat_map leaves operands
  | _ => [n]
  end.

(** The first exception of a list of results. *)
Fixpoint first_raise {A} (l : list (result A)) : option exn :=
  match l with
  | [] => None
  | Ok _ :: l' => first_raise l'
  | Raise e :: _ => Some e
  end.

(** What compiling the leaves of [n] from left to right meets first. *)
Definition first_failure (model : Model) (n : FilterNode) : option exn :=
  first_raise (map (fun leaf => SQLAlchemyFilterBuilder.build_filter leaf model)
                 (leaves n)).

Definition propagates (model : Model) (n : FilterNode) : Prop :=
  match first_failure model n with
  | Some e => SQLAlchemyFilterBuilder.build_filter n model = Raise e
  | None => exists p, SQLAlchemyFilterBuilder.build_filter n model = Ok p
  end.

(** ** constants.py: the class methods of [BaseEnum] *)

(** An enum class as its class methods see it: the members that
    [cls.__dict__] holds, in definition order, each with its name and its
    value.  The keys of [cls.__dict__] are the names. *)
Record EnumClass : Type := {
  member : Type;
  member_name : member -> string;
  member_value : member -> string;
  member_list : list member
}.

Module BaseEnum.

(** [members()]: the dict from names to values, as its items. *)
Definition members (cls : EnumClass) : list (string * string) :=
  map (fun m => (member_name cls m, member_value cls m)) (member_list cls).

(** [values()] *)
Definition values (cls : EnumClass) : list string :=
  map (member_value cls) (member_list cls).

(** [from_string(name)]: the value under the name. *)
Definition from_string (cls : EnumClass) (name : string) : result string :=
  match find (fun p => String.eqb (fst p) name) (members cls) with
  | Some p => Ok (snd p)
  | None => Raise (ValueError ("Invalid Status name: " ++ name))
  end.

(** [from_value(value)]: the first name whose value is [==] to [value]. *)
Definition from_value (cls : EnumClass) (value : string) : result string :=
  match find (fun p => String.eqb (snd p) value) (members cls) with
  | Some p => Ok (fst p)
  | None => Raise (ValueError ("Invalid Status value: " ++ value))
  end.

End BaseEnum.

Definition ComparisonOp_class : EnumClass := {|
  member := ComparisonOp.t;
  member_name := fun o =>
    match o with
    | ComparisonOp.EQ => "EQ" | ComparisonOp.NEQ => "NEQ" | ComparisonOp.GT => "GT"
    | ComparisonOp.GTE => "GTE" | ComparisonOp.LT => "LT" | ComparisonOp.LTE => "LTE"
    end;
  member_value := ComparisonOp.value;
  member_list := ComparisonOp.members
|}.

Definition CollectionOp_class : EnumClass := {|
  member := CollectionOp.t;
  member_name := fun o =>
    match o with CollectionOp.IN => "IN" | CollectionOp.NOT_IN => "NOT_IN" end;
  member_value := CollectionOp.value;
  member_list := CollectionOp.members
|}.

Definition RangeOp_class : EnumClass := {|
  member := RangeOp.t;
  member_name := fun o => match o with RangeOp.BETWEEN => "BETWEEN" end;
  member_value := RangeOp.value;
  member_list := RangeOp.members
|}.

Definition TextOp_class : EnumClass := {|
  member := TextOp.t;
  member_name := fun o =>
    match o with
    | TextOp.LIKE => "LIKE" | TextOp.ILIKE => "ILIKE" | TextOp.CONTAINS => "CONTAINS"
    end;
  member_value := TextOp.value;
  member_list := TextOp.members
|}.

Definition LogicalOp_class : EnumClass := {|
  member := LogicalOp.t;
  member_name := fun o =>
    match o with LogicalOp.AND => "AND" | LogicalOp.OR => "OR" | LogicalOp.NOT => "NOT" end;
  member_value := LogicalOp.value;
  member_list := LogicalOp.members
|}.

(** The enum classes of [constants.py]. *)
Definition registry : list EnumClass :=
  [ComparisonOp_class; CollectionOp_class; RangeOp_class; TextOp_class; LogicalOp_class].

(** No two members share a name, no two a value. *)
Definition distinct (cls : EnumClass) : Prop :=
  List.NoDup (map fst (BaseEnum.members cls)) /\ List.NoDup (map snd (BaseEnum.members cls)).

(** The quote character. *)
Definition quote : string := String (ascii_of_nat 34) "".

(** ** One comparison, by operator family *)

(** The value that the transformer hands to [comparison_expr]: the one
    value written, or the list of the several. *)
Definition value_or_list (x : value) (l : list value) : value :=
  match l with
  | [] => x
  | _ => VList (x :: l)
  end.

(** ** Values *)

(** The sign bit of a double is set. *)
Definition negative (f : float) : bool :=
  match f with
  | S754_zero s | S754_infinity s | S754_finite s _ _ => s
  | S754_nan => false
  end.

(** ** filters.py: what [build_filter] returns *)



(** ** application.py: what the cache holds *)

(** The argument is the string [s]. *)
Definition is_str (a : arg) (s : string) : bool :=
  match a with
  | ArgStr s' => String.eqb s' s
  | ArgOther => false
  end.

(** ** application.py: the other queries *)

(** [get_inactive_users], [get_active_users] and [get_admin_users]: calls
    of [get_users] with a fixed filter text. *)
Definition get_inactive_users (runtime : Model) (_AST_CACHE : gmap string FilterNode)
  : result (option predicate) * gmap string FilterNode :=
  get_users runtime (ArgStr "active:eq:N") _AST_CACHE.

Definition get_active_users (runtime : Model) (_AST_CACHE : gmap string FilterNode)
  : result (option predicate) * gmap string FilterNode :=
  get_users runtime (ArgStr "active:eq:Y") _AST_CACHE.

Definition get_admin_users (runtime : Model) (_AST_CACHE : gmap string FilterNode)
  : result (option predicate) * gmap string FilterNode :=
  get_users runtime (ArgStr "active:eq:Y and admin:eq:Y") _AST_CACHE.

(** [offset = (page - 1) * per_page] *)
Definition offset_of (page per_page : Z) : Z := ((page - 1) * per_page)%Z.

(** [get_users_paginated], up to the query it issues: the filter, the
    argument of [limit] and the argument of [offset].  It parses with
    [parse_filters], without the cache. *)
Definition get_users_paginated (runtime : Model) (filter_str : arg) (page per_page : Z)
  : result (option predicate * Z * Z) :=
  let* filter_ast := parse_filters filter_str in
  let* filters :=
    match filter_ast with
    | None => Ok None
    | Some ast =>
        let* f := SQLAlchemyFilterBuilder.build_filter ast (Users runtime) in
        Ok (Some f)
    end in
  Ok (filters, per_page, offset_of page per_page).

Definition get_active_users_paginated (runtime : Model) (page per_page : Z)
  : result (option predicate * Z * Z) :=
  get_users_paginated runtime (ArgStr "active:eq:Y") page per_page.

(** [server.py], [active_users]: [(total_count + per_page - 1) // per_page];
    [None] is the [ZeroDivisionError] of a [per_page] of zero. *)
Definition total_pages (total_count per_page : Z) : option Z :=
  if (per_page =? 0)%Z then None
  else Some ((total_count + per_page - 1) / per_page)%Z.

(** [main.py], [TestApp.get_users]: the arguments of the calls of
    [optimized_parse_filters] that [execution_count] rounds make. *)
Fixpoint benchmark_calls (execution_count : nat) : list arg :=
  match execution_count with
  | O => []
  | S n =>
      [ArgStr "active:eq:Y"; ArgStr "active:eq:Y and admin:eq:Y"; ArgStr "active:eq:N"]
      ++ benchmark_calls n
  end.

(** ** The exceptions of a parse *)

(** What the parser loop may answer on checked stacks. *)
Definition parse_checked (r : option (result obj)) : Prop :=
  match r with
  | None => False
  | Some (Ok v) => has_type (N start) v = true /\ checked (N start) v = true
  | Some (Raise e) => parse_exn e
  end.

(** No clause of the predicate is a [BETWEEN]. *)
Fixpoint between_free (p : predicate) : bool :=
  match p with
  | Between _ _ _ => false
  | And_ clauses | Or_ clauses => forallb between_free clauses
  | Not_ clause => between_free clause
  | _ => true
  end.

(** ** main.py: the batches of [populate_users_in_db] *)

(** [range(start, stop, step)] as the list of its items; [None] is the
    [ValueError] of a zero step. *)
Definition py_range (start stop step : Z) : option (list Z) :=
  if (step =? 0)%Z then None
  else
    let '(lo, hi, width) :=
      if (0 <? step)%Z then (start, stop, step) else (stop, start, (- step)%Z) in
    let n := if (hi <=? lo)%Z then 0%Z else ((hi - lo - 1) / width + 1)%Z in
    Some (map (fun k => (start + Z.of_nat k * step)%Z) (seq 0 (Z.to_nat n))).

(** The sizes of the lists that [populate_users_in_db] saves, one for each
    round of its loop, when the table is empty (otherwise it returns
    before the loop): [batch_size] is first capped by [count], and round
    [i] builds [min(batch_size, count - i)] users, none when that number
    is negative. *)
Definition batch_sizes (count batch_size : Z) : option (list Z) :=
  let batch_size := if (batch_size >? count)%Z then count else batch_size in
  match py_range 0 count batch_size with
  | None => None
  | Some starts =>
      Some (map (fun i => Z.max 0 (Z.min batch_size (count - i))) starts)
  end.

Definition total (l : list Z) : Z := fold_right Z.add 0%Z l.

(** ** Keywords where a field may begin *)

(** The rounds of [parse_from_state], stopped after [n] tokens: the state
    of the parser once the first [n] tokens of the text are shifted, with
    the text that is left.  [None] when the lexer or the parser ends the
    parse before. *)
Fixpoint advance (n : nat) (ps : ParserState) (s : string)
  : option (ParserState * string) :=
  match n with
  | O => Some (ps, s)
  | S n' =>
      match state_stack ps with
      | [] => None
      | state :: _ =>
          match lex state s with
          | Ok (Some (token, rest)) =>
              match feed_token callback (feed_fuel (state_stack ps)) ps token false with
              | Some (Ok (Shifted ps')) => advance n' ps' rest
              | _ => None
              end
          | _ => None
          end
      end
  end.

(** * Lemmas *)

(** ** The parse cache holds what the parser returned *)

Lemma cache_sound_empty : cache_sound ∅.
Proof. intros s ast H. rewrite lookup_empty in H. discriminate. Qed.

Lemma nonempty_str_ArgStr a s : nonempty_str a = Some s -> a = ArgStr s.
Proof. destruct a as [[|c s']|]; simpl; congruence. Qed.

Lemma optimized_parse_filters_sound a cache :
  cache_sound cache -> cache_sound (snd (optimized_parse_filters a cache)).
Proof.
  intros Hc. unfold optimized_parse_filters.
  destruct (nonempty_str a) as [s|]; [|exact Hc].
  destruct (cache !! s) as [ast|] eqn:Hs; [exact Hc|].
  destruct (FilterParser.parse s) as [ast|e] eqn:Hp.
  - simpl. intros s' ast' H.
    destruct (decide (s = s')) as [<-|Hne].
    + rewrite lookup_insert_eq in H. congruence.
    + rewrite lookup_insert_ne in H by exact Hne. apply Hc, H.
  - destruct e; exact Hc.
Qed.

Lemma optimized_parse_filters_result a cache :
  cache_sound cache -> fst (optimized_parse_filters a cache) = parse_filters a.
Proof.
  intros Hc. unfold optimized_parse_filters, parse_filters.
  destruct (nonempty_str a) as [s|]; [|reflexivity].
  destruct (cache !! s) as [ast|] eqn:Hs.
  - rewrite (Hc _ _ Hs). reflexivity.
  - destruct (FilterParser.parse s) as [ast|e]; [reflexivity|].
    destruct e; reflexivity.
Qed.

Lemma optimized_parse_filters_failure s e cache :
  cache_sound cache -> FilterParser.parse s = Raise e ->
  snd (optimized_parse_filters (ArgStr s) cache) = cache /\ cache !! s = None.
Proof.
  intros Hc Hp.
  assert (Hs : cache !! s = None).
  { destruct (cache !! s) as [ast|] eqn:Hs; [|reflexivity].
    rewrite (Hc _ _ Hs) in Hp. discriminate. }
  split; [|exact Hs].
  unfold optimized_parse_filters.
  destruct (nonempty_str (ArgStr s)) as [s'|] eqn:Hn; [|reflexivity].
  apply nonempty_str_ArgStr in Hn. injection Hn as <-.
  rewrite Hs, Hp. destruct e; reflexivity.
Qed.

Lemma after_calls_sound calls : forall cache,
  cache_sound cache -> cache_sound (after_calls calls cache).
Proof.
  induction calls as [|a calls IH]; intros cache Hc; [exact Hc|].
  simpl. apply IH, optimized_parse_filters_sound, Hc.
Qed.


(** ** The stacks of the parser loop stay on a path of the automaton *)


Arguments action_of : simpl never.
Arguments py_float : simpl never.
Arguments FilterTransformer.comparison_expr : simpl never.

Lemma comparison_expr_typed f o v r :
  FilterTransformer.comparison_expr [OVal (VStr f); OVal (VStr o); OVal v] = Ok r ->
  has_type (N comparison_expr) r = true.
Proof.
  unfold FilterTransformer.comparison_expr. simpl.
  repeat match goal with
         | |- context [if ?b then _ else _] => destruct b
         | |- context [bind ?x _] => destruct x; simpl
         | |- context [match ?x with _ => _ end] => destruct x; simpl
         end; intros H; inversion H; reflexivity.
Qed.

Lemma comparison_expr_exn f o v e :
  FilterTransformer.comparison_expr [OVal (VStr f); OVal (VStr o); OVal v] = Raise e ->
  good_exn e.
Proof.
  unfold FilterTransformer.comparison_expr, ComparisonOp.call, CollectionOp.call,
    TextOp.call. simpl.
  repeat match goal with
         | |- context [if ?b then _ else _] => destruct b
         | |- context [match ?x with _ => _ end] => destruct x; simpl
         end; intros H; inversion H; exact I.
Qed.

Lemma list_value_expr_typed v cs :
  forallb is_value cs = true ->
  exists l, FilterTransformer.list_value_expr (OVal v :: cs ++ []) = Ok (OVal (VList l)).
Proof.
  intros H. rewrite app_nil_r. unfold FilterTransformer.list_value_expr. simpl.
  assert (Hm : exists l, mapM as_value cs = Ok l).
  { induction cs as [|c cs IH]; simpl; [eexists; reflexivity|].
    simpl in H. apply andb_prop in H as [Hc Hcs].
    destruct c; try discriminate Hc. simpl.
    destruct (IH Hcs) as [l ->]. simpl. eexists; reflexivity. }
  destruct Hm as [l ->]. simpl. eexists; reflexivity.
Qed.

Lemma py_float_exn s e : py_float s = Raise e -> good_exn e.
Proof.
  unfold py_float.
  repeat match goal with
         | |- context [let '(_, _) := ?x in _] => destruct x
         | |- context [match ?x with _ => _ end] => destruct x
         end; intros H; inversion H; exact I.
Qed.

Ltac eval_action :=
  repeat match goal with
         | |- context [action_of ?q ?x] =>
             let v := eval vm_compute in (action_of q x) in
             change (action_of q x) with v
         end.

(** One step down a path whose top state is known. *)
Ltac path_step H :=
  match type of H with
  | path (?q :: ?ss) ?vs =>
      destruct ss as [|? ss]; destruct vs as [|? vs];
      try (simpl in H; first [contradiction | discriminate]);
      let Hin := fresh "Hin" in
      let Hty := fresh "Hty" in
      let Hne := fresh "Hne" in
      destruct H as (Hin & Hne & Hty & H);
      try (exfalso; apply Hne; reflexivity);
      clear Hne;
      simpl in Hin;
      repeat (destruct Hin as [<- | Hin]); try contradiction;
      cbn in Hty;
      repeat match type of Hty with
             | context [match ?o with _ => _ end] =>
                 is_var o; destruct o; cbn in Hty; try discriminate
             end
  end.

Ltac path_steps H k :=
  lazymatch k with
  | O => idtac
  | S ?k' => path_step H; path_steps H k'
  end.


Ltac solve_path :=
  simpl; repeat split;
  try match goal with
      | |- _ \/ _ => repeat (first [left; reflexivity | right])
      end;
  try reflexivity; try assumption; try discriminate;
  try (cbn; rewrite forallb_app; apply andb_true_intro; split;
       [assumption | reflexivity]);
  try (cbn; rewrite ?andb_true_r; repeat (apply andb_true_intro; split);
       first [assumption | reflexivity]).

Ltac use_IH IH :=
  apply IH; [ solve_path | reflexivity | cbn [length hd weight nth] in *; lia ].

Ltac after_callback IH :=
  eval_action; cbn;
  first
    [ exact I
    | use_IH IH
    | assumption
    | idtac ].

Ltac reduce_case IH H :=
  cbn [nth_error rules expansion length];
  match goal with
  | |- context [firstn ?k _] => path_steps H k
  end;
  cbv [firstn skipn]; cbn [rev app state_stack value_stack];
  cbn;
  try match goal with
      | |- context [if ?b then Ok _ else Ok _] => destruct b
      end;
  first
    [ match goal with
      | Hc : forallb is_value ?cs = true
        |- context [FilterTransformer.list_value_expr (OVal ?v :: ?cs ++ [])] =>
          let l := fresh "l" in
          let El := fresh "El" in
          destruct (list_value_expr_typed v cs Hc) as [l El]; rewrite El;
          after_callback IH
      end
    | match goal with
      | |- context [py_float ?s] =>
          let E := fresh "E" in
          destruct (py_float s) eqn:E; cbn;
          [ after_callback IH | apply py_float_exn in E; exact E ]
      end
    | match goal with
      | |- context [FilterTransformer.comparison_expr ?a] =>
          let E := fresh "E" in
          destruct (FilterTransformer.comparison_expr a) eqn:E; cbn;
          [ apply comparison_expr_typed in E;
            match goal with
            | |- context [feed_token _ _ (mkState _ (?a :: _))] =>
                destruct a; try discriminate E
            end;
            after_callback IH
          | apply comparison_expr_exn in E; exact E ]
      end
    | after_callback IH ].

Ltac state_case IH H :=
  cbn [feed_token state_stack type]; eval_action; cbv beta iota;
  lazymatch goal with
  | |- feed_ok _ (Some (Raise _)) => exact I
  | |- feed_ok _ (if _ then _ else _) => cbn; solve [solve_path]
  | |- _ => reduce_case IH H
  end.

Lemma feed_token_ok fuel : forall ss vs tok is_end,
  path ss vs ->
  is_end = bool_decide (type tok = END) ->
  4 * length ss + weight (hd 0 ss) < fuel ->
  feed_ok is_end (feed_token callback fuel (mkState ss vs) tok is_end).
Proof.
  induction fuel as [|fuel IH]; intros ss vs [t txt] is_end H He Hf; [lia|].
  destruct ss as [|q ss]; [destruct vs; contradiction|].
  simpl type in He.
  do 27 (destruct q as [|q]; [ shelve | ]).
  { exfalso. destruct ss; destruct vs; simpl in H;
      first [contradiction | discriminate
            | destruct H as (Hin & _); destruct q; simpl in Hin; contradiction]. }
  Unshelve.
  all: destruct t; subst is_end.
  all: solve [state_case IH H].
Qed.


(** ** The stacks of the parser loop hold checked tokens *)

Arguments is_operator : simpl never.

Lemma comparison_expr_checked a r :
  FilterTransformer.comparison_expr a = Ok r -> checked (N comparison_expr) r = true.
Proof.
  unfold FilterTransformer.comparison_expr.
  destruct a as [|field [|op [|val [|? ?]]]]; try discriminate.
  destruct (as_str op) as [o|]; [|discriminate].
  destruct (as_str field) as [f|]; [|discriminate].
  destruct (as_value val) as [v|]; [|discriminate].
  cbn [bind py_eq].
  destruct (py_in o ComparisonOp.values).
  { destruct (ComparisonOp.call o); [|discriminate].
    intros H. injection H as <-. reflexivity. }
  destruct (py_in o CollectionOp.values).
  { destruct (CollectionOp.call o); [|discriminate].
    intros H. injection H as <-. reflexivity. }
  destruct (py_in o TextOp.values); [|discriminate].
  destruct (TextOp.call o); [|discriminate].
  intros H. injection H as <-. reflexivity.
Qed.

Lemma comparison_expr_unknown f o v e :
  is_operator o = true ->
  FilterTransformer.comparison_expr [OVal (VStr f); OVal (VStr o); OVal v] = Raise e ->
  parse_exn e.
Proof.
  unfold is_operator. simpl existsb. intros Ho.
  repeat (apply orb_prop in Ho as [Ho | Ho];
          [apply String.eqb_eq in Ho; subst o; vm_compute; intros H;
           first [discriminate H | injection H as <-; reflexivity]|]).
  discriminate Ho.
Qed.

(** One step down the two paths. *)
Ltac checked_step H Hc :=
  path_step H;
  let Hc1 := fresh "Hc" in
  cbn [checked_path] in Hc; destruct Hc as [Hc1 Hc];
  cbn [accessing accessing_table nth checked] in Hc1.

Ltac checked_steps H Hc k :=
  lazymatch k with
  | O => idtac
  | S ?k' => checked_step H Hc; checked_steps H Hc k'
  end.

Ltac solve_checked :=
  cbn [checked_path state_stack value_stack];
  repeat split;
  cbn [accessing accessing_table nth checked type text range_free forallb];
  repeat match goal with
         | Hx : range_free ?n = true |- context [range_free ?n] => rewrite Hx
         end;
  first [assumption | reflexivity].

Ltac use_checked_IH IH :=
  apply IH;
  [ solve_path | solve_checked | assumption | reflexivity
  | cbn [length hd weight nth] in *; lia ].

Ltac after_checked_callback IH :=
  eval_action; cbn;
  first
    [ exact I
    | use_checked_IH IH
    | assumption
    | split; assumption
    | idtac ].

Ltac checked_reduce_case IH H Hc :=
  cbn [nth_error rules expansion length];
  match goal with
  | |- context [firstn ?k _] => checked_steps H Hc k
  end;
  cbv [firstn skipn]; cbn [rev app state_stack value_stack];
  cbn;
  try match goal with
      | |- context [if ?b then Ok _ else Ok _] => destruct b
      end;
  first
    [ match goal with
      | Hv : forallb is_value ?cs = true
        |- context [FilterTransformer.list_value_expr (OVal ?v :: ?cs ++ [])] =>
          let l := fresh "l" in
          let El := fresh "El" in
          destruct (list_value_expr_typed v cs Hv) as [l El]; rewrite El;
          after_checked_callback IH
      end
    | match goal with
      | Hf : is_ok (py_float ?s) = true |- context [py_float ?s] =>
          let E := fresh "E" in
          destruct (py_float s) eqn:E; cbn;
          [ after_checked_callback IH | discriminate Hf ]
      end
    | match goal with
      | |- context [FilterTransformer.comparison_expr ?a] =>
          let E := fresh "E" in
          let Er := fresh "Er" in
          destruct (FilterTransformer.comparison_expr a) eqn:E; cbn;
          [ pose proof (comparison_expr_checked _ _ E) as Er;
            apply comparison_expr_typed in E;
            match goal with
            | |- context [feed_token _ _ (mkState _ (?a :: _))] =>
                destruct a; try discriminate E
            end;
            cbn [checked] in Er;
            after_checked_callback IH
          | eapply comparison_expr_unknown; [|exact E]; assumption ]
      end
    | after_checked_callback IH ].

Ltac checked_state_case IH H Hc :=
  cbn [feed_token state_stack type]; eval_action; cbv beta iota;
  lazymatch goal with
  | |- feed_checked _ (Some (Raise _)) => exact I
  | |- feed_checked _ (if _ then _ else _) =>
      cbn; split; [reflexivity | split; [solve [solve_path] | solve [solve_checked]]]
  | |- _ => checked_reduce_case IH H Hc
  end.

Lemma feed_token_checked fuel : forall ss vs tok is_end,
  path ss vs -> checked_path ss vs ->
  checked (T (type tok)) (OTok tok) = true ->
  is_end = bool_decide (type tok = END) ->
  4 * length ss + weight (hd 0 ss) < fuel ->
  feed_checked is_end (feed_token callback fuel (mkState ss vs) tok is_end).
Proof.
  induction fuel as [|fuel IH]; intros ss vs [t txt] is_end H Hc Htok He Hf; [lia|].
  destruct ss as [|q ss]; [destruct vs; contradiction|].
  simpl type in He. cbn [type text] in Htok.
  do 27 (destruct q as [|q]; [ shelve | ]).
  { exfalso. destruct ss; destruct vs; simpl in H;
      first [contradiction | discriminate
            | destruct H as (Hin & _); destruct q; simpl in Hin; contradiction]. }
  Unshelve.
  all: destruct t; subst is_end; cbn [checked text] in Htok.
  all: solve [checked_state_case IH H Hc].
Qed.


(** ** A lexeme is a non-empty prefix of the text *)

Lemma append_String c (a b : string) :
  (String c a ++ b)%string = String c (a ++ b)%string.
Proof. reflexivity. Qed.

Lemma append_empty (b : string) : ("" ++ b)%string = b.
Proof. reflexivity. Qed.

Lemma span_split p s a b : span p s = (a, b) -> s = (a ++ b)%string.
Proof.
  revert a b. induction s as [|c s IH]; simpl; intros a b H.
  - injection H as <- <-. reflexivity.
  - destruct (p c).
    + destruct (span p s) as [a' b'] eqn:E. injection H as <- <-.
      rewrite append_String. f_equal. apply IH. reflexivity.
    + injection H as <- <-. reflexivity.
Qed.

Lemma strip_prefix_split p : forall s r,
  strip_prefix p s = Some r -> s = (p ++ r)%string.
Proof.
  induction p as [|a p IH]; simpl; intros s r H.
  - rewrite append_empty. congruence.
  - destruct s as [|b s]; [discriminate|].
    destruct (Ascii.eqb a b) eqn:E; [|discriminate].
    apply Ascii.eqb_eq in E. subst b. rewrite append_String. f_equal. apply IH, H.
Qed.

Lemma append_assoc (a b c : string) : ((a ++ b) ++ c = a ++ (b ++ c))%string.
Proof. induction a; rewrite ?append_String, ?append_empty; congruence. Qed.

Lemma match_exponent_split s e r :
  match_exponent s = Some (e, r) -> s = (e ++ r)%string /\ e <> "".
Proof.
  unfold match_exponent. destruct s as [|c s1]; [discriminate|].
  destruct (Ascii.eqb c "e" || Ascii.eqb c "E"); [|discriminate].
  destruct s1 as [|c1 s2].
  - simpl. discriminate.
  - assert (Hgen : forall sign s2',
               String c1 s2 = (sign ++ s2')%string ->
               (let (ds, s3) := span is_digit s2' in
                match ds with
                | "" => None
                | String _ _ => Some (String c (sign ++ ds)%string, s3)
                end) = Some (e, r) ->
               String c (String c1 s2) = (e ++ r)%string /\ e <> "").
    { intros sign s2' Hs H.
      destruct (span is_digit s2') as [ds s3] eqn:E.
      destruct ds as [|a ds']; [discriminate|].
      injection H as <- <-. split; [|discriminate].
      rewrite append_String. f_equal. rewrite Hs. rewrite append_assoc. f_equal.
      exact (span_split _ _ _ _ E). }
    intros H.
    destruct (Ascii.eqb c1 "+") eqn:E1.
    { apply Ascii.eqb_eq in E1. subst c1. apply (Hgen "+" s2); [reflexivity|exact H]. }
    destruct (Ascii.eqb c1 "-") eqn:E2.
    { apply Ascii.eqb_eq in E2. subst c1. apply (Hgen "-" s2); [reflexivity|exact H]. }
    apply (Hgen "" (String c1 s2)); [reflexivity|].
    revert H.
    destruct c1 as [[] [] [] [] [] [] [] []]; try discriminate; exact (fun H => H).
Qed.

Lemma with_optional_exponent_split w s w' r :
  with_optional_exponent w s = (w', r) -> (w ++ s)%string = (w' ++ r)%string.
Proof.
  unfold with_optional_exponent.
  destruct (match_exponent s) as [[e rest]|] eqn:E; intros H; injection H as <- <-.
  - apply match_exponent_split in E as [-> _]. symmetry. apply append_assoc.
  - reflexivity.
Qed.

Lemma with_optional_exponent_nonempty w s w' r :
  with_optional_exponent w s = (w', r) -> w <> "" -> w' <> "".
Proof.
  unfold with_optional_exponent.
  destruct (match_exponent s) as [[e rest]|]; intros H; injection H as <- <-;
    [|tauto].
  destruct w; [tauto|]. rewrite append_String. discriminate.
Qed.

Lemma match_string_body_split s : forall esc a b,
  match_string_body s esc = Some (a, b) -> s = (a ++ b)%string.
Proof.
  induction s as [|c s IH]; simpl; intros esc a b H; [discriminate|].
  destruct (Ascii.eqb c (ascii_of_nat 10)); [discriminate|].
  destruct (Ascii.eqb c (ascii_of_nat 34)).
  - destruct esc.
    + destruct (match_string_body s false) as [[a' b']|] eqn:E; [|discriminate].
      injection H as <- <-. rewrite append_String. f_equal. exact (IH _ _ _ E).
    + injection H as <- <-. reflexivity.
  - destruct (match_string_body s _) as [[a' b']|] eqn:E; [|discriminate].
    injection H as <- <-. rewrite append_String. f_equal. exact (IH _ _ _ E).
Qed.

Lemma match_literal_split lit s w r :
  match_literal lit s = Some (w, r) -> w = lit /\ s = (lit ++ r)%string.
Proof.
  unfold match_literal. destruct (strip_prefix lit s) as [rest|] eqn:E; [|discriminate].
  intros H. injection H as <- <-. split; [reflexivity|].
  apply strip_prefix_split, E.
Qed.

Lemma match_first_split lits s w r :
  match_first lits s = Some (w, r) -> In w lits /\ s = (w ++ r)%string.
Proof.
  induction lits as [|lit lits IH]; simpl; [discriminate|].
  destruct (match_literal lit s) as [[w' r']|] eqn:E.
  - intros H. injection H as <- <-. apply match_literal_split in E as [-> ->].
    split; [left; reflexivity | reflexivity].
  - intros H. destruct (IH H) as [Hin Hs]. split; [right; exact Hin | exact Hs].
Qed.

(** A terminal matches a non-empty prefix of the text. *)
Lemma match_terminal_split t s w r :
  match_terminal t s = Some (w, r) -> s = (w ++ r)%string /\ w <> "".
Proof.
  destruct t; unfold match_terminal, literal_of.
  - (* CNAME *)
    unfold match_CNAME. destruct s as [|c s']; [discriminate|].
    destruct (is_ident_start c); [|discriminate].
    destruct (span is_ident s') as [a b] eqn:E. intros H. injection H as <- <-.
    split; [|discriminate]. rewrite append_String. f_equal.
    exact (span_split _ _ _ _ E).
  - (* ESCAPED_STRING *)
    unfold match_ESCAPED_STRING. destruct s as [|c s']; [discriminate|].
    destruct (Ascii.eqb c (ascii_of_nat 34)); [|discriminate].
    destruct (match_string_body s' false) as [[a b]|] eqn:E; [|discriminate].
    intros H. injection H as <- <-. split; [|discriminate].
    rewrite append_String. f_equal. exact (match_string_body_split _ _ _ _ E).
  - (* NUMBER *)
    unfold match_NUMBER. destruct (span is_digit s) as [ip s1] eqn:E.
    pose proof (span_split _ _ _ _ E) as Hs.
    destruct ip as [|c ip].
    + destruct s as [|c s']; [discriminate|].
      intros H.
      assert (Hdot : c = "."%char /\
                     match span is_digit s' with
                     | ("", _) => None
                     | (String a fp', s2) =>
                         Some (with_optional_exponent (String "." (String a fp')) s2)
                     end = Some (w, r)).
      { revert H. destruct c as [[] [] [] [] [] [] [] []]; try discriminate.
        intros H. split; [reflexivity|].
        destruct (span is_digit s') as [[|a fp'] s2]; exact H. }
      destruct Hdot as [-> H']. clear H.
      destruct (span is_digit s') as [fp s2] eqn:E2.
      destruct fp as [|a fp']; [discriminate|].
      injection H' as H'.
      pose proof (span_split _ _ _ _ E2) as Hs2.
      split.
      * apply with_optional_exponent_split in H'. rewrite <- H'.
        rewrite append_String. f_equal. exact Hs2.
      * eapply with_optional_exponent_nonempty; [exact H'|discriminate].
    + destruct (match_exponent s1) as [[e rest]|] eqn:Ee.
      * intros H. injection H as <- <-. apply match_exponent_split in Ee as [-> _].
        split; [|rewrite append_String; discriminate].
        rewrite Hs. symmetry. apply append_assoc.
      * intros H.
        assert (Hcases :
                  (exists s2 fp s3, s1 = String "." s2 /\ span is_digit s2 = (fp, s3) /\
                     with_optional_exponent (String c ip ++ String "." fp)%string s3 = (w, r))
                  \/ (w = String c ip /\ r = s1)).
        { revert H. destruct s1 as [|c1 s2].
          - intros H. injection H as <- <-. right. split; reflexivity.
          - destruct (Ascii.eqb c1 ".") eqn:Ed.
            + apply Ascii.eqb_eq in Ed. subst c1.
              destruct (span is_digit s2) as [fp s3] eqn:E3. intros H.
              injection H as H. left. exists s2, fp, s3. repeat split; assumption.
            + intros H. right.
              assert (Some (String c ip, String c1 s2) = Some (w, r)).
              { revert H Ed.
                destruct c1 as [[] [] [] [] [] [] [] []]; try discriminate;
                  intros H _; exact H. }
              injection H0 as <- <-. split; reflexivity. }
        destruct Hcases as [(s2 & fp & s3 & -> & E3 & Hw) | [-> ->]].
        -- split.
           ++ apply with_optional_exponent_split in Hw. rewrite <- Hw, Hs.
              rewrite append_assoc. f_equal. rewrite append_String. f_equal.
              exact (span_split _ _ _ _ E3).
           ++ eapply with_optional_exponent_nonempty; [exact Hw|].
              rewrite append_String. discriminate.
        -- split; [exact Hs | discriminate].
  - (* WS *)
    unfold match_WS. destruct (span is_ws s) as [a b] eqn:E.
    destruct a as [|c a]; [discriminate|]. intros H. injection H as <- <-.
    split; [exact (span_split _ _ _ _ E) | discriminate].
  - (* OPERATOR *)
    intros H. apply match_first_split in H as [Hin Hs]. split; [exact Hs|].
    unfold OPERATOR_alternatives in Hin. simpl in Hin.
    intuition (subst; discriminate).
  - intros H; apply match_literal_split in H as [-> ->]; split; [reflexivity|discriminate].
  - intros H; apply match_literal_split in H as [-> ->]; split; [reflexivity|discriminate].
  - intros H; apply match_literal_split in H as [-> ->]; split; [reflexivity|discriminate].
  - intros H; apply match_literal_split in H as [-> ->]; split; [reflexivity|discriminate].
  - intros H; apply match_literal_split in H as [-> ->]; split; [reflexivity|discriminate].
  - discriminate.
Qed.


(** ** The parser returns *)

Lemma length_append (a b : string) :
  String.length (a ++ b)%string = String.length a + String.length b.
Proof. induction a; rewrite ?append_String, ?append_empty; simpl; congruence. Qed.

Lemma scan_split order terms s t w r :
  scan order terms s = Some (t, w, r) ->
  s = (w ++ r)%string /\ w <> "" /\ In t order.
Proof.
  induction order as [|t' order IH]; simpl; [discriminate|].
  destruct (accepted terms t').
  - destruct (match_terminal t' s) as [[w' r']|] eqn:E.
    + intros H. injection H as <- <- <-.
      apply match_terminal_split in E as [Hs Hw]. auto.
    + intros H. destruct (IH H) as (? & ? & ?). auto.
  - intros H. destruct (IH H) as (? & ? & ?). auto.
Qed.

Lemma unless_not_END terms t w : In t scan_order -> unless terms t w <> END.
Proof.
  intros Hin. unfold unless.
  destruct t; try discriminate; try (simpl in Hin; intuition discriminate).
  destruct (find _ _) as [k|] eqn:E; [|discriminate].
  apply find_some in E as [Hk _]. simpl in Hk. intuition (subst; discriminate).
Qed.

(** A token takes at least one character, and is never [$END]. *)
Lemma next_token_consumes terms s tok rest :
  next_token terms s = Ok (Some (tok, rest)) ->
  String.length rest < String.length s /\ type tok <> END.
Proof.
  unfold next_token. destruct (span is_ws s) as [ws s1] eqn:E.
  apply span_split in E.
  destruct s1 as [|c s1']; [discriminate|].
  destruct (scan scan_order terms (String c s1')) as [[[t w] r]|] eqn:Es; [|discriminate].
  intros H. injection H as <- <-.
  apply scan_split in Es as (Hs & Hw & Hin). split.
  - rewrite E, Hs, !length_append. destruct w; [contradiction|]. simpl. lia.
  - simpl. apply unless_not_END, Hin.
Qed.

Lemma next_token_raises terms s e :
  next_token terms s = Raise e -> exists s1, e = UnexpectedCharacters s1.
Proof.
  unfold next_token. destruct (span is_ws s) as [ws s1].
  destruct s1 as [|c s1']; [discriminate|].
  destruct (scan _ _ _) as [[[t w] r]|]; [discriminate|].
  intros H. injection H as <-. eexists; reflexivity.
Qed.

Lemma lex_consumes q s tok rest :
  lex q s = Ok (Some (tok, rest)) ->
  String.length rest < String.length s /\ type tok <> END.
Proof.
  unfold lex. destruct (next_token (accepts q) s) as [o|e] eqn:E.
  - intros H. injection H as ->. apply next_token_consumes in E. exact E.
  - apply next_token_raises in E as [s1 ->].
    destruct (next_token all_terminals s1) as [[[tok' r']|]|e']; discriminate.
Qed.

Lemma lex_raises q s e : lex q s = Raise e -> good_exn e.
Proof.
  unfold lex. destruct (next_token (accepts q) s) as [o|e0] eqn:E; [discriminate|].
  apply next_token_raises in E as [s1 ->].
  destruct (next_token all_terminals s1) as [[[tok' r']|]|e'];
    intros H; injection H as <-; exact I.
Qed.

Lemma weight_le q : weight q <= 3.
Proof.
  unfold weight.
  do 27 (destruct q as [|q]; [simpl; lia|]). destruct q; simpl; lia.
Qed.

Lemma feed_fuel_enough ss : 4 * length ss + weight (hd 0 ss) < feed_fuel ss.
Proof.
  assert (H : feed_fuel ss = 4 * length ss + 4).
  { induction ss as [|q ss IH]; simpl; [reflexivity|]. rewrite IH. lia. }
  rewrite H. pose proof (weight_le (hd 0 ss)). lia.
Qed.

Lemma parse_from_state_ok rounds : forall ps s,
  path (state_stack ps) (value_stack ps) ->
  String.length s <= rounds ->
  parse_ok (parse_from_state lex callback rounds ps s).
Proof.
  induction rounds as [|rounds IH]; intros [ss vs] s Hp Hl; simpl in Hp.
  - simpl. destruct ss as [|q ss]; [destruct vs; contradiction|].
    destruct (lex q s) as [[[tok rest]|]|e] eqn:E.
    + apply lex_consumes in E. lia.
    + pose proof (feed_token_ok (feed_fuel (q :: ss)) (q :: ss) vs END_token true Hp
                    eq_refl (feed_fuel_enough _)) as Hf.
      simpl state_stack.
      destruct (feed_token _ _ _ _ _) as [[[ps'|v]|e]|]; simpl in *; auto.
      destruct Hf; discriminate.
    + apply lex_raises in E. exact E.
  - simpl. destruct ss as [|q ss]; [destruct vs; contradiction|].
    destruct (lex q s) as [[[tok rest]|]|e] eqn:E.
    + apply lex_consumes in E as [Hlen Hne].
      assert (Hflag : false = bool_decide (type tok = END)).
      { symmetry. apply bool_decide_eq_false. exact Hne. }
      pose proof (feed_token_ok (feed_fuel (q :: ss)) (q :: ss) vs tok false Hp
                    Hflag (feed_fuel_enough _)) as Hf.
      simpl state_stack.
      destruct (feed_token _ _ _ _ _) as [[[ps'|v]|e]|]; simpl in *; auto.
      apply IH; [exact (proj2 Hf) | lia].
    + pose proof (feed_token_ok (feed_fuel (q :: ss)) (q :: ss) vs END_token true Hp
                    eq_refl (feed_fuel_enough _)) as Hf.
      simpl state_stack.
      destruct (feed_token _ _ _ _ _) as [[[ps'|v]|e]|]; simpl in *; auto.
      destruct Hf; discriminate.
    + apply lex_raises in E. exact E.
Qed.

Lemma run_ok s : parse_ok (FilterParser.run s).
Proof.
  unfold FilterParser.run. apply parse_from_state_ok; [reflexivity | lia].
Qed.

(** The parse of a text yields an AST or raises one of Lark's two
    exceptions or a [ValueError] of a callback; the embedding never runs
    out of iterations. *)
Lemma parse_outcome s :
  match FilterParser.parse s with
  | Ok n => well_formed n = true
  | Raise e => good_exn e
  end.
Proof.
  pose proof (run_ok s) as H. unfold FilterParser.parse.
  destruct (FilterParser.run s) as [[v|e]|]; simpl in H; [|exact H|contradiction].
  destruct v; try discriminate H. exact H.
Qed.

Lemma run_total s : FilterParser.run s <> None.
Proof.
  pose proof (run_ok s) as H. destruct (FilterParser.run s); [discriminate|contradiction].
Qed.


(** ** The parse of a right-nested sentence *)

Lemma states_of_top K : exists ss, states_of K = top_of K :: ss.
Proof. destruct K as [|[|x k] K]; simpl; eexists; reflexivity. Qed.

Lemma top_of_start K : top_of K = 0 \/ top_of K = 5 \/ top_of K = 8 \/ top_of K = 9.
Proof. destruct K as [|[|x []] K]; simpl; auto. Qed.

Ltac closed_nat q :=
  lazymatch q with
  | O => idtac
  | S ?q' => closed_nat q'
  end.

Ltac closed_action :=
  repeat match goal with
         | |- context [action_of ?q ?x] =>
             closed_nat q;
             lazymatch x with
             | T ?t => is_constructor t
             | N ?n => is_constructor n
             end;
             let v := eval vm_compute in (action_of q x) in
             change (action_of q x) with v
         end.

Ltac feed_step :=
  cbn [feed_fuel feed_token state_stack value_stack type vtoken_token vkind_terminal
       connective_token COLON_token COMMA_token NOT_token END_token];
  closed_action; cbv beta iota;
  cbn [nth_error rules expansion length origin];
  cbv [firstn skipn]; cbn [rev app].

Lemma feed_token_step cb fuel ps token is_end :
  feed_token cb (S fuel) ps token is_end
  = feed_body cb (feed_token cb fuel) ps token is_end.
Proof. reflexivity. Qed.

Arguments feed_token : simpl never.

(** Symbolic execution of one iteration, and of a whole call. *)
Ltac feed1 :=
  cbn [feed_fuel]; rewrite feed_token_step;
  cbn [feed_body state_stack value_stack type vtoken_token vkind_terminal vt_kind
       vt_text connective_token COLON_token COMMA_token NOT_token END_token];
  closed_action; cbv beta iota zeta;
  cbn [nth_error rules expansion length origin]; cbv [firstn skipn];
  cbn [rev app]; cbn; closed_action; cbn.

Ltac split_value :=
  match goal with
  | |- context [if ?b then Ok _ else Ok _] => destruct b
  | |- context [py_float ?w] => destruct (py_float w)
  end; cbn.

Ltac run := cbn; repeat first [feed1 | split_value].

Lemma lexpr_action K :
  action_of (top_of K) (N logical_expr) = Some (LALR.Shift (lexpr_state (top_of K))).
Proof. destruct (top_of_start K) as [-> | [-> | [-> | ->]]]; reflexivity. Qed.

Lemma lexpr_state_not_end K : (lexpr_state (top_of K) =? end_state)%nat = false.
Proof. destruct (top_of_start K) as [-> | [-> | [-> | ->]]]; reflexivity. Qed.

(** Closing the frames on [$END]. *)
Lemma finish K : forall fuel x,
  length K + 2 <= fuel ->
  feed_token callback fuel
    (mkState (lexpr_state (top_of K) :: states_of K) (ONode x :: values_of K))
    END_token true
  = Some (Ok (Returned (ONode (unwind K x)))).
Proof.
  induction K as [|[|y k] K IH]; intros fuel x Hf.
  - destruct fuel as [|[|fuel]]; [simpl in Hf; lia | simpl in Hf; lia |].
    cbn. do 2 feed1. reflexivity.
  - destruct fuel as [|fuel]; [simpl in Hf; lia|].
    cbn. feed1.
    destruct (states_of_top K) as [ss Hss]. rewrite Hss.
    rewrite lexpr_action, lexpr_state_not_end. rewrite <- Hss.
    apply IH. simpl in Hf. lia.
  - destruct fuel as [|fuel]; [simpl in Hf; lia|].
    destruct k; cbn; feed1;
    destruct (states_of_top K) as [ss Hss]; rewrite Hss;
    rewrite lexpr_action, lexpr_state_not_end; rewrite <- Hss;
    apply IH; simpl in Hf; lia.
Qed.

Lemma read_head K f o toks n :
  parse_from_state next_of_list callback (S (S (S (S n)))) (stack_of K)
    (mkToken CNAME f :: COLON_token :: mkToken OPERATOR o :: COLON_token :: toks)
  = parse_from_state next_of_list callback n
      (mkState (head_states K) (head_values K f o)) toks.
Proof.
  unfold stack_of, head_states. destruct (states_of_top K) as [ss ->].
  destruct (top_of_start K) as [-> | [-> | [-> | ->]]]; run; reflexivity.
Qed.

Lemma read_value K f o v toks n :
  parse_from_state next_of_list callback (S n)
    (mkState (head_states K) (head_values K f o)) (vtoken_token v :: toks)
  = parse_from_state next_of_list callback n (pending K f o None v) toks.
Proof.
  destruct v as [[] w]; run; reflexivity.
Qed.

Lemma read_comma K f o acc v v' toks n :
  parse_from_state next_of_list callback (S (S n)) (pending K f o acc v)
    (COMMA_token :: vtoken_token v' :: toks)
  = match value_of v with
    | Ok val =>
        parse_from_state next_of_list callback n (pending K f o (extend acc val) v') toks
    | Raise e => Some (Raise e)
    end.
Proof.
  destruct acc as [[v1 [|v2 l]]|]; destruct v as [[] w]; destruct v' as [[] w'];
    unfold value_of, pending.
  all: run.
  all: try reflexivity.
  all: rewrite ?map_app; try reflexivity.
Qed.

Lemma cmp_action K :
  action_of (top_of K) (N comparison_expr) = Some (LALR.Shift 4).
Proof. destruct (top_of_start K) as [-> | [-> | [-> | ->]]]; reflexivity. Qed.

Lemma lexpr_shift K k :
  action_of (lexpr_state (top_of K)) (T (type (connective_token k)))
  = Some (LALR.Shift (connective_state k)).
Proof.
  destruct k; destruct (top_of_start K) as [-> | [-> | [-> | ->]]]; reflexivity.
Qed.

Lemma lexpr_shift_and K :
  action_of (lexpr_state (top_of K)) (T AND) = Some (LALR.Shift 8).
Proof. apply (lexpr_shift K KAnd). Qed.

Lemma lexpr_shift_or K :
  action_of (lexpr_state (top_of K)) (T OR) = Some (LALR.Shift 9).
Proof. apply (lexpr_shift K KOr). Qed.

Lemma feed_fuel_length ss : length ss <= feed_fuel ss.
Proof. induction ss; simpl; lia. Qed.

Lemma frames_length K : length K <= length (states_of K).
Proof. induction K as [|[|x k] K IH]; simpl; lia. Qed.

Lemma frames_fuel K ss : states_of K = top_of K :: ss -> length K <= feed_fuel ss + 4.
Proof.
  intros H. pose proof (frames_length K) as H1. rewrite H in H1. simpl in H1.
  pose proof (feed_fuel_length ss). lia.
Qed.

Lemma finish' K ss fuel x :
  states_of K = top_of K :: ss ->
  length K + 2 <= fuel ->
  feed_token callback fuel
    (mkState (lexpr_state (top_of K) :: top_of K :: ss) (ONode x :: values_of K))
    END_token true
  = Some (Ok (Returned (ONode (unwind K x)))).
Proof. intros <- Hf. apply finish, Hf. Qed.

Lemma mapM_as_value l : mapM as_value (map OVal l) = Ok l.
Proof. induction l as [|v l IH]; simpl; [reflexivity|]. rewrite IH. reflexivity. Qed.

Lemma list_value_expr_map l :
  FilterTransformer.list_value_expr (map OVal l) = Ok (OVal (VList l)).
Proof.
  unfold FilterTransformer.list_value_expr. rewrite mapM_as_value. reflexivity.
Qed.

Lemma lve_shape v1 v2 l x :
  FilterTransformer.list_value_expr
    (OVal v1 :: OVal v2 :: (map OVal l ++ [OVal x]) ++ [])
  = Ok (OVal (VList (v1 :: v2 :: l ++ [x]))).
Proof.
  rewrite <- (list_value_expr_map (v1 :: v2 :: l ++ [x])).
  f_equal. simpl. rewrite app_nil_r, map_app. reflexivity.
Qed.

Ltac ctx Hss :=
  progress (rewrite ?cmp_action, ?lexpr_action, ?lexpr_state_not_end,
             ?lexpr_shift_and, ?lexpr_shift_or, ?lve_shape); cbn.

Ltac split_comparison :=
  match goal with
  | |- context [FilterTransformer.comparison_expr ?a] =>
      let E := fresh "E" in
      let r := fresh "r" in
      destruct (FilterTransformer.comparison_expr a) as [r|?] eqn:E;
      [ apply comparison_expr_typed in E; destruct r; try discriminate E; clear E | ];
      cbn
  end.

Lemma read_connective K f o acc v k toks n :
  parse_from_state next_of_list callback (S n) (pending K f o acc v)
    (connective_token k :: toks)
  = match value_of v with
    | Ok val =>
        match comparison f o (final_value acc val) with
        | Ok x => parse_from_state next_of_list callback n (stack_of (FBin x k :: K)) toks
        | Raise e => Some (Raise e)
        end
    | Raise e => Some (Raise e)
    end.
Proof.
  destruct (states_of_top K) as [ss Hss].
  unfold comparison, stack_of, final_value, value_of, pending, head_states.
  cbn [states_of values_of]. rewrite Hss.
  destruct acc as [[v1 [|v2 l]]|]; destruct v as [[] w]; destruct k.
  all: cbn.
  all: repeat first [feed1 | split_value | ctx Hss | split_comparison].
  all: reflexivity.
Qed.

Ltac fin Hss :=
  rewrite (finish' _ _ _ _ Hss)
    by (pose proof (frames_fuel _ _ Hss); cbn [feed_fuel]; lia);
  cbn.

Lemma read_end K f o acc v n :
  parse_from_state next_of_list callback n (pending K f o acc v) []
  = match value_of v with
    | Ok val =>
        match comparison f o (final_value acc val) with
        | Ok x => Some (Ok (ONode (unwind K x)))
        | Raise e => Some (Raise e)
        end
    | Raise e => Some (Raise e)
    end.
Proof.
  destruct (states_of_top K) as [ss Hss].
  unfold comparison, final_value, value_of, pending, head_states.
  rewrite Hss.
  destruct acc as [[v1 [|v2 l]]|]; destruct v as [[] w]; destruct n.
  all: cbn.
  all: repeat first [fin Hss | feed1 | split_value | ctx Hss | split_comparison].
  all: reflexivity.
Qed.

Lemma values_from_some vs : forall v1 l v,
  values_from (Some (v1, l)) v vs
  = let* vals := mapM value_of (v :: vs) in Ok (VList (v1 :: l ++ vals)).
Proof.
  induction vs as [|v' vs IH]; intros v1 l v; simpl.
  - destruct (value_of v); reflexivity.
  - destruct (value_of v) as [val|]; simpl; [|reflexivity].
    rewrite IH. simpl.
    destruct (value_of v') as [val'|]; simpl; [|reflexivity].
    destruct (mapM value_of vs) as [vals|]; simpl; [|reflexivity].
    rewrite <- app_assoc. reflexivity.
Qed.

Lemma values_from_cmp c : values_from None (c_val c) (c_vals c) = cmp_value c.
Proof.
  unfold cmp_value. destruct (c_vals c) as [|v' vs]; simpl.
  - destruct (value_of (c_val c)); reflexivity.
  - destruct (value_of (c_val c)) as [val|]; simpl; [|reflexivity].
    rewrite values_from_some. reflexivity.
Qed.

Lemma read_values_connective K f o k toks n vs : forall acc v,
  parse_from_state next_of_list callback (length (more_values vs) + S n)
    (pending K f o acc v) (more_values vs ++ connective_token k :: toks)
  = match values_from acc v vs with
    | Ok val =>
        match comparison f o val with
        | Ok x => parse_from_state next_of_list callback n (stack_of (FBin x k :: K)) toks
        | Raise e => Some (Raise e)
        end
    | Raise e => Some (Raise e)
    end.
Proof.
  induction vs as [|v' vs IH]; intros acc v.
  - change (parse_from_state next_of_list callback (S n) (pending K f o acc v)
              (connective_token k :: toks) = match values_from acc v [] with
                 | Ok val =>
                     match comparison f o val with
                     | Ok x => parse_from_state next_of_list callback n
                                 (stack_of (FBin x k :: K)) toks
                     | Raise e => Some (Raise e)
                     end
                 | Raise e => Some (Raise e)
                 end).
    rewrite read_connective.
    simpl. destruct (value_of v); reflexivity.
  - change (more_values (v' :: vs))
      with (COMMA_token :: vtoken_token v' :: more_values vs).
    cbn [length app Nat.add]. rewrite read_comma. simpl values_from.
    destruct (value_of v) as [val|]; simpl; [|reflexivity].
    apply IH.
Qed.

Lemma read_values_end K f o n vs : forall acc v,
  parse_from_state next_of_list callback (length (more_values vs) + n)
    (pending K f o acc v) (more_values vs)
  = match values_from acc v vs with
    | Ok val =>
        match comparison f o val with
        | Ok x => Some (Ok (ONode (unwind K x)))
        | Raise e => Some (Raise e)
        end
    | Raise e => Some (Raise e)
    end.
Proof.
  induction vs as [|v' vs IH]; intros acc v.
  - simpl more_values. rewrite read_end.
    simpl. destruct (value_of v); reflexivity.
  - change (more_values (v' :: vs))
      with (COMMA_token :: vtoken_token v' :: more_values vs).
    cbn [length app Nat.add]. rewrite read_comma. simpl values_from.
    destruct (value_of v) as [val|]; simpl; [|reflexivity].
    apply IH.
Qed.

Lemma eval_cmp_comparison c :
  eval_cmp c = let* val := cmp_value c in comparison (c_field c) (c_op c) val.
Proof. reflexivity. Qed.

Lemma read_cmp_connective K c k toks n :
  parse_from_state next_of_list callback (length (cmp_tokens c) + S n)
    (stack_of K) (cmp_tokens c ++ connective_token k :: toks)
  = match eval_cmp c with
    | Ok x => parse_from_state next_of_list callback n (stack_of (FBin x k :: K)) toks
    | Raise e => Some (Raise e)
    end.
Proof.
  destruct c as [f o v vs]. unfold cmp_tokens. cbn [c_field c_op c_val c_vals].
  cbn [app length Nat.add]. rewrite read_head, read_value, read_values_connective.
  rewrite eval_cmp_comparison, <- values_from_cmp. cbn [c_field c_op c_val c_vals].
  destruct (values_from None v vs); reflexivity.
Qed.

Lemma read_cmp_end K c n :
  parse_from_state next_of_list callback (length (cmp_tokens c) + n)
    (stack_of K) (cmp_tokens c)
  = match eval_cmp c with
    | Ok x => Some (Ok (ONode (unwind K x)))
    | Raise e => Some (Raise e)
    end.
Proof.
  destruct c as [f o v vs]. unfold cmp_tokens. cbn [c_field c_op c_val c_vals].
  cbn [app length Nat.add]. rewrite read_head, read_value, read_values_end.
  rewrite eval_cmp_comparison, <- values_from_cmp. cbn [c_field c_op c_val c_vals].
  destruct (values_from None v vs); reflexivity.
Qed.

Lemma read_not K toks n :
  parse_from_state next_of_list callback (S n) (stack_of K) (NOT_token :: toks)
  = parse_from_state next_of_list callback n (stack_of (FNot :: K)) toks.
Proof.
  unfold stack_of. cbn [states_of values_of].
  destruct (states_of_top K) as [ss ->].
  destruct (top_of_start K) as [-> | [-> | [-> | ->]]]; run; reflexivity.
Qed.

(** The parser on a right-nested sentence, from any open frames. *)
Lemma parse_sentence e : forall K n,
  parse_from_state next_of_list callback (length (tokens e) + n) (stack_of K) (tokens e)
  = match eval e with
    | Ok x => Some (Ok (ONode (unwind K x)))
    | Raise err => Some (Raise err)
    end.
Proof.
  induction e as [c | e IH | c k e IH]; intros K n.
  - apply read_cmp_end.
  - cbn [tokens length Nat.add]. rewrite read_not, IH. simpl.
    destruct (eval e); reflexivity.
  - cbn [tokens]. rewrite length_app. cbn [length].
    replace (length (cmp_tokens c) + S (length (tokens e)) + n)
      with (length (cmp_tokens c) + S (length (tokens e) + n)) by lia.
    rewrite read_cmp_connective. simpl.
    destruct (eval_cmp c) as [x|]; simpl; [|reflexivity].
    rewrite IH. destruct (eval e); reflexivity.
Qed.

Theorem parse_tokens_sentence e :
  parse_tokens (tokens e)
  = match eval e with
    | Ok x => Some (Ok (ONode x))
    | Raise err => Some (Raise err)
    end.
Proof.
  unfold parse_tokens.
  rewrite <- (Nat.add_0_r (length (tokens e))).
  apply (parse_sentence e [] 0).
Qed.


(** ** Sentences of the grammar in right-nested form *)

Lemma tokens_graft e1 k e2 :
  tokens (graft e1 k e2) = tokens e1 ++ connective_token k :: tokens e2.
Proof.
  induction e1 as [c | e IH | c k' e IH]; simpl.
  - reflexivity.
  - rewrite IH. reflexivity.
  - rewrite IH. rewrite <- !app_assoc. reflexivity.
Qed.

Lemma comparisons_graft e1 k e2 :
  comparisons (graft e1 k e2) = comparisons e1 ++ comparisons e2.
Proof.
  induction e1 as [c | e IH | c k' e IH]; simpl; [reflexivity | exact IH |].
  rewrite IH. reflexivity.
Qed.

Lemma single_value_vtoken sv : single_value_d sv -> exists v, sv = [vtoken_token v].
Proof.
  intros [w|w|w];
    [exists (VTok KString w) | exists (VTok KNumber w) | exists (VTok KName w)];
    reflexivity.
Qed.

Lemma more_values_app a b : more_values (a ++ b) = more_values a ++ more_values b.
Proof. unfold more_values. apply flat_map_app. Qed.

Lemma plus_more_values p : plus_d p -> exists vs, p = more_values vs.
Proof.
  induction 1 as [sv Hsv | p sv Hp [vs ->] Hsv].
  - destruct (single_value_vtoken _ Hsv) as [v ->]. exists [v]. reflexivity.
  - destruct (single_value_vtoken _ Hsv) as [v ->]. exists (vs ++ [v]).
    rewrite more_values_app. reflexivity.
Qed.

Lemma comparison_cmp ts :
  comparison_d ts -> exists c, ts = cmp_tokens c /\ In (c_op c) OPERATOR_literals.
Proof.
  intros [f o ve Ho Hve]. destruct Hve as [sv Hsv | sv p Hsv Hp].
  - destruct (single_value_vtoken _ Hsv) as [v ->].
    exists (Cmp f o v []). split; [reflexivity | exact Ho].
  - destruct (single_value_vtoken _ Hsv) as [v ->].
    destruct (plus_more_values _ Hp) as [vs ->].
    exists (Cmp f o v vs). split; [reflexivity | exact Ho].
Qed.

(** Every sentence of the grammar is the token list of a right-nested
    sentence. *)
Lemma sentence_right_nested ts :
  sentence ts ->
  exists e, ts = tokens e /\
            Forall (fun c => In (c_op c) OPERATOR_literals) (comparisons e).
Proof.
  unfold sentence.
  induction 1 as [ts Hc | a b Ha [ea [-> Fa]] Hb [eb [-> Fb]]
                 | a b Ha [ea [-> Fa]] Hb [eb [-> Fb]] | a Ha [ea [-> Fa]]].
  - destruct (comparison_cmp _ Hc) as [c [-> Ho]]. exists (SCmp c).
    split; [reflexivity | constructor; [exact Ho | constructor]].
  - exists (graft ea KAnd eb). rewrite tokens_graft, comparisons_graft.
    split; [reflexivity | apply Forall_app; split; assumption].
  - exists (graft ea KOr eb). rewrite tokens_graft, comparisons_graft.
    split; [reflexivity | apply Forall_app; split; assumption].
  - exists (SNot ea). split; [reflexivity | exact Fa].
Qed.

Lemma value_of_ok v : number_ok v -> exists val, value_of v = Ok val.
Proof.
  intros H. destruct v as [[] w]; unfold value_of; simpl.
  - destruct (_ && _); eexists; reflexivity.
  - destruct (H eq_refl) as [f Hf]. simpl in Hf. rewrite Hf. eexists; reflexivity.
  - eexists; reflexivity.
Qed.

Lemma mapM_value_of_ok vs :
  Forall number_ok vs -> exists l, mapM value_of vs = Ok l.
Proof.
  induction 1 as [|v vs Hv _ [l IH]]; simpl; [eexists; reflexivity|].
  destruct (value_of_ok v Hv) as [val ->]. rewrite IH. eexists; reflexivity.
Qed.

Lemma cmp_value_ok c :
  number_ok (c_val c) -> Forall number_ok (c_vals c) ->
  exists val, cmp_value c = Ok val.
Proof.
  destruct c as [f o v vs]. simpl. intros H1 H2. unfold cmp_value. simpl.
  destruct (value_of_ok _ H1) as [val ->]. simpl.
  destruct vs as [|v' vs]; [eexists; reflexivity|].
  destruct (mapM_value_of_ok _ H2) as [l Hl]. simpl in Hl. rewrite Hl.
  eexists; reflexivity.
Qed.

(** With an operator of the grammar other than [between], the callback
    [comparison_expr] returns a node. *)
Lemma comparison_ok f o val :
  In o OPERATOR_literals -> o <> "between" ->
  exists x, comparison f o val = Ok x.
Proof.
  intros Hin Hne. unfold comparison, FilterTransformer.comparison_expr.
  simpl in Hin.
  repeat (destruct Hin as [<- | Hin]; [try (eexists; reflexivity); congruence|]).
  contradiction.
Qed.

Lemma eval_cmp_ok c : cmp_ok c -> exists x, eval_cmp c = Ok x.
Proof.
  intros (Hin & Hne & H1 & H2). rewrite eval_cmp_comparison.
  destruct (cmp_value_ok c H1 H2) as [val ->]. simpl.
  apply comparison_ok; assumption.
Qed.

Lemma eval_ok e : Forall cmp_ok (comparisons e) -> exists n, eval e = Ok n.
Proof.
  induction e as [c | e IH | c k e IH]; simpl; intros H.
  - apply eval_cmp_ok. inversion H; assumption.
  - destruct (IH H) as [n ->]. eexists; reflexivity.
  - inversion H as [|? ? Hc He]; subst.
    destruct (eval_cmp_ok c Hc) as [x ->]. destruct (IH He) as [n ->].
    eexists; reflexivity.
Qed.


(** ** The parse of a text is the parse of its tokens *)

(** The state stack after a token does not depend on the callbacks. *)
Lemma feed_token_states cb1 cb2 fuel : forall ps1 ps2 tok fl ps1' ps2',
  state_stack ps1 = state_stack ps2 ->
  feed_token cb1 fuel ps1 tok fl = Some (Ok (Shifted ps1')) ->
  feed_token cb2 fuel ps2 tok fl = Some (Ok (Shifted ps2')) ->
  state_stack ps1' = state_stack ps2'.
Proof.
  induction fuel as [|fuel IH]; intros ps1 ps2 tok fl ps1' ps2' Hs H1 H2;
    [discriminate|].
  rewrite feed_token_step in H1, H2. unfold feed_body in H1, H2.
  rewrite <- Hs in H2.
  destruct (state_stack ps1) as [|q ss]; [discriminate|].
  destruct (action_of q (T (type tok))) as [[arg|ri]|]; [| |discriminate].
  - destruct fl; [discriminate|].
    injection H1 as <-. injection H2 as <-. reflexivity.
  - destruct (nth_error rules ri) as [r|]; [|discriminate].
    cbv zeta in H1, H2.
    destruct (cb1 r _) as [v1|]; [|discriminate].
    destruct (cb2 r _) as [v2|]; [|discriminate].
    destruct (skipn (length (expansion r)) (q :: ss)) as [|below ss'];
      [discriminate|].
    destruct (action_of below (N (origin r))) as [[new|?]|]; try discriminate.
    destruct (fl && (new =? end_state)%nat); [discriminate|].
    eapply IH; [|exact H1|exact H2]. reflexivity.
Qed.

Lemma parse_from_state_nil cb n ps :
  parse_from_state next_of_list cb n ps []
  = parse_from_state next_of_list cb 0 ps [].
Proof. destruct n; reflexivity. Qed.

(** Parsing a text is parsing its tokens. *)
Lemma tokenize_parse rounds : forall ps0 ps s toks n,
  state_stack ps0 = state_stack ps ->
  tokenize rounds ps0 s = Some toks ->
  parse_from_state lex callback rounds ps s
  = parse_from_state next_of_list callback (length toks + n) ps toks.
Proof.
  induction rounds as [|rounds IH]; intros ps0 ps s toks n Hs Ht.
  - simpl in Ht. rewrite Hs in Ht. simpl.
    destruct (state_stack ps) as [|q ss] eqn:Eq; [discriminate|].
    destruct (lex q s) as [[[tok rest]|]|e]; try discriminate.
    injection Ht as <-. simpl length. simpl Nat.add.
    rewrite parse_from_state_nil. simpl. rewrite Eq. reflexivity.
  - simpl in Ht. rewrite Hs in Ht. simpl.
    destruct (state_stack ps) as [|q ss] eqn:Eq; [discriminate|].
    destruct (lex q s) as [[[tok rest]|]|e]; try discriminate.
    + destruct (feed_token no_callbacks _ ps0 tok false) as [[[ps0'|]|]|] eqn:E0;
        try discriminate.
      destruct (tokenize rounds ps0' rest) as [toks'|] eqn:Et; [|discriminate].
      injection Ht as <-. simpl length. simpl Nat.add. simpl. rewrite Eq.
      destruct (feed_token callback _ ps tok false) as [[[ps'|v]|e]|] eqn:E1;
        try reflexivity.
      apply (IH ps0' ps' rest toks' n); [|exact Et].
      rewrite <- Eq in Hs.
      exact (feed_token_states _ _ _ _ _ _ _ _ _ Hs E0 E1).
    + injection Ht as <-. simpl length. simpl Nat.add.
      rewrite parse_from_state_nil. simpl. rewrite Eq. reflexivity.
Qed.

(** The parse of a text whose tokens are those of a right-nested
    sentence. *)
Theorem parse_by_tokens s e :
  tokens_of s = Some (tokens e) -> FilterParser.parse s = eval e.
Proof.
  intros Ht. unfold FilterParser.parse, FilterParser.run.
  rewrite (tokenize_parse _ _ _ _ _ 0 eq_refl Ht).
  change (mkState [start_state] []) with (stack_of []).
  rewrite parse_sentence. simpl. destruct (eval e); reflexivity.
Qed.


(** ** Number lexemes are accepted by float *)

Lemma span_spec p s : forall a b,
  span p s = (a, b) -> all_chars p a = true /\ head_fails p b = true.
Proof.
  induction s as [|c s IH]; simpl; intros a b H.
  - injection H as <- <-. split; reflexivity.
  - destruct (p c) eqn:Ec.
    + destruct (span p s) as [a' b']. injection H as <- <-.
      destruct (IH _ _ eq_refl) as [Ha Hb]. simpl. rewrite Ec, Ha. auto.
    + injection H as <- <-. simpl. rewrite Ec. auto.
Qed.

Lemma append_empty_r (a : string) : (a ++ "")%string = a.
Proof. induction a; rewrite ?append_String, ?append_empty; congruence. Qed.

Lemma span_app p a b :
  all_chars p a = true -> head_fails p b = true -> span p (a ++ b)%string = (a, b).
Proof.
  induction a as [|c a IH]; intros Ha Hb.
  - rewrite append_empty. destruct b as [|c b]; [reflexivity|].
    simpl in *. destruct (p c); [discriminate|reflexivity].
  - simpl in Ha. apply andb_prop in Ha as [Hc Ha].
    rewrite append_String. simpl. rewrite Hc, (IH Ha Hb). reflexivity.
Qed.

Lemma match_exponent_text s e r :
  match_exponent s = Some (e, r) -> exponent_text e.
Proof.
  unfold match_exponent. destruct s as [|c s1]; [discriminate|].
  destruct (Ascii.eqb c "e" || Ascii.eqb c "E") eqn:Ec; [|discriminate].
  assert (Hc : c = "e"%char \/ c = "E"%char).
  { apply orb_prop in Ec as [Ec|Ec]; apply Ascii.eqb_eq in Ec; auto. }
  assert (Hgen : forall sign s2,
             (sign = "" \/ sign = "+" \/ sign = "-") ->
             (let (ds, s3) := span is_digit s2 in
              match ds with
              | "" => None
              | String _ _ => Some (String c (sign ++ ds)%string, s3)
              end) = Some (e, r) -> exponent_text e).
  { intros sign s2 Hsign H. destruct (span is_digit s2) as [ds s3] eqn:E.
    destruct ds as [|a ds']; [discriminate|]. injection H as <- <-.
    exists c, sign, (String a ds'). repeat split; try assumption; try discriminate.
    apply (span_spec _ _ _ _ E). }
  destruct s1 as [|c1 s2].
  - simpl. discriminate.
  - intros H.
    destruct (Ascii.eqb c1 "+") eqn:E1.
    { apply Ascii.eqb_eq in E1. subst c1. apply (Hgen "+" s2); [auto|exact H]. }
    destruct (Ascii.eqb c1 "-") eqn:E2.
    { apply Ascii.eqb_eq in E2. subst c1. apply (Hgen "-" s2); [auto|exact H]. }
    apply (Hgen "" (String c1 s2)); [auto|].
    revert H.
    destruct c1 as [[] [] [] [] [] [] [] []]; try discriminate; exact (fun H => H).
Qed.

Lemma exponent_text_part e :
  exponent_text e -> exists z, exponent_part e = Some (z, "").
Proof.
  intros (c & sign & ds & -> & Hc & Hsign & Hds & Hne).
  assert (Hspan : span is_digit ds = (ds, "")).
  { pose proof (span_app is_digit ds "" Hds eq_refl) as H.
    rewrite append_empty_r in H. exact H. }
  unfold exponent_part.
  assert (Ec : Ascii.eqb c "e" || Ascii.eqb c "E" = true)
    by (destruct Hc as [-> | ->]; reflexivity).
  rewrite Ec.
  destruct Hsign as [-> | [-> | ->]].
  - rewrite append_empty. destruct ds as [|a ds']; [contradiction|].
    assert (Ha : is_digit a = true) by (simpl in Hds; apply andb_prop in Hds; tauto).
    assert (Hd : match String a ds' with
                 | String "+" s2 => (false, s2)
                 | String "-" s2 => (true, s2)
                 | _ => (false, String a ds')
                 end = (false, String a ds')).
    { revert Ha. destruct a as [[] [] [] [] [] [] [] []]; try reflexivity;
        discriminate. }
    rewrite Hd, Hspan. eexists; reflexivity.
  - rewrite append_String, append_empty. rewrite Hspan.
    destruct ds; [contradiction|]. eexists; reflexivity.
  - rewrite append_String, append_empty. rewrite Hspan.
    destruct ds; [contradiction|]. eexists; reflexivity.
Qed.

Lemma exponent_text_head_not_digit e :
  exponent_text e -> head_fails is_digit e = true.
Proof. intros (c & sign & ds & -> & [-> | ->] & _); reflexivity. Qed.

Lemma exponent_text_nonempty e : exponent_text e -> e <> "".
Proof. intros (c & sign & ds & -> & _). discriminate. Qed.

(** [float] on digits, an optional fraction, an optional exponent. *)
Lemma py_float_literal ip (dot : bool) fp ex :
  all_chars is_digit ip = true ->
  all_chars is_digit fp = true ->
  (dot = false -> fp = "") ->
  (ip ++ fp)%string <> "" ->
  (ex = "" \/ exponent_text ex) ->
  exists f,
    py_float (ip ++ (if dot then String "." fp else "") ++ ex)%string = Ok f.
Proof.
  intros Hip Hfp Hdot Hne Hex.
  unfold py_float.
  assert (Hexh : head_fails is_digit ex = true).
  { destruct Hex as [-> | Hex]; [reflexivity|].
    apply exponent_text_head_not_digit, Hex. }
  assert (H1 : span is_digit (ip ++ (if dot then String "." fp else "") ++ ex)%string
               = (ip, ((if dot then String "." fp else "") ++ ex)%string)).
  { apply span_app; [exact Hip|]. destruct dot; [reflexivity|].
    rewrite append_empty. exact Hexh. }
  rewrite H1.
  assert (H2 : match ((if dot then String "." fp else "") ++ ex)%string with
               | String "." s1' => span is_digit s1'
               | _ => ("", ((if dot then String "." fp else "") ++ ex)%string)
               end = (fp, ex)).
  { destruct dot.
    - rewrite append_String. apply span_app; assumption.
    - rewrite (Hdot eq_refl), append_empty.
      destruct Hex as [-> | (c & sign & ds & -> & [-> | ->] & _)]; reflexivity. }
  rewrite H2.
  destruct (ip ++ fp)%string as [|d ds] eqn:Ed; [contradiction|].
  destruct Hex as [-> | Hex]; [eexists; reflexivity|].
  destruct (exponent_text_part _ Hex) as [z Hz]. rewrite Hz.
  destruct ex; [exfalso; eapply exponent_text_nonempty; eauto|].
  eexists; reflexivity.
Qed.

Lemma with_optional_exponent_text w s w' r :
  with_optional_exponent w s = (w', r) ->
  exists ex, w' = (w ++ ex)%string /\ (ex = "" \/ exponent_text ex).
Proof.
  unfold with_optional_exponent.
  destruct (match_exponent s) as [[e rest]|] eqn:E; intros H; injection H as <- <-.
  - exists e. split; [reflexivity|]. right. eapply match_exponent_text, E.
  - exists "". split; [|auto]. symmetry. apply append_empty_r.
Qed.

Lemma match_NUMBER_float s w r :
  match_NUMBER s = Some (w, r) -> exists f, py_float w = Ok f.
Proof.
  unfold match_NUMBER. destruct (span is_digit s) as [ip s1] eqn:E.
  destruct (span_spec _ _ _ _ E) as [Hip _].
  destruct ip as [|c ip].
  - destruct s as [|c s']; [discriminate|]. intros H.
    assert (Hdot : match span is_digit s' with
                   | ("", _) => None
                   | (String a fp', s2) =>
                       Some (with_optional_exponent (String "." (String a fp')) s2)
                   end = Some (w, r)).
    { revert H. destruct c as [[] [] [] [] [] [] [] []]; try discriminate.
      intros H. destruct (span is_digit s') as [[|a fp'] s2]; exact H. }
    clear H. destruct (span is_digit s') as [fp s2] eqn:E2.
    destruct fp as [|a fp']; [discriminate|]. injection Hdot as Hw.
    destruct (span_spec _ _ _ _ E2) as [Hfp _].
    apply with_optional_exponent_text in Hw as (ex & -> & Hex).
    apply (py_float_literal "" true (String a fp') ex); auto; discriminate.
  - destruct (match_exponent s1) as [[e rest]|] eqn:Ee.
    + intros H. injection H as <- <-.
      apply match_exponent_text in Ee.
      destruct (py_float_literal (String c ip) false "" e) as [f Hf]; auto;
        try (rewrite append_String; discriminate).
      exists f. rewrite <- Hf. f_equal.
    + intros H.
      assert (Hcases :
                (exists fp s3, with_optional_exponent
                                 (String c ip ++ String "." fp)%string s3 = (w, r)
                               /\ all_chars is_digit fp = true)
                \/ w = String c ip).
      { revert H. destruct s1 as [|c1 s2].
        - intros H. injection H as <- <-. right. reflexivity.
        - destruct (Ascii.eqb c1 ".") eqn:Ed.
          + apply Ascii.eqb_eq in Ed. subst c1.
            destruct (span is_digit s2) as [fp s3] eqn:E3. intros H.
            injection H as H. left. exists fp, s3. split; [exact H|].
            apply (span_spec _ _ _ _ E3).
          + intros H. right.
            assert (Some (String c ip, String c1 s2) = Some (w, r)).
            { revert H Ed.
              destruct c1 as [[] [] [] [] [] [] [] []]; try discriminate;
                intros H _; exact H. }
            congruence. }
      destruct Hcases as [(fp & s3 & Hw & Hfp) | ->].
      * apply with_optional_exponent_text in Hw as (ex & -> & Hex).
        destruct (py_float_literal (String c ip) true fp ex) as [f Hf]; auto;
          try (rewrite append_String; discriminate); try discriminate.
        exists f. rewrite <- Hf. f_equal. rewrite append_assoc. reflexivity.
      * destruct (py_float_literal (String c ip) false "" "") as [f Hf]; auto;
          try (rewrite append_String; discriminate).
        exists f. rewrite <- Hf. f_equal.
        rewrite append_empty, append_empty_r. reflexivity.
Qed.


(** ** The tokens of a text *)

Lemma scan_match order terms s t w r :
  scan order terms s = Some (t, w, r) -> match_terminal t s = Some (w, r).
Proof.
  induction order as [|t' order IH]; simpl; [discriminate|].
  destruct (accepted terms t'); [|exact IH].
  destruct (match_terminal t' s) as [[w' r']|] eqn:E; [|exact IH].
  intros H. injection H as <- <- <-. exact E.
Qed.

Lemma unless_NUMBER terms t w : unless terms t w = NUMBER -> t = NUMBER.
Proof.
  unfold unless. destruct t; try (intros H; exact H).
  destruct (find _ _) as [k|] eqn:E; [|discriminate].
  apply find_some in E as [Hk _]. simpl in Hk. intros ->.
  intuition discriminate.
Qed.

Lemma next_token_number terms s tok rest :
  next_token terms s = Ok (Some (tok, rest)) -> number_token tok.
Proof.
  unfold next_token. destruct (span is_ws s) as [ws s1].
  destruct s1 as [|c s1']; [discriminate|].
  destruct (scan scan_order terms (String c s1')) as [[[t w] r]|] eqn:Es; [|discriminate].
  intros H. injection H as <- <-. intros Ht. simpl in Ht |- *.
  apply unless_NUMBER in Ht. subst t. apply scan_match in Es.
  simpl in Es. eapply match_NUMBER_float, Es.
Qed.

Lemma lex_number q s tok rest :
  lex q s = Ok (Some (tok, rest)) -> number_token tok.
Proof.
  unfold lex. destruct (next_token (accepts q) s) as [o|e] eqn:E.
  - intros H. injection H as ->. eapply next_token_number, E.
  - apply next_token_raises in E as [s1 ->].
    destruct (next_token all_terminals s1) as [[[tok' r']|]|e']; discriminate.
Qed.

Lemma tokenize_numbers rounds : forall ps s toks,
  tokenize rounds ps s = Some toks -> Forall number_token toks.
Proof.
  induction rounds as [|rounds IH]; intros ps s toks; simpl;
    destruct (state_stack ps) as [|q ss]; try discriminate;
    destruct (lex q s) as [[[tok rest]|]|e] eqn:E; try discriminate;
    try (intros H; injection H as <-; constructor).
  destruct (feed_token _ _ _ _ _) as [[[ps'|]|]|]; try discriminate.
  destruct (tokenize rounds ps' rest) as [toks'|] eqn:Et; [|discriminate].
  intros H. injection H as <-. constructor.
  - eapply lex_number, E.
  - eapply IH, Et.
Qed.

Lemma number_token_ok v : number_token (vtoken_token v) -> number_ok v.
Proof.
  intros H Hk. apply H. unfold vtoken_token. rewrite Hk. reflexivity.
Qed.

Lemma In_more_values v vs : In v vs -> In (vtoken_token v) (more_values vs).
Proof.
  unfold more_values. intros H. apply in_flat_map. exists v.
  split; [exact H | right; left; reflexivity].
Qed.

Lemma cmp_tokens_operator c : In (mkToken OPERATOR (c_op c)) (cmp_tokens c).
Proof. unfold cmp_tokens. simpl. auto. Qed.

Lemma cmp_tokens_values c v :
  In v (c_val c :: c_vals c) -> In (vtoken_token v) (cmp_tokens c).
Proof.
  unfold cmp_tokens. intros [<- | H]; simpl.
  - do 4 right. left. reflexivity.
  - do 5 right. apply In_more_values, H.
Qed.

Lemma tokens_comparisons e c :
  In c (comparisons e) -> forall tok, In tok (cmp_tokens c) -> In tok (tokens e).
Proof.
  induction e as [c0 | e IH | c0 k e IH]; cbn [comparisons tokens].
  - intros [<- | []] tok H. exact H.
  - intros Hc tok H. right. apply IH; assumption.
  - intros [<- | Hc] tok H; apply in_or_app.
    + left. exact H.
    + right. right. apply IH; assumption.
Qed.

(** A comparison of a sentence whose tokens the lexer gave succeeds unless
    its operator is [between]. *)
Lemma comparisons_ok e :
  Forall number_token (tokens e) ->
  Forall (fun tok => tok <> mkToken OPERATOR "between") (tokens e) ->
  Forall (fun c => In (c_op c) OPERATOR_literals) (comparisons e) ->
  Forall cmp_ok (comparisons e).
Proof.
  intros Hn Hb Ho. rewrite List.Forall_forall in *. intros c Hc.
  pose proof (tokens_comparisons e c Hc) as Hin.
  repeat split.
  - apply Ho, Hc.
  - intros Heq. apply (Hb (mkToken OPERATOR (c_op c))).
    + apply Hin, cmp_tokens_operator.
    + rewrite Heq. reflexivity.
  - apply number_token_ok, Hn, Hin, cmp_tokens_values. left. reflexivity.
  - rewrite List.Forall_forall. intros v Hv.
    apply number_token_ok, Hn, Hin, cmp_tokens_values. right. exact Hv.
Qed.

Lemma tokens_of_numbers s toks : tokens_of s = Some toks -> Forall number_token toks.
Proof. apply tokenize_numbers. Qed.

(** The values of a comparison whose tokens the lexer gave. *)
Lemma cmp_value_lexed s c :
  tokens_of s = Some (cmp_tokens c) -> exists val, cmp_value c = Ok val.
Proof.
  intros Ht. apply tokens_of_numbers in Ht. rewrite List.Forall_forall in Ht.
  apply cmp_value_ok.
  - apply number_token_ok, Ht, cmp_tokens_values. left. reflexivity.
  - rewrite List.Forall_forall. intros v Hv.
    apply number_token_ok, Ht, cmp_tokens_values. right. exact Hv.
Qed.


(** ** The predicate compiler and the entry points *)

Lemma find_app_first {A} (p : A -> bool) (l1 l2 : list A) :
  find p (l1 ++ l2) = match find p l1 with
                      | Some x => Some x
                      | None => find p l2
                      end.
Proof.
  induction l1 as [|a l1 IH]; simpl; [reflexivity|].
  destruct (p a); [reflexivity | exact IH].
Qed.

Lemma build_filter_logical op operands model :
  SQLAlchemyFilterBuilder.build_filter (Logical_Node op operands) model
  = let* conditions := each_operand model operands in
    match op with
    | LogicalOp.AND => Ok (And_ conditions)
    | LogicalOp.OR => Ok (Or_ conditions)
    | LogicalOp.NOT => sql_not conditions
    end.
Proof. reflexivity. Qed.

Lemma each_operand_compiles model operands :
  Forall (fun n => well_formed n = true -> compiles model n) operands ->
  forallb well_formed operands = true ->
  match find (not_column model) (flat_map fields operands) with
  | Some f => model f = None -> each_operand model operands = Raise (AttributeError f)
  | None => exists cs, each_operand model operands = Ok cs
                       /\ length cs = length operands
  end.
Proof.
  induction 1 as [|n l Hn _ IH]; intros Hwf.
  - simpl. exists []. split; reflexivity.
  - simpl in Hwf. apply andb_prop in Hwf as [Hwn Hwl].
    specialize (Hn Hwn). specialize (IH Hwl).
    cbn [flat_map]. rewrite find_app_first.
    unfold compiles, first_not_column in Hn.
    cbn [each_operand]. fold (each_operand model).
    destruct (find (not_column model) (fields n)) as [f|].
    + intros Hf. rewrite (Hn Hf). reflexivity.
    + destruct Hn as [p ->]. cbn [bind].
      destruct (find (not_column model) (flat_map fields l)) as [f|].
      * intros Hf. rewrite (IH Hf). reflexivity.
      * destruct IH as (cs & -> & Hl). exists (p :: cs). simpl. auto.
Qed.

Lemma build_filter_compiles model n : well_formed n = true -> compiles model n.
Proof.
  induction n as [f o v | f o vs | f a b | f o p | op operands IH]
    using FilterNode_nested_ind; intros Hwf; unfold compiles, first_not_column;
    cbn [fields find].
  1-4: unfold not_column; cbn [SQLAlchemyFilterBuilder.build_filter];
       unfold SQLAlchemyFilterBuilder.visit_comparison_node,
              SQLAlchemyFilterBuilder.visit_collection_node,
              SQLAlchemyFilterBuilder.visit_range_node,
              SQLAlchemyFilterBuilder.visit_text_search_node,
              SQLAlchemyFilterBuilder.column_of;
       destruct (model f) as [[c|obj]|] eqn:E; cbn [bind];
       [ try destruct o; eexists; reflexivity
       | intros Hf; congruence
       | intros _; reflexivity ].
  simpl in Hwf. apply andb_prop in Hwf as [Hlen Hwf].
  pose proof (each_operand_compiles model operands IH Hwf) as H.
  rewrite build_filter_logical.
  destruct (find (not_column model) (flat_map fields operands)) as [f|].
  - intros Hf. rewrite (H Hf). reflexivity.
  - destruct H as (cs & -> & Hl). cbn [bind].
    destruct op; try (eexists; reflexivity).
    apply Nat.eqb_eq in Hlen. rewrite <- Hl in Hlen.
    destruct cs as [|c [|c' cs]]; try discriminate Hlen.
    eexists; reflexivity.
Qed.

Lemma first_raise_app {A} (l1 l2 : list (result A)) :
  first_raise (l1 ++ l2) = match first_raise l1 with
                           | Some e => Some e
                           | None => first_raise l2
                           end.
Proof.
  induction l1 as [|[a|e] l1 IH]; simpl; [reflexivity | exact IH | reflexivity].
Qed.

Lemma each_operand_propagates model operands :
  Forall (fun n => well_formed n = true -> propagates model n) operands ->
  forallb well_formed operands = true ->
  match first_raise (map (fun leaf => SQLAlchemyFilterBuilder.build_filter leaf model)
                       (flat_map leaves operands)) with
  | Some e => each_operand model operands = Raise e
  | None => exists cs, each_operand model operands = Ok cs
                       /\ length cs = length operands
  end.
Proof.
  induction 1 as [|n l Hn _ IH]; intros Hwf.
  - simpl. exists []. split; reflexivity.
  - simpl in Hwf. apply andb_prop in Hwf as [Hwn Hwl].
    specialize (Hn Hwn). specialize (IH Hwl).
    cbn [flat_map]. rewrite map_app, first_raise_app.
    unfold propagates, first_failure in Hn.
    cbn [each_operand]. fold (each_operand model).
    destruct (first_raise (map _ (leaves n))) as [e|].
    + rewrite Hn. reflexivity.
    + destruct Hn as [p ->]. cbn [bind].
      destruct (first_raise (map _ (flat_map leaves l))) as [e|].
      * rewrite IH. reflexivity.
      * destruct IH as (cs & -> & Hl). exists (p :: cs). simpl. auto.
Qed.

(** On an AST of the parser's shape [build_filter] raises what the first
    leaf that fails to compile raises, and returns a predicate when none
    fails. *)
Lemma build_filter_propagates model n : well_formed n = true -> propagates model n.
Proof.
  induction n as [f o v | f o vs | f a b | f o p | op operands IH]
    using FilterNode_nested_ind; intros Hwf; unfold propagates, first_failure;
    cbn [leaves map].
  1-4: match goal with
       | |- context [first_raise [?r]] => destruct r as [p'|e] eqn:E
       end; cbn [first_raise]; eauto.
  simpl in Hwf. apply andb_prop in Hwf as [Hlen Hwf].
  pose proof (each_operand_propagates model operands IH Hwf) as H.
  rewrite build_filter_logical.
  destruct (first_raise (map _ (flat_map leaves operands))) as [e|].
  - rewrite H. reflexivity.
  - destruct H as (cs & -> & Hl). cbn [bind].
    destruct op; try (eexists; reflexivity).
    apply Nat.eqb_eq in Hlen. rewrite <- Hl in Hlen.
    destruct cs as [|c [|c' cs]]; try discriminate Hlen.
    eexists; reflexivity.
Qed.

Lemma value_of_scalar v x : value_of v = Ok x -> forall l, x <> VList l.
Proof.
  destruct v as [[] w]; unfold value_of; simpl.
  - destruct (_ && _); intros H; injection H as <-; discriminate.
  - destruct (py_float w); simpl; [|discriminate].
    intros H; injection H as <-; discriminate.
  - intros H; injection H as <-; discriminate.
Qed.

Lemma mapM_cons {A B} (f : A -> result B) a l :
  mapM f (a :: l) = let* b := f a in let* bs := mapM f l in Ok (b :: bs).
Proof. reflexivity. Qed.

Lemma parse_empty : FilterParser.parse "" = Raise (UnexpectedToken "$END").
Proof. vm_compute. reflexivity. Qed.

Lemma parse_filters_answer a :
  parse_filters a = match nonempty_str a with
                    | Some s => answer (FilterParser.parse s)
                    | None => Ok None
                    end.
Proof.
  unfold parse_filters, answer. destruct (nonempty_str a); [|reflexivity].
  destruct (FilterParser.parse s) as [|[]]; reflexivity.
Qed.

Lemma parse_filters_ArgStr s : parse_filters (ArgStr s) = answer (FilterParser.parse s).
Proof.
  rewrite parse_filters_answer. destruct s as [|c s]; cbn [nonempty_str];
    [|reflexivity].
  rewrite parse_empty. reflexivity.
Qed.

Lemma reachable_sound calls : cache_sound (after_calls calls ∅).
Proof. apply after_calls_sound, cache_sound_empty. Qed.

Lemma parse_raises s e :
  FilterParser.parse s = Raise e ->
  exists w, e = UnexpectedToken w \/ e = UnexpectedCharacters w \/ e = ValueError w.
Proof.
  intros H. pose proof (parse_outcome s) as Ho. rewrite H in Ho.
  destruct e; try contradiction; eexists; eauto.
Qed.

(** * The claims of the specification *)

(** C1: the parse of a comparison whose operator is [between] raises
    [ValueError("Unknown operator: between")], whatever the number of
    values: the transformer tests [op == RangeOp.values()], a [str] against
    a tuple, so the branch that builds a Range node is never taken.  The
    texts [age:between:18,65] and [age:between:18,65,70] both end so. *)
Theorem between_is_unknown_operator s c :
  tokens_of s = Some (cmp_tokens c) -> c_op c = "between" ->
  FilterParser.parse s = Raise (ValueError "Unknown operator: between").
Proof.
  intros Ht Ho. rewrite (parse_by_tokens s (SCmp c) Ht).
  cbn [eval]. rewrite eval_cmp_comparison.
  destruct (cmp_value_lexed s c Ht) as [val ->]. cbn [bind]. rewrite Ho.
  reflexivity.
Qed.

Lemma between_is_unknown_operator_witness :
  FilterParser.parse "age:between:18,65"
  = Raise (ValueError "Unknown operator: between")
  /\ FilterParser.parse "age:between:18,65,70"
     = Raise (ValueError "Unknown operator: between").
Proof.
  split.
  - apply (between_is_unknown_operator "age:between:18,65"
             (Cmp "age" "between" (VTok KNumber "18") [VTok KNumber "65"]));
      vm_compute; reflexivity.
  - apply (between_is_unknown_operator "age:between:18,65,70"
             (Cmp "age" "between" (VTok KNumber "18")
                  [VTok KNumber "65"; VTok KNumber "70"]));
      vm_compute; reflexivity.
Defined.

(** C2 (as the code has it): in every state of [_AST_CACHE] that calls
    from the empty dict reach, [optimized_parse_filters] returns [None]
    exactly when the argument is not a non-empty [str] or the parser
    raises [UnexpectedToken]; every other failure of the parser, which is
    an [UnexpectedCharacters] of the lexer or a [ValueError] of the
    transformer, is raised to the caller. *)
Theorem optimized_parse_filters_outcome calls a :
  let r := fst (optimized_parse_filters a (after_calls calls ∅)) in
  (r = Ok None <->
     nonempty_str a = None
     \/ exists s t, a = ArgStr s /\ FilterParser.parse s = Raise (UnexpectedToken t))
  /\ (forall e, r = Raise e <->
        (exists s, a = ArgStr s /\ FilterParser.parse s = Raise e)
        /\ (exists w, e = UnexpectedCharacters w \/ e = ValueError w)).
Proof.
  intros r. subst r.
  rewrite (optimized_parse_filters_result a _ (reachable_sound calls)).
  rewrite parse_filters_answer.
  destruct (nonempty_str a) as [s|] eqn:Ea.
  - apply nonempty_str_ArgStr in Ea. subst a. split.
    + split.
      * intros H. right. exists s.
        destruct (FilterParser.parse s) as [ast|e]; [discriminate|].
        destruct e; try discriminate. eexists. split; reflexivity.
      * intros [H | (s' & t & Hs & Hp)]; [discriminate|].
        injection Hs as <-. rewrite Hp. reflexivity.
    + intros e. split.
      * intros H. destruct (FilterParser.parse s) as [ast|e'] eqn:Hp; [discriminate|].
        assert (e' = e) as ->
            by (destruct e'; simpl in H; try discriminate; congruence).
        split; [exists s; split; [reflexivity | exact Hp]|].
        destruct (parse_raises _ _ Hp) as [w [-> | [-> | ->]]];
          [discriminate | eauto | eauto].
      * intros [(s' & Hs & Hp) [w [-> | ->]]]; injection Hs as <-;
          rewrite Hp; reflexivity.
  - split.
    + split; [auto | reflexivity].
    + intros e. split; [discriminate|].
      intros [(s & -> & Hp) [w Hw]]. destruct s; [|discriminate Ea].
      rewrite parse_empty in Hp. destruct Hw as [-> | ->]; discriminate.
Qed.

(** C2, counterexample: on [active:eq:Y;] the parse fails, and the cached
    entry point raises [UnexpectedCharacters] instead of returning
    [None]. *)
Lemma optimized_parse_filters_raises :
  FilterParser.parse "active:eq:Y;" = Raise (UnexpectedCharacters ";")
  /\ fst (optimized_parse_filters (ArgStr "active:eq:Y;") ∅)
     = Raise (UnexpectedCharacters ";").
Proof. split; vm_compute; reflexivity. Qed.

(** C3 (as the code has it): a text whose tokens form a sentence of the
    grammar in which no operator is [between] parses to an AST; [parse] is
    a function of the text, so a second parse returns the same AST. *)
Theorem sentences_parse s ts :
  tokens_of s = Some ts -> sentence ts ->
  Forall (fun tok => tok <> mkToken OPERATOR "between") ts ->
  exists n, FilterParser.parse s = Ok n /\ well_formed n = true
            /\ forall r, FilterParser.parse s = r -> r = Ok n.
Proof.
  intros Ht Hs Hb. destruct (sentence_right_nested ts Hs) as (e & -> & Ho).
  pose proof (tokens_of_numbers _ _ Ht) as Hn.
  destruct (eval_ok e (comparisons_ok e Hn Hb Ho)) as [n Hn'].
  exists n. rewrite (parse_by_tokens s e Ht). split; [exact Hn'|]. split.
  - pose proof (parse_outcome s) as H.
    rewrite (parse_by_tokens s e Ht), Hn' in H. exact H.
  - intros r <-. exact Hn'.
Qed.

Lemma sentences_parse_witness :
  exists n, FilterParser.parse "active:eq:Y and admin:eq:Y" = Ok n
            /\ well_formed n = true
            /\ forall r, FilterParser.parse "active:eq:Y and admin:eq:Y" = r -> r = Ok n.
Proof.
  apply (sentences_parse "active:eq:Y and admin:eq:Y"
           ([mkToken CNAME "active"; COLON_token; mkToken OPERATOR "eq"; COLON_token;
             mkToken CNAME "Y"]
            ++ AND_token
            :: [mkToken CNAME "admin"; COLON_token; mkToken OPERATOR "eq"; COLON_token;
                mkToken CNAME "Y"])).
  - vm_compute. reflexivity.
  - apply d_and; apply d_cmp, d_comparison;
      try (apply d_single, d_name); simpl; auto.
  - repeat constructor; discriminate.
Defined.

(** C3, counterexample: the tokens of [age:between:18] form a sentence of
    the grammar, and its parse raises [ValueError]. *)
Lemma between_sentence_rejected :
  exists ts, tokens_of "age:between:18" = Some ts /\ sentence ts
             /\ FilterParser.parse "age:between:18"
                = Raise (ValueError "Unknown operator: between").
Proof.
  exists [mkToken CNAME "age"; COLON_token; mkToken OPERATOR "between"; COLON_token;
          mkToken NUMBER "18"].
  split; [vm_compute; reflexivity|]. split; [|vm_compute; reflexivity].
  apply d_cmp, d_comparison; [simpl; tauto | apply d_single, d_number].
Qed.

Lemma scan_accepted order terms s t w r :
  scan order terms s = Some (t, w, r) -> accepted terms t = true.
Proof.
  induction order as [|t' order IH]; simpl; [discriminate|].
  destruct (accepted terms t') eqn:Ea; [|exact IH].
  destruct (match_terminal t' s) as [[w' r']|]; [|exact IH].
  intros H. injection H as <- <- <-. exact Ea.
Qed.

Lemma unless_accepted terms t w :
  accepted terms t = true -> accepted terms (unless terms t w) = true.
Proof.
  intros Ha. unfold unless. destruct t; try exact Ha.
  destruct (find _ _) as [k|] eqn:E; [|exact Ha].
  apply find_some in E as [_ Hk]. apply andb_prop in Hk as [Hk _]. exact Hk.
Qed.

(** The contextual lexer yields only tokens that the state accepts. *)
Lemma lex_accepted q s tok rest :
  lex q s = Ok (Some (tok, rest)) -> accepted (accepts q) (type tok) = true.
Proof.
  unfold lex. destruct (next_token (accepts q) s) as [o|e] eqn:E.
  - intros H. injection H as ->. revert E. unfold next_token.
    destruct (span is_ws s) as [ws s1].
    destruct s1 as [|c s1']; [discriminate|].
    destruct (scan scan_order (accepts q) (String c s1')) as [[[t w] r]|] eqn:Es;
      [|discriminate].
    intros H. injection H as <- <-. simpl.
    apply unless_accepted. eapply scan_accepted, Es.
  - apply next_token_raises in E as [s1 ->].
    destruct (next_token all_terminals s1) as [[[tok' r']|]|e']; discriminate.
Qed.

Lemma action_of_overflow q x : length states <= q -> action_of q x = None.
Proof.
  intros H. unfold action_of, row. rewrite nth_overflow by exact H. reflexivity.
Qed.

(** In a state from which a [field] may be read, the terminals that the
    lexer knows are [CNAME] and [NOT]. *)
Lemma field_state_accepts q t :
  action_of q (N field) <> None -> accepted (accepts q) t = true ->
  t = CNAME \/ t = NOT.
Proof.
  intros Hq.
  destruct (le_lt_dec (length states) q) as [Hge|Hlt].
  - exfalso. apply Hq, action_of_overflow, Hge.
  - revert Hq. change (length states) with 27 in Hlt.
    do 27 (destruct q as [|q];
           [ intros Hq;
             first [ exfalso; apply Hq; vm_compute; reflexivity
                   | destruct t; vm_compute; intros H;
                     first [discriminate H | auto] ]
           | ]).
    lia.
Qed.

(** C5: with a Collection operator, the values written after the operator
    become the [values] list of a Collection node, in the order written,
    a [NUMBER] token as the double that [float] gives; a single value
    yields a list of one element. *)
Theorem collection_values s f o v vs :
  tokens_of s = Some (cmp_tokens (Cmp f o v vs)) ->
  In o CollectionOp.values ->
  exists op vals,
    CollectionOp.call o = Ok op
    /\ mapM value_of (v :: vs) = Ok vals
    /\ FilterParser.parse s = Ok (Collection_Node f op vals).
Proof.
  intros Ht Ho. rewrite (parse_by_tokens s (SCmp (Cmp f o v vs)) Ht).
  cbn [eval]. rewrite eval_cmp_comparison.
  pose proof (tokens_of_numbers _ _ Ht) as Hn. rewrite List.Forall_forall in Hn.
  assert (Hv : number_ok v).
  { apply number_token_ok, Hn, (cmp_tokens_values (Cmp f o v vs)). left. reflexivity. }
  assert (Hvs : Forall number_ok vs).
  { rewrite List.Forall_forall. intros v' Hv'.
    apply number_token_ok, Hn, (cmp_tokens_values (Cmp f o v vs)). right. exact Hv'. }
  destruct (value_of_ok v Hv) as [x Hx].
  destruct (mapM_value_of_ok vs Hvs) as [l Hl].
  assert (Hop : exists op, CollectionOp.call o = Ok op
                           /\ forall val, comparison f o val
                                          = Ok (Collection_Node f op
                                                  match val with
                                                  | VList l => l
                                                  | _ => [val]
                                                  end)).
  { simpl in Ho. destruct Ho as [<- | [<- | []]]; eexists; split;
      try reflexivity; intros val; reflexivity. }
  destruct Hop as (op & Hop & Hcmp). exists op.
  unfold cmp_value. cbn [c_val c_vals c_field c_op]. rewrite Hx. cbn [bind].
  destruct vs as [|v' vs'].
  - cbn [bind]. exists [x]. split; [exact Hop|].
    split; [rewrite mapM_cons, Hx; reflexivity|].
    rewrite Hcmp. destruct x; try reflexivity.
    exfalso. exact (value_of_scalar v _ Hx l0 eq_refl).
  - rewrite Hl. cbn [bind]. exists (x :: l). split; [exact Hop|].
    split; [rewrite mapM_cons, Hx, Hl; reflexivity|]. rewrite Hcmp. reflexivity.
Qed.

Lemma collection_values_witness :
  FilterParser.parse "id:in:1,2,3"
  = Ok (Collection_Node "id" CollectionOp.IN
          [VFloat (S754_finite false 4503599627370496 (-52));
           VFloat (S754_finite false 4503599627370496 (-51));
           VFloat (S754_finite false 6755399441055744 (-51))])
  /\ FilterParser.parse "id:not_in:7"
     = Ok (Collection_Node "id" CollectionOp.NOT_IN
             [VFloat (S754_finite false 7881299347898368 (-50))]).
Proof.
  split.
  - destruct (collection_values "id:in:1,2,3" "id" "in" (VTok KNumber "1")
                [VTok KNumber "2"; VTok KNumber "3"])
      as (op & vals & Hop & Hvals & Hp);
      [vm_compute; reflexivity | simpl; auto |].
    vm_compute in Hop, Hvals. injection Hop as <-. injection Hvals as <-.
    exact Hp.
  - destruct (collection_values "id:not_in:7" "id" "not_in" (VTok KNumber "7") [])
      as (op & vals & Hop & Hvals & Hp);
      [vm_compute; reflexivity | simpl; auto |].
    vm_compute in Hop, Hvals. injection Hop as <-. injection Hvals as <-.
    exact Hp.
Defined.

(** C6 (as the code has it): [and] and [or] have equal precedence and
    chains nest to the right.  Whatever sentences stand left and right of a
    connective, the AST is that of the re-association [graft]: the first
    comparison of the text is the left operand of the root, everything
    after its connective the right operand; each node has exactly the two
    operands of its reduction. *)
Theorem and_or_nest_to_the_right s e1 k e2 :
  tokens_of s = Some (tokens e1 ++ connective_token k :: tokens e2) ->
  FilterParser.parse s = eval (graft e1 k e2).
Proof.
  intros Ht. apply parse_by_tokens. rewrite tokens_graft. exact Ht.
Qed.

Lemma and_or_nest_to_the_right_witness :
  FilterParser.parse "active:eq:Y and admin:eq:Y"
  = Ok (Logical_Node LogicalOp.AND
          [Comparison_Node "active" ComparisonOp.EQ (VStr "Y");
           Comparison_Node "admin" ComparisonOp.EQ (VStr "Y")])
  /\ FilterParser.parse "a:eq:x and b:eq:y or c:eq:z"
     = Ok (Logical_Node LogicalOp.AND
             [Comparison_Node "a" ComparisonOp.EQ (VStr "x");
              Logical_Node LogicalOp.OR
                [Comparison_Node "b" ComparisonOp.EQ (VStr "y");
                 Comparison_Node "c" ComparisonOp.EQ (VStr "z")]]).
Proof.
  split.
  - rewrite (and_or_nest_to_the_right "active:eq:Y and admin:eq:Y"
               (SCmp (Cmp "active" "eq" (VTok KName "Y") [])) KAnd
               (SCmp (Cmp "admin" "eq" (VTok KName "Y") [])));
      vm_compute; reflexivity.
  - rewrite (and_or_nest_to_the_right "a:eq:x and b:eq:y or c:eq:z"
               (SBin (Cmp "a" "eq" (VTok KName "x") []) KAnd
                     (SCmp (Cmp "b" "eq" (VTok KName "y") [])))
               KOr
               (SCmp (Cmp "c" "eq" (VTok KName "z") [])));
      vm_compute; reflexivity.
Defined.

(** C6, counterexample: the three-term chain nests to the right. *)
Lemma three_term_chain :
  FilterParser.parse "a:eq:x and b:eq:y and c:eq:z"
  = Ok (Logical_Node LogicalOp.AND
          [Comparison_Node "a" ComparisonOp.EQ (VStr "x");
           Logical_Node LogicalOp.AND
             [Comparison_Node "b" ComparisonOp.EQ (VStr "y");
              Comparison_Node "c" ComparisonOp.EQ (VStr "z")]]).
Proof. vm_compute. reflexivity. Qed.

(** C8 (as the code has it): [build_filter] on a Comparison node raises
    the [AttributeError] of [getattr] when the model class has no attribute
    of the name of the field; so does it on every AST of the parser's
    shape in which such a field comes after columns only, and on every
    such AST it raises what the first leaf that fails to compile raises.
    When the name is that of an attribute that is no column, nothing is
    raised by the lookup: the node compiles to what Python's operator on
    that object gives.  [get_users] ends as [build_filter] on [Users]
    does. *)
Theorem unknown_field_raises :
  (forall model f op v,
      model f = None ->
      SQLAlchemyFilterBuilder.build_filter (Comparison_Node f op v) model
      = Raise (AttributeError f))
  /\ (forall model n f,
        well_formed n = true -> first_not_column model n = Some f -> model f = None ->
        SQLAlchemyFilterBuilder.build_filter n model = Raise (AttributeError f))
  /\ (forall model n,
        well_formed n = true ->
        match first_failure model n with
        | Some e => SQLAlchemyFilterBuilder.build_filter n model = Raise e
        | None => exists p, SQLAlchemyFilterBuilder.build_filter n model = Ok p
        end)
  /\ (forall model f op v o,
        model f = Some (Object o) ->
        SQLAlchemyFilterBuilder.build_filter (Comparison_Node f op v) model
        = operate o (Op_compare op v))
  /\ (forall runtime a cache n e,
        fst (optimized_parse_filters a cache) = Ok (Some n) ->
        SQLAlchemyFilterBuilder.build_filter n (Users runtime) = Raise e ->
        fst (get_users runtime a cache) = Raise e)
  /\ (forall runtime a cache n p,
        fst (optimized_parse_filters a cache) = Ok (Some n) ->
        SQLAlchemyFilterBuilder.build_filter n (Users runtime) = Ok p ->
        fst (get_users runtime a cache) = Ok (Some p))
  /\ (forall runtime,
        fst (get_users runtime (ArgStr "active:eq:Y and age:gt:18") ∅)
        = Raise (AttributeError "age")).
Proof.
  split; [|split; [|split; [|split; [|split; [|split]]]]].
  - intros model f op v H. cbn [SQLAlchemyFilterBuilder.build_filter].
    unfold SQLAlchemyFilterBuilder.visit_comparison_node,
      SQLAlchemyFilterBuilder.column_of. rewrite H. reflexivity.
  - intros model n f Hwf Hf Hm. pose proof (build_filter_compiles model n Hwf) as H.
    unfold compiles in H. rewrite Hf in H. exact (H Hm).
  - intros model n Hwf. exact (build_filter_propagates model n Hwf).
  - intros model f op v o H. cbn [SQLAlchemyFilterBuilder.build_filter].
    unfold SQLAlchemyFilterBuilder.visit_comparison_node,
      SQLAlchemyFilterBuilder.column_of. rewrite H. reflexivity.
  - intros runtime a cache n e Hp Hb. unfold get_users.
    destruct (optimized_parse_filters a cache) as [r cache'].
    simpl in Hp. subst r. rewrite Hb. reflexivity.
  - intros runtime a cache n p Hp Hb. unfold get_users.
    destruct (optimized_parse_filters a cache) as [r cache'].
    simpl in Hp. subst r. rewrite Hb. reflexivity.
  - intros runtime. vm_compute. reflexivity.
Qed.

(** C8, counterexample: [to_dict], [metadata] and [__tablename__] are
    attributes of [Users] and no columns.  With [to_dict:eq:Y] and
    [metadata:eq:Y] the query is filtered by the constant [False], with
    [__tablename__:eq:users] by the constant [True], and nothing is
    raised; with [to_dict:gt:1] the comparison raises [TypeError]. *)
Lemma non_column_attribute_compiles :
  (forall runtime,
      fst (get_users runtime (ArgStr "to_dict:eq:Y") ∅) = Ok (Some (Constant false)))
  /\ (forall runtime,
        fst (get_users runtime (ArgStr "metadata:eq:Y") ∅) = Ok (Some (Constant false)))
  /\ (forall runtime,
        fst (get_users runtime (ArgStr "__tablename__:eq:users") ∅)
        = Ok (Some (Constant true)))
  /\ (forall runtime,
        exists msg,
          fst (get_users runtime (ArgStr "to_dict:gt:1") ∅) = Raise (TypeError msg)).
Proof.
  repeat split; intros runtime; try (vm_compute; reflexivity).
  eexists. vm_compute. reflexivity.
Qed.

(** C9 (as the code has it): in every state of [_AST_CACHE] that calls
    from the empty dict reach, [optimized_parse_filters] ends as
    [parse_filters] does, for every argument: with [None] for an argument
    that is not a non-empty [str], with the AST when the parse succeeds,
    with [None] when the parser raises [UnexpectedToken], and with the
    exception of the parser otherwise. *)
Theorem entry_points_agree calls a :
  fst (optimized_parse_filters a (after_calls calls ∅)) = parse_filters a
  /\ parse_filters a = match nonempty_str a with
                       | Some s => answer (FilterParser.parse s)
                       | None => Ok None
                       end.
Proof.
  split.
  - apply optimized_parse_filters_result, reachable_sound.
  - apply parse_filters_answer.
Qed.

(** C9, counterexample: on [@], which the lexer rejects, both entry points
    raise [UnexpectedCharacters]; neither returns [None]. *)
Lemma entry_points_raise :
  parse_filters (ArgStr "@") = Raise (UnexpectedCharacters "@")
  /\ fst (optimized_parse_filters (ArgStr "@") ∅) = Raise (UnexpectedCharacters "@").
Proof. split; vm_compute; reflexivity. Qed.

(** C10: in an AST that [parse] returns, every Logical node has two
    operands when its operator is [AND] or [OR] and one when it is
    [NOT]. *)
Theorem parse_well_formed s n : FilterParser.parse s = Ok n -> well_formed n = true.
Proof.
  intros H. pose proof (parse_outcome s) as Ho. rewrite H in Ho. exact Ho.
Qed.

Lemma parse_well_formed_witness :
  well_formed
    (Logical_Node LogicalOp.NOT
       [Logical_Node LogicalOp.OR
          [Comparison_Node "a" ComparisonOp.EQ (VStr "x");
           Comparison_Node "b" ComparisonOp.EQ (VStr "y")]]) = true.
Proof.
  apply (parse_well_formed "not a:eq:x or b:eq:y"). vm_compute. reflexivity.
Defined.

(** Every call of [parse] returns: with a well-formed AST, or raising
    [UnexpectedToken], [UnexpectedCharacters] or [ValueError]. *)
Theorem parse_returns s :
  (exists n, FilterParser.parse s = Ok n /\ well_formed n = true)
  \/ (exists w, FilterParser.parse s = Raise (UnexpectedToken w))
  \/ (exists w, FilterParser.parse s = Raise (UnexpectedCharacters w))
  \/ (exists w, FilterParser.parse s = Raise (ValueError w)).
Proof.
  pose proof (parse_outcome s) as H.
  destruct (FilterParser.parse s) as [n|e].
  - left. exists n. split; [reflexivity | exact H].
  - right. destruct e; try contradiction; eauto.
Qed.

(** [comparison_expr] never returns a Range node. *)
Theorem comparison_expr_no_range args :
  match FilterTransformer.comparison_expr args with
  | Ok (ONode (Range_Node _ _ _)) => False
  | _ => True
  end.
Proof.
  unfold FilterTransformer.comparison_expr.
  destruct args as [|field [|op [|val [|? ?]]]]; try exact I.
  destruct (as_str op) as [o|]; [|exact I].
  destruct (as_str field) as [f|]; [|exact I].
  destruct (as_value val) as [v|]; [|exact I].
  cbn [bind py_eq].
  destruct (py_in o ComparisonOp.values).
  { destruct (ComparisonOp.call o); exact I. }
  destruct (py_in o CollectionOp.values).
  { destruct (CollectionOp.call o); exact I. }
  destruct (py_in o TextOp.values); [|exact I].
  destruct (TextOp.call o); exact I.
Qed.


(** ** Further properties of the code *)

(** ** The registry *)

Lemma find_fst_In {A B} (eqb : A -> A -> bool) (l : list (A * B)) a p :
  (forall x y, eqb x y = true <-> x = y) ->
  find (fun q => eqb (fst q) a) l = Some p -> In p l /\ fst p = a.
Proof.
  intros Heq H. apply find_some in H as [Hin Hp]. split; [exact Hin|].
  apply Heq, Hp.
Qed.

Lemma find_key_unique {A B} (f : A * B -> string) (l : list (A * B)) p :
  List.NoDup (map f l) -> In p l ->
  find (fun q => String.eqb (f q) (f p)) l = Some p.
Proof.
  induction l as [|q l IH]; simpl; [contradiction|].
  intros Hnd Hin. inversion Hnd as [|? ? Hq Hl]; subst.
  destruct (String.eqb (f q) (f p)) eqn:E.
  - apply String.eqb_eq in E. destruct Hin as [-> | Hin]; [reflexivity|].
    exfalso. apply Hq. rewrite E. apply in_map, Hin.
  - destruct Hin as [-> | Hin]; [rewrite String.eqb_refl in E; discriminate|].
    apply IH; assumption.
Qed.

Lemma from_string_members cls n v :
  List.NoDup (map fst (BaseEnum.members cls)) ->
  BaseEnum.from_string cls n = Ok v <-> In (n, v) (BaseEnum.members cls).
Proof.
  intros Hnd. unfold BaseEnum.from_string. split.
  - destruct (find _ _) as [p|] eqn:E; [|discriminate].
    intros H. injection H as <-. apply find_some in E as [Hin Hp].
    apply String.eqb_eq in Hp. subst n. destruct p; exact Hin.
  - intros Hin. pose proof (find_key_unique fst _ (n, v) Hnd Hin) as H.
    cbn [fst snd] in H. rewrite H. reflexivity.
Qed.

Lemma from_value_members cls n v :
  List.NoDup (map snd (BaseEnum.members cls)) ->
  BaseEnum.from_value cls v = Ok n <-> In (n, v) (BaseEnum.members cls).
Proof.
  intros Hnd. unfold BaseEnum.from_value. split.
  - destruct (find _ _) as [p|] eqn:E; [|discriminate].
    intros H. injection H as <-. apply find_some in E as [Hin Hp].
    apply String.eqb_eq in Hp. subst v. destruct p; exact Hin.
  - intros Hin. pose proof (find_key_unique snd _ (n, v) Hnd Hin) as H.
    cbn [fst snd] in H. rewrite H. reflexivity.
Qed.

Lemma registry_distinct : Forall distinct registry.
Proof.
  repeat constructor; simpl; intros H;
    repeat (destruct H as [H | H]; [discriminate H|]); exact H.
Qed.

(** [from_string] and [from_value] are inverse to each other on an enum
    class whose members have distinct names and distinct values, as the
    five classes of the registry have: [from_string] maps a name to a
    value exactly when [from_value] maps that value back to the name, and
    exactly when the pair is an item of [members()]; on any other name
    [from_string] raises [ValueError] with the name in its message. *)
Theorem from_string_from_value cls n v :
  distinct cls ->
  (BaseEnum.from_string cls n = Ok v <-> BaseEnum.from_value cls v = Ok n)
  /\ (BaseEnum.from_string cls n = Ok v <-> In (n, v) (BaseEnum.members cls))
  /\ (forall e, BaseEnum.from_string cls n = Raise e ->
        e = ValueError ("Invalid Status name: " ++ n)
        /\ ~ In n (map fst (BaseEnum.members cls))).
Proof.
  intros [Hn Hv]. split; [|split].
  - rewrite from_string_members, from_value_members by assumption. reflexivity.
  - apply from_string_members, Hn.
  - intros e. unfold BaseEnum.from_string.
    destruct (find _ _) as [p|] eqn:E; [discriminate|].
    intros H. injection H as <-. split; [reflexivity|].
    intros Hin. apply in_map_iff in Hin as (p & <- & Hp).
    apply (find_none _ _ E) in Hp. rewrite String.eqb_refl in Hp. discriminate.
Qed.

Lemma from_string_from_value_witness :
  BaseEnum.from_string ComparisonOp_class "GTE" = Ok "gte"
  /\ BaseEnum.from_value ComparisonOp_class "gte" = Ok "GTE"
  /\ BaseEnum.from_string TextOp_class "gte" = Raise (ValueError "Invalid Status name: gte").
Proof.
  assert (Hc : distinct ComparisonOp_class).
  { pose proof registry_distinct as H. inversion H; assumption. }
  split; [reflexivity|]. split; [|reflexivity].
  apply (proj1 (from_string_from_value ComparisonOp_class "GTE" "gte" Hc)).
  reflexivity.
Defined.

Lemma py_in_existsb op l : py_in op l = existsb (String.eqb op) l.
Proof. reflexivity. Qed.

Lemma guard_call {A} (value : A -> string) (members : list A) op :
  existsb (String.eqb op) (map value members) = true <->
  exists m, find (fun o => String.eqb (value o) op) members = Some m.
Proof.
  induction members as [|a l IH]; simpl.
  - split; [discriminate | intros [m H]; discriminate].
  - rewrite (String.eqb_sym op (value a)).
    destruct (String.eqb (value a) op); simpl.
    + split; [intros _; eexists; reflexivity | reflexivity].
    + exact IH.
Qed.

(** The tests [op in X.values()] of [comparison_expr] guard the calls
    [X(op)] that follow them: for the three classes that the transformer
    calls, [op] is among the values exactly when the call returns a
    member, and the member returned has [op] as its value. *)
Theorem values_guard_call op :
  ((py_in op ComparisonOp.values = true <-> exists m, ComparisonOp.call op = Ok m)
   /\ forall m, ComparisonOp.call op = Ok m -> ComparisonOp.value m = op)
  /\ ((py_in op CollectionOp.values = true <-> exists m, CollectionOp.call op = Ok m)
      /\ forall m, CollectionOp.call op = Ok m -> CollectionOp.value m = op)
  /\ ((py_in op TextOp.values = true <-> exists m, TextOp.call op = Ok m)
      /\ forall m, TextOp.call op = Ok m -> TextOp.value m = op).
Proof.
  repeat split;
    try (intros H; rewrite py_in_existsb in H;
         first [ apply (guard_call ComparisonOp.value) in H
               | apply (guard_call CollectionOp.value) in H
               | apply (guard_call TextOp.value) in H ];
         destruct H as [m H]; exists m;
         unfold ComparisonOp.call, CollectionOp.call, TextOp.call;
         rewrite H; reflexivity);
    try (intros [m H]; rewrite py_in_existsb;
         first [ apply (guard_call ComparisonOp.value)
               | apply (guard_call CollectionOp.value)
               | apply (guard_call TextOp.value) ];
         exists m; revert H;
         unfold ComparisonOp.call, CollectionOp.call, TextOp.call;
         destruct (find _ _); congruence);
    try (intros m; unfold ComparisonOp.call, CollectionOp.call, TextOp.call;
         destruct (find _ _) as [o|] eqn:E; [|discriminate];
         intros H; injection H as <-; apply find_some in E as [_ E];
         apply String.eqb_eq in E; exact E).
Qed.

Lemma parse_comparison_text s c :
  tokens_of s = Some (cmp_tokens c) ->
  exists x l,
    value_of (c_val c) = Ok x /\ mapM value_of (c_vals c) = Ok l
    /\ FilterParser.parse s
       = comparison (c_field c) (c_op c) (value_or_list x l).
Proof.
  intros Ht. rewrite (parse_by_tokens s (SCmp c) Ht).
  cbn [eval]. rewrite eval_cmp_comparison.
  pose proof (tokens_of_numbers _ _ Ht) as Hn. rewrite List.Forall_forall in Hn.
  assert (Hv : number_ok (c_val c)).
  { apply number_token_ok, Hn, (cmp_tokens_values c). left. reflexivity. }
  assert (Hvs : Forall number_ok (c_vals c)).
  { rewrite List.Forall_forall. intros v' Hv'.
    apply number_token_ok, Hn, (cmp_tokens_values c). right. exact Hv'. }
  destruct (value_of_ok _ Hv) as [x Hx].
  destruct (mapM_value_of_ok _ Hvs) as [l Hl].
  exists x, l. split; [exact Hx|]. split; [exact Hl|].
  unfold cmp_value. rewrite Hx. cbn [bind].
  destruct (c_vals c) as [|v' vs'] eqn:E.
  - cbn [mapM] in Hl. injection Hl as <-. reflexivity.
  - rewrite Hl. cbn [bind]. destruct l as [|y l].
    + rewrite mapM_cons in Hl. destruct (value_of v'); [|discriminate].
      cbn [bind] in Hl. destruct (mapM value_of vs'); discriminate.
    + reflexivity.
Qed.

(** With a Comparison operator ([eq], [neq], [gt], [gte], [lt], [lte]) the
    parse gives a Comparison node that holds the value as the transformer
    built it; several values separated by commas are accepted and stored
    as a list, there is no check of their number. *)
Theorem comparison_operator_value s f o v vs :
  tokens_of s = Some (cmp_tokens (Cmp f o v vs)) ->
  In o ComparisonOp.values ->
  exists op x l,
    ComparisonOp.call o = Ok op
    /\ value_of v = Ok x /\ mapM value_of vs = Ok l
    /\ FilterParser.parse s = Ok (Comparison_Node f op (value_or_list x l)).
Proof.
  intros Ht Ho. destruct (parse_comparison_text s _ Ht) as (x & l & Hx & Hl & Hp).
  cbn [c_val c_vals c_field c_op] in *. rewrite Hp.
  simpl in Ho.
  repeat (destruct Ho as [<- | Ho];
          [eexists; exists x, l; repeat split; try eassumption; reflexivity|]).
  contradiction.
Qed.

Lemma comparison_operator_value_witness :
  FilterParser.parse "age:gte:18"
  = Ok (Comparison_Node "age" ComparisonOp.GTE
          (VFloat (S754_finite false 5066549580791808 (-48))))
  /\ FilterParser.parse "state:eq:NY,CA"
     = Ok (Comparison_Node "state" ComparisonOp.EQ (VList [VStr "NY"; VStr "CA"])).
Proof.
  split.
  - destruct (comparison_operator_value "age:gte:18" "age" "gte" (VTok KNumber "18") [])
      as (op & x & l & Hop & Hx & Hl & Hp);
      [vm_compute; reflexivity | simpl; auto 10 |].
    vm_compute in Hop, Hx, Hl. injection Hop as <-. injection Hx as <-.
    injection Hl as <-. exact Hp.
  - destruct (comparison_operator_value "state:eq:NY,CA" "state" "eq"
                (VTok KName "NY") [VTok KName "CA"])
      as (op & x & l & Hop & Hx & Hl & Hp);
      [vm_compute; reflexivity | simpl; auto 10 |].
    vm_compute in Hop, Hx, Hl. injection Hop as <-. injection Hx as <-.
    injection Hl as <-. exact Hp.
Defined.

(** With a Text operator ([like], [ilike], [contains]) the parse gives a
    Text_Search node whose pattern is [str(value)]: the characters
    themselves when the value is a name or a string, the text that [str]
    gives for a float or for a list otherwise. *)
Theorem text_operator_pattern s f o v vs :
  tokens_of s = Some (cmp_tokens (Cmp f o v vs)) ->
  In o TextOp.values ->
  exists op x l,
    TextOp.call o = Ok op
    /\ value_of v = Ok x /\ mapM value_of vs = Ok l
    /\ FilterParser.parse s
       = Ok (Text_Search_Node f op (py_str (value_or_list x l))).
Proof.
  intros Ht Ho. destruct (parse_comparison_text s _ Ht) as (x & l & Hx & Hl & Hp).
  cbn [c_val c_vals c_field c_op] in *. rewrite Hp.
  simpl in Ho.
  repeat (destruct Ho as [<- | Ho];
          [eexists; exists x, l; repeat split; try eassumption; reflexivity|]).
  contradiction.
Qed.

Lemma text_operator_pattern_witness :
  FilterParser.parse "surname:like:Smi"
  = Ok (Text_Search_Node "surname" TextOp.LIKE (Text "Smi"))
  /\ FilterParser.parse "postcode:contains:12"
     = Ok (Text_Search_Node "postcode" TextOp.CONTAINS
             (StrOf (VFloat (S754_finite false 6755399441055744 (-49))))).
Proof.
  split.
  - destruct (text_operator_pattern "surname:like:Smi" "surname" "like"
                (VTok KName "Smi") [])
      as (op & x & l & Hop & Hx & Hl & Hp);
      [vm_compute; reflexivity | simpl; auto 10 |].
    vm_compute in Hop, Hx, Hl. injection Hop as <-. injection Hx as <-.
    injection Hl as <-. exact Hp.
  - destruct (text_operator_pattern "postcode:contains:12" "postcode" "contains"
                (VTok KNumber "12") [])
      as (op & x & l & Hop & Hx & Hl & Hp);
      [vm_compute; reflexivity | simpl; auto 10 |].
    vm_compute in Hop, Hx, Hl. injection Hop as <-. injection Hx as <-.
    injection Hl as <-. exact Hp.
Defined.

(** [not] takes everything to its right as its operand: when the tokens
    after a leading [not] are those of a sentence, chains of [and] and
    [or] included, the AST is the NOT node over the AST of that whole
    sentence. *)
Theorem not_takes_the_rest s e :
  tokens_of s = Some (NOT_token :: tokens e) ->
  FilterParser.parse s
  = let* y := eval e in Ok (Logical_Node LogicalOp.NOT [y]).
Proof. intros Ht. exact (parse_by_tokens s (SNot e) Ht). Qed.

Lemma not_takes_the_rest_witness :
  FilterParser.parse "not a:eq:x and b:eq:y"
  = Ok (Logical_Node LogicalOp.NOT
          [Logical_Node LogicalOp.AND
             [Comparison_Node "a" ComparisonOp.EQ (VStr "x");
              Comparison_Node "b" ComparisonOp.EQ (VStr "y")]]).
Proof.
  rewrite (not_takes_the_rest "not a:eq:x and b:eq:y"
             (SBin (Cmp "a" "eq" (VTok KName "x") []) KAnd
                   (SCmp (Cmp "b" "eq" (VTok KName "y") []))));
    vm_compute; reflexivity.
Defined.

Lemma binary_round_aux_sign mx ex lx :
  negative (binary_round_aux prec emax false mx ex lx) = false.
Proof.
  unfold binary_round_aux.
  destruct (shr_fexp prec emax mx ex lx) as [mrs' e'].
  destruct (shr_fexp prec emax _ e' loc_Exact) as [mrs'' e''].
  destruct (shr_m mrs''); [reflexivity | | reflexivity].
  destruct (e'' <=? emax - prec)%Z; reflexivity.
Qed.

Lemma float_of_decimal_sign m e : negative (float_of_decimal m e) = false.
Proof.
  unfold float_of_decimal. destruct m as [|p|p]; try reflexivity.
  destruct (0 <=? e)%Z eqn:He.
  - apply Z.leb_le in He.
    assert (Hpos : (0 < Z.pos p * 10 ^ e)%Z).
    { apply Z.mul_pos_pos; [lia | apply Z.pow_pos_nonneg; lia]. }
    unfold binary_normalize. destruct (Z.pos p * 10 ^ e)%Z; try lia.
    unfold binary_round. destruct (shl_align _ _ _) as [mz ez].
    apply binary_round_aux_sign.
  - unfold SFdiv. destruct (SFdiv_core_binary _ _ _ _ _ _) as [[mz ez] lz].
    apply binary_round_aux_sign.
Qed.

Lemma py_float_sign w f : py_float w = Ok f -> negative f = false.
Proof.
  unfold py_float. destruct (span is_digit w) as [ip s1].
  destruct (match s1 with
            | String "." s1' => span is_digit s1'
            | _ => ("", s1)
            end) as [fp s2].
  destruct (ip ++ fp)%string; [discriminate|].
  destruct s2 as [|c s2].
  - intros H. injection H as <-. apply float_of_decimal_sign.
  - destruct (exponent_part (String c s2)) as [[e [|? ?]]|]; try discriminate.
    intros H. injection H as <-. apply float_of_decimal_sign.
Qed.

(** [number_value] returns on every [NUMBER] token that the lexer yields,
    in whatever parser state: [float] accepts each lexeme of the terminal.
    The double is never negative: the terminal has no sign. *)
Theorem number_value_of_lexeme q s tok rest :
  lex q s = Ok (Some (tok, rest)) -> type tok = NUMBER ->
  exists f, FilterTransformer.number_value [OTok tok] = Ok (OVal (VFloat f))
            /\ negative f = false.
Proof.
  intros Hl Ht. destruct (lex_number q s tok rest Hl Ht) as [f Hf].
  exists f. split; [|eapply py_float_sign, Hf].
  unfold FilterTransformer.number_value. cbn [item0 as_str bind].
  rewrite Hf. reflexivity.
Qed.

Lemma number_value_of_lexeme_witness :
  exists f, FilterTransformer.number_value [OTok (mkToken NUMBER "2.5e3")]
            = Ok (OVal (VFloat f))
            /\ negative f = false.
Proof.
  apply (number_value_of_lexeme 16 "2.5e3,7" (mkToken NUMBER "2.5e3") ",7");
    vm_compute; reflexivity.
Defined.

Lemma match_string_body_quote s : forall esc a b,
  match_string_body s esc = Some (a, b) -> exists body, a = (body ++ quote)%string.
Proof.
  induction s as [|c s IH]; simpl; intros esc a b H; [discriminate|].
  destruct (Ascii.eqb c (ascii_of_nat 10)); [discriminate|].
  destruct (Ascii.eqb c (ascii_of_nat 34)) eqn:Ec.
  - destruct esc.
    + destruct (match_string_body s false) as [[a' b']|] eqn:E; [|discriminate].
      injection H as <- <-. destruct (IH _ _ _ E) as [body ->].
      exists (String c body). reflexivity.
    + injection H as <- <-. apply Ascii.eqb_eq in Ec. subst c.
      exists "". reflexivity.
  - destruct (match_string_body s _) as [[a' b']|] eqn:E; [|discriminate].
    injection H as <- <-. destruct (IH _ _ _ E) as [body ->].
    exists (String c body). reflexivity.
Qed.

Lemma list_ascii_of_string_app a b :
  list_ascii_of_string (a ++ b) = list_ascii_of_string a ++ list_ascii_of_string b.
Proof. induction a; rewrite ?append_String, ?append_empty; simpl; congruence. Qed.

Lemma removelast_snoc {A} (l : list A) x : removelast (l ++ [x]) = l.
Proof. apply removelast_last. Qed.

Lemma slice_quoted c body : slice_1_m1 (String c (body ++ quote)) = body.
Proof.
  unfold slice_1_m1. rewrite list_ascii_of_string_app. simpl list_ascii_of_string at 2.
  rewrite removelast_snoc. apply string_of_list_ascii_of_string.
Qed.

Lemma endswith_quoted c body : endswith_quote (String c (body ++ quote)) = true.
Proof.
  unfold endswith_quote. simpl list_ascii_of_string.
  rewrite list_ascii_of_string_app. simpl list_ascii_of_string at 2.
  simpl rev. rewrite rev_app_distr. reflexivity.
Qed.

(** [string_value] on a lexeme of [ESCAPED_STRING]: the lexeme is a quote,
    a body and a quote, and the value is the body, character for
    character; a backslash of the body stays in the value, and the branch
    that returns the lexeme with its quotes is never taken. *)
Theorem string_value_of_lexeme s w r :
  match_terminal ESCAPED_STRING s = Some (w, r) ->
  exists body,
    w = (quote ++ body ++ quote)%string
    /\ FilterTransformer.string_value [OTok (mkToken ESCAPED_STRING w)]
       = Ok (OVal (VStr body)).
Proof.
  cbn [match_terminal]. unfold match_ESCAPED_STRING.
  destruct s as [|c s']; [discriminate|].
  destruct (Ascii.eqb c (ascii_of_nat 34)) eqn:Ec; [|discriminate].
  destruct (match_string_body s' false) as [[a b]|] eqn:E; [|discriminate].
  intros H. injection H as <- <-. apply Ascii.eqb_eq in Ec. subst c.
  destruct (match_string_body_quote _ _ _ _ E) as [body ->].
  exists body. split; [reflexivity|].
  unfold FilterTransformer.string_value. cbn [item0 as_str bind text].
  rewrite endswith_quoted, slice_quoted. reflexivity.
Qed.

Lemma string_value_of_lexeme_witness :
  exists body,
    (quote ++ "New York" ++ quote)%string = (quote ++ body ++ quote)%string
    /\ FilterTransformer.string_value
         [OTok (mkToken ESCAPED_STRING (quote ++ "New York" ++ quote))]
       = Ok (OVal (VStr body)).
Proof.
  apply (string_value_of_lexeme (quote ++ "New York" ++ quote ++ " and") _ " and").
  vm_compute. reflexivity.
Defined.

(** ** White space *)

Lemma span_all p ws s :
  all_chars p ws = true ->
  span p (ws ++ s) = let '(a, b) := span p s in ((ws ++ a)%string, b).
Proof.
  induction ws as [|c ws IH]; intros H.
  - rewrite append_empty. destruct (span p s). reflexivity.
  - simpl in H. apply andb_prop in H as [Hc H]. rewrite append_String.
    simpl. rewrite Hc, (IH H). destruct (span p s). reflexivity.
Qed.

Lemma next_token_skip_ws terms ws s :
  all_chars is_ws ws = true -> next_token terms (ws ++ s) = next_token terms s.
Proof.
  intros H. unfold next_token. rewrite (span_all _ _ _ H).
  destruct (span is_ws s). reflexivity.
Qed.

(** The lexer of every parser state skips white space before a token. *)
Lemma lex_skip_ws q ws s :
  all_chars is_ws ws = true -> lex q (ws ++ s) = lex q s.
Proof. intros H. unfold lex. rewrite (next_token_skip_ws _ _ _ H). reflexivity. Qed.

(** More rounds than the text has characters change nothing. *)
Lemma parse_from_state_rounds cb r1 : forall r2 ps s,
  String.length s <= r1 -> String.length s <= r2 ->
  parse_from_state lex cb r1 ps s = parse_from_state lex cb r2 ps s.
Proof.
  induction r1 as [|r1 IH]; intros r2 ps s H1 H2.
  - destruct r2; [reflexivity|]. simpl.
    destruct (state_stack ps) as [|q ss]; [reflexivity|].
    destruct (lex q s) as [[[tok rest]|]|e] eqn:E; try reflexivity.
    apply lex_consumes in E. lia.
  - destruct r2.
    + simpl. destruct (state_stack ps) as [|q ss]; [reflexivity|].
      destruct (lex q s) as [[[tok rest]|]|e] eqn:E; try reflexivity.
      apply lex_consumes in E. lia.
    + simpl. destruct (state_stack ps) as [|q ss]; [reflexivity|].
      destruct (lex q s) as [[[tok rest]|]|e] eqn:E; try reflexivity.
      apply lex_consumes in E as [E _].
      destruct (feed_token _ _ _ _ _) as [[[ps'|v]|e]|]; try reflexivity.
      apply IH; lia.
Qed.

(** White space before a filter text changes nothing: the text with the
    white space parses to the same AST, or raises the same exception, as
    the text without. *)
Theorem leading_white_space ws s :
  all_chars is_ws ws = true -> FilterParser.parse (ws ++ s) = FilterParser.parse s.
Proof.
  intros H. unfold FilterParser.parse, FilterParser.run.
  assert (Hr : parse_from_state lex callback (String.length (ws ++ s)%string)
                 (mkState [start_state] []) (ws ++ s)%string
               = parse_from_state lex callback (String.length (ws ++ s)%string)
                   (mkState [start_state] []) s).
  { destruct (String.length (ws ++ s)%string); simpl; rewrite (lex_skip_ws _ _ _ H);
      reflexivity. }
  rewrite Hr.
  rewrite (parse_from_state_rounds callback _ (String.length s));
    [reflexivity | rewrite length_append; lia | lia].
Qed.

Lemma leading_white_space_witness :
  FilterParser.parse "  active:eq:Y" = FilterParser.parse "active:eq:Y".
Proof. apply (leading_white_space "  " "active:eq:Y"). reflexivity. Defined.

(** A text of white space only (the empty text included) is rejected with
    [UnexpectedToken] at the end of the input, so both entry points return
    [None] for it. *)
Theorem blank_text s :
  all_chars is_ws s = true ->
  FilterParser.parse s = Raise (UnexpectedToken "$END")
  /\ parse_filters (ArgStr s) = Ok None
  /\ forall calls,
       fst (optimized_parse_filters (ArgStr s) (after_calls calls ∅)) = Ok None.
Proof.
  intros H.
  assert (Hp : FilterParser.parse s = Raise (UnexpectedToken "$END")).
  { unfold FilterParser.parse, FilterParser.run.
    assert (Hl : lex start_state s = Ok None).
    { rewrite <- (append_empty_r s), (lex_skip_ws _ _ _ H). reflexivity. }
    destruct (String.length s); cbn [parse_from_state state_stack];
      rewrite Hl; vm_compute; reflexivity. }
  split; [exact Hp|].
  assert (Hf : parse_filters (ArgStr s) = Ok None)
    by (rewrite parse_filters_ArgStr, Hp; reflexivity).
  split; [exact Hf|].
  intros calls. rewrite optimized_parse_filters_result by apply reachable_sound.
  exact Hf.
Qed.

Lemma blank_text_witness :
  FilterParser.parse "   " = Raise (UnexpectedToken "$END")
  /\ parse_filters (ArgStr "   ") = Ok None
  /\ forall calls,
       fst (optimized_parse_filters (ArgStr "   ") (after_calls calls ∅)) = Ok None.
Proof. apply (blank_text "   "). reflexivity. Defined.

(** An operation on an attribute that is no column returns a [bool] or a
    clause of that attribute's own. *)
Lemma operate_value o x p :
  operate o x = Ok p -> (exists b, p = Constant b) \/ (exists r, p = Clause r).
Proof.
  destruct o as [s | | g]; cbn [operate].
  - destruct x as [op v| | | | | |]; try discriminate.
    destruct v; [|destruct op; cbn [compare_plain]; try discriminate..];
      intros H; injection H as <-; eauto.
  - destruct x as [op v| | | | | |]; try discriminate.
    destruct op; cbn [compare_plain]; try discriminate;
      intros H; injection H as <-; eauto.
  - destruct (g x) as [[b|r]|]; cbn [bind]; try discriminate;
      intros H; injection H as <-; eauto.
Qed.







Lemma is_str_spec a s : is_str a s = true <-> a = ArgStr s.
Proof.
  destruct a as [s'|]; simpl; [|split; discriminate].
  rewrite String.eqb_eq. split; congruence.
Qed.

Lemma optimized_parse_filters_lookup a cache s :
  snd (optimized_parse_filters a cache) !! s
  = match cache !! s with
    | Some ast => Some ast
    | None =>
        if is_str a s
        then match FilterParser.parse s with
             | Ok ast => Some ast
             | Raise _ => None
             end
        else None
    end.
Proof.
  unfold optimized_parse_filters.
  destruct (nonempty_str a) as [s'|] eqn:Ea.
  - apply nonempty_str_ArgStr in Ea. subst a. cbn [is_str].
    destruct (cache !! s') as [ast'|] eqn:Es'.
    + cbn [snd]. destruct (cache !! s) eqn:Es; [reflexivity|].
      destruct (String.eqb s' s) eqn:Heq; [|reflexivity].
      apply String.eqb_eq in Heq. congruence.
    + destruct (String.eqb s' s) eqn:Heq.
      * apply String.eqb_eq in Heq. subst s'. rewrite Es'.
        destruct (FilterParser.parse s) as [ast|e].
        -- cbn [snd]. apply lookup_insert_eq.
        -- destruct e; cbn [snd]; exact Es'.
      * apply String.eqb_neq in Heq.
        destruct (FilterParser.parse s') as [ast|e].
        -- cbn [snd]. rewrite lookup_insert_ne by assumption.
           destruct (cache !! s); reflexivity.
        -- destruct e; cbn [snd]; destruct (cache !! s); reflexivity.
  - cbn [snd]. destruct (cache !! s) eqn:Es; [reflexivity|].
    destruct (is_str a s) eqn:Heq; [|reflexivity].
    apply is_str_spec in Heq. subst a.
    destruct s as [|c s]; [|discriminate Ea].
    rewrite parse_empty. reflexivity.
Qed.

Lemma after_calls_lookup calls s ast : forall cache,
  cache_sound cache ->
  after_calls calls cache !! s = Some ast
  <-> cache !! s = Some ast
      \/ (In (ArgStr s) calls /\ FilterParser.parse s = Ok ast).
Proof.
  induction calls as [|a calls IH]; intros cache Hc.
  - cbn [after_calls fold_left In]. tauto.
  - change (after_calls (a :: calls) cache)
      with (after_calls calls (snd (optimized_parse_filters a cache))).
    rewrite (IH _ (optimized_parse_filters_sound a cache Hc)).
    rewrite optimized_parse_filters_lookup. cbn [In].
    destruct (cache !! s) as [ast'|] eqn:E.
    + pose proof (Hc s ast' E) as Hs. split.
      * intros [H | [Hin Hp]]; [left; exact H | left; congruence].
      * intros [H | [_ Hp]]; left; congruence.
    + destruct (is_str a s) eqn:Ha.
      * apply is_str_spec in Ha. subst a.
        destruct (FilterParser.parse s) as [ast'|e] eqn:Hp.
        -- split.
           ++ intros [H | [_ H]]; right; split; auto; congruence.
           ++ intros [H | [_ H]]; [discriminate | left; congruence].
        -- split.
           ++ intros [H | [_ H]]; discriminate.
           ++ intros [H | [_ H]]; discriminate.
      * split.
        -- intros [H | [Hin Hp]]; [discriminate | right; auto].
        -- intros [H | [[Heq | Hin] Hp]]; [discriminate | | right; auto].
           apply is_str_spec in Heq. congruence.
Qed.

(** What [_AST_CACHE] holds after any sequence of calls from the empty
    dict: a string is a key exactly when it was an argument of one of the
    calls and parses, and its entry is the AST of its parse.  A string
    that does not parse, an argument that is not a string, never adds an
    entry, and no entry is ever replaced or removed. *)
Theorem cache_contents calls s ast :
  after_calls calls ∅ !! s = Some ast
  <-> In (ArgStr s) calls /\ FilterParser.parse s = Ok ast.
Proof.
  rewrite (after_calls_lookup calls s ast ∅ cache_sound_empty).
  rewrite lookup_empty. split; [intros [H | H]; [discriminate | exact H] | auto].
Qed.

Lemma get_users_result runtime a cache :
  cache_sound cache ->
  fst (get_users runtime a cache)
  = let* filter_ast := parse_filters a in
    match filter_ast with
    | None => Ok None
    | Some ast =>
        let* f := SQLAlchemyFilterBuilder.build_filter ast (Users runtime) in
        Ok (Some f)
    end.
Proof.
  intros Hc. unfold get_users.
  rewrite <- (optimized_parse_filters_result a cache Hc).
  destruct (optimized_parse_filters a cache) as [[[ast|]|e] cache']; reflexivity.
Qed.

(** The cached query and the paginated query filter alike: for every
    argument and in every state of [_AST_CACHE] that calls from the empty
    dict reach, [get_users] builds the predicate that [get_users_paginated]
    builds, or both raise the same exception; the page only sets [limit]
    and [offset]. *)
Theorem paginated_filters_as_cached runtime calls a page per_page :
  match get_users_paginated runtime a page per_page with
  | Ok (filters, limit, offset) =>
      fst (get_users runtime a (after_calls calls ∅)) = Ok filters
      /\ limit = per_page /\ offset = ((page - 1) * per_page)%Z
  | Raise e => fst (get_users runtime a (after_calls calls ∅)) = Raise e
  end.
Proof.
  rewrite get_users_result by apply reachable_sound.
  unfold get_users_paginated.
  destruct (parse_filters a) as [[ast|]|e]; cbn [bind].
  - destruct (SQLAlchemyFilterBuilder.build_filter ast (Users runtime)); cbn [bind]; auto.
  - auto.
  - reflexivity.
Qed.

(** The queries with a fixed filter text never fail in the filter layer:
    in every state of [_AST_CACHE] that calls from the empty dict reach,
    each builds its predicate over columns of [Users]. *)
Theorem fixed_queries runtime calls :
  fst (get_active_users runtime (after_calls calls ∅))
  = Ok (Some (Compare "active" ComparisonOp.EQ (VStr "Y")))
  /\ fst (get_inactive_users runtime (after_calls calls ∅))
     = Ok (Some (Compare "active" ComparisonOp.EQ (VStr "N")))
  /\ fst (get_admin_users runtime (after_calls calls ∅))
     = Ok (Some (And_ [Compare "active" ComparisonOp.EQ (VStr "Y");
                       Compare "admin" ComparisonOp.EQ (VStr "Y")]))
  /\ forall page per_page,
       get_active_users_paginated runtime page per_page
       = Ok (Some (Compare "active" ComparisonOp.EQ (VStr "Y")),
             per_page, ((page - 1) * per_page)%Z).
Proof.
  unfold get_active_users, get_inactive_users, get_admin_users.
  rewrite !get_users_result by apply reachable_sound.
  repeat split.
Qed.

(** However many rounds [TestApp.get_users] runs, [_AST_CACHE] holds three
    entries afterwards, one for each of the three filter texts. *)
Theorem benchmark_cache execution_count s :
  0 < execution_count ->
  (is_Some (after_calls (benchmark_calls execution_count) ∅ !! s)
   <-> In s ["active:eq:Y"; "active:eq:Y and admin:eq:Y"; "active:eq:N"]).
Proof.
  intros Hn.
  assert (Hin : In (ArgStr s) (benchmark_calls execution_count)
                <-> In s ["active:eq:Y"; "active:eq:Y and admin:eq:Y"; "active:eq:N"]).
  { destruct execution_count as [|n]; [lia|]. clear Hn. split.
    - induction (S n) as [|m IH]; simpl; [contradiction|].
      intros [H | [H | [H | H]]]; try (injection H as <-; simpl; auto).
      apply IH, H.
    - simpl. intros [<- | [<- | [<- | []]]]; auto. }
  split.
  - intros [ast H]. apply (after_calls_lookup _ _ _ ∅ cache_sound_empty) in H.
    rewrite lookup_empty in H. destruct H as [H | [H _]]; [discriminate|].
    apply Hin, H.
  - intros H.
    assert (Hp : exists ast, FilterParser.parse s = Ok ast).
    { simpl in H. destruct H as [<- | [<- | [<- | []]]];
        eexists; vm_compute; reflexivity. }
    destruct Hp as [ast Hp]. exists ast.
    apply (after_calls_lookup _ _ _ ∅ cache_sound_empty). right.
    split; [apply Hin, H | exact Hp].
Qed.

Lemma benchmark_cache_witness :
  is_Some (after_calls (benchmark_calls 1000) ∅ !! "active:eq:N")
  /\ after_calls (benchmark_calls 2) ∅ !! "admin:eq:Y" = None.
Proof.
  split.
  - apply (benchmark_cache 1000 "active:eq:N"); [lia | simpl; auto].
  - destruct (after_calls (benchmark_calls 2) ∅ !! "admin:eq:Y") as [ast|] eqn:E;
      [|reflexivity].
    exfalso.
    assert (H : In "admin:eq:Y"
                  ["active:eq:Y"; "active:eq:Y and admin:eq:Y"; "active:eq:N"]).
    { apply (benchmark_cache 2 "admin:eq:Y"); [lia | rewrite E; eexists; reflexivity]. }
    simpl in H. destruct H as [H | [H | [H | []]]]; discriminate.
Defined.

(** ** Pages *)

(** The page count of [active_users] and the offset of
    [get_users_paginated] fit: with a positive [per_page], the pages whose
    offset lies before the end of the [total_count] rows are the pages 1
    to [total_pages], and there is no page when there is no row. *)
Theorem pages_cover_the_rows total_count per_page tp :
  (0 < per_page)%Z -> (0 <= total_count)%Z ->
  total_pages total_count per_page = Some tp ->
  (forall page, (1 <= page)%Z ->
                ((offset_of page per_page < total_count)%Z <-> (page <= tp)%Z))
  /\ (tp = 0%Z <-> total_count = 0%Z).
Proof.
  intros Hpp Htc. unfold total_pages, offset_of.
  destruct (per_page =? 0)%Z eqn:E; [apply Z.eqb_eq in E; lia|].
  intros H. injection H as <-.
  pose proof (Z.div_mod (total_count + per_page - 1) per_page ltac:(lia)) as Hd.
  pose proof (Z.mod_pos_bound (total_count + per_page - 1) per_page Hpp) as Hm.
  set (q := ((total_count + per_page - 1) / per_page)%Z) in *.
  set (r := ((total_count + per_page - 1) mod per_page)%Z) in *.
  split.
  - intros page Hpage. split; intros H; nia.
  - split; intros H; nia.
Qed.

Lemma pages_cover_the_rows_witness :
  (forall page, (1 <= page)%Z ->
                ((offset_of page 10 < 25)%Z <-> (page <= 3)%Z))
  /\ (3%Z = 0%Z <-> 25%Z = 0%Z).
Proof. apply (pages_cover_the_rows 25 10 3); [lia | lia | reflexivity]. Defined.

Lemma unless_OPERATOR terms t w : unless terms t w = OPERATOR -> t = OPERATOR.
Proof.
  unfold unless. destruct t; try (intros H; exact H).
  destruct (find _ _) as [k|] eqn:E; [|discriminate].
  apply find_some in E as [Hk _]. simpl in Hk. intros ->.
  intuition discriminate.
Qed.

Lemma alternative_is_operator w : In w OPERATOR_alternatives -> is_operator w = true.
Proof.
  simpl. intros H.
  repeat (destruct H as [<- | H]; [reflexivity|]). contradiction.
Qed.

(** The lexer yields checked tokens. *)
Lemma next_token_checked terms s tok rest :
  next_token terms s = Ok (Some (tok, rest)) ->
  checked (T (type tok)) (OTok tok) = true.
Proof.
  intros Hn. pose proof (next_token_number _ _ _ _ Hn) as Hnum. revert Hn.
  unfold next_token. destruct (span is_ws s) as [ws s1].
  destruct s1 as [|c s1']; [discriminate|].
  destruct (scan scan_order terms (String c s1')) as [[[t w] r]|] eqn:Es; [|discriminate].
  intros H. injection H as <- <-. cbn [type text] in *.
  destruct (unless terms t w) eqn:Eu; try reflexivity; cbn [checked text].
  - destruct (Hnum eq_refl) as [f Hf]. cbn [text] in Hf. rewrite Hf. reflexivity.
  - apply unless_OPERATOR in Eu. subst t. apply scan_match in Es.
    cbn [match_terminal] in Es. apply match_first_split in Es as [Hin _].
    apply alternative_is_operator, Hin.
Qed.

Lemma lex_checked q s tok rest :
  lex q s = Ok (Some (tok, rest)) -> checked (T (type tok)) (OTok tok) = true.
Proof.
  unfold lex. destruct (next_token (accepts q) s) as [o|e] eqn:E.
  - intros H. injection H as ->. eapply next_token_checked, E.
  - apply next_token_raises in E as [s1 ->].
    destruct (next_token all_terminals s1) as [[[tok' r']|]|e']; discriminate.
Qed.

Lemma lex_raises_lark q s e : lex q s = Raise e -> parse_exn e.
Proof.
  unfold lex. destruct (next_token (accepts q) s) as [o|e0] eqn:E; [discriminate|].
  apply next_token_raises in E as [s1 ->].
  destruct (next_token all_terminals s1) as [[[tok' r']|]|e'];
    intros H; injection H as <-; exact I.
Qed.

Lemma parse_from_state_checked rounds : forall ps s,
  path (state_stack ps) (value_stack ps) ->
  checked_path (state_stack ps) (value_stack ps) ->
  String.length s <= rounds ->
  parse_checked (parse_from_state lex callback rounds ps s).
Proof.
  induction rounds as [|rounds IH]; intros [ss vs] s Hp Hc Hl;
    cbn [state_stack value_stack] in Hp, Hc.
  - cbn [parse_from_state state_stack].
    destruct ss as [|q ss]; [destruct vs; contradiction|].
    destruct (lex q s) as [[[tok rest]|]|e] eqn:E.
    + apply lex_consumes in E. lia.
    + pose proof (feed_token_checked (feed_fuel (q :: ss)) (q :: ss) vs END_token true
                    Hp Hc eq_refl eq_refl (feed_fuel_enough _)) as Hf.
      destruct (feed_token _ _ _ _ _) as [[[ps'|v]|e]|]; simpl in *; auto.
      destruct Hf; discriminate.
    + apply lex_raises_lark in E. exact E.
  - cbn [parse_from_state state_stack].
    destruct ss as [|q ss]; [destruct vs; contradiction|].
    destruct (lex q s) as [[[tok rest]|]|e] eqn:E.
    + pose proof (lex_checked _ _ _ _ E) as Htok.
      apply lex_consumes in E as [Hlen Hne].
      assert (Hflag : false = bool_decide (type tok = END)).
      { symmetry. apply bool_decide_eq_false. exact Hne. }
      pose proof (feed_token_checked (feed_fuel (q :: ss)) (q :: ss) vs tok false
                    Hp Hc Htok Hflag (feed_fuel_enough _)) as Hf.
      destruct (feed_token _ _ _ _ _) as [[[ps'|v]|e]|]; simpl in *; auto.
      destruct Hf as (_ & Hp' & Hc'). apply IH; [exact Hp' | exact Hc' | lia].
    + pose proof (feed_token_checked (feed_fuel (q :: ss)) (q :: ss) vs END_token true
                    Hp Hc eq_refl eq_refl (feed_fuel_enough _)) as Hf.
      destruct (feed_token _ _ _ _ _) as [[[ps'|v]|e]|]; simpl in *; auto.
      destruct Hf; discriminate.
    + apply lex_raises_lark in E. exact E.
Qed.

(** The one [ValueError] that a parse raises is that of the operator
    [between]: on no text does the transformer raise for a number that
    [float] rejects, for an operator outside the registry, for a wrong
    number of values, nor an enum class for an unknown value. *)
Theorem parse_value_error s m :
  FilterParser.parse s = Raise (ValueError m) -> m = "Unknown operator: between".
Proof.
  intros H.
  pose proof (parse_from_state_checked (String.length s) (mkState [start_state] []) s
                eq_refl I (le_n _)) as Hc.
  unfold FilterParser.parse, FilterParser.run in H.
  destruct (parse_from_state lex callback (String.length s) _ s) as [[v|e]|];
    cbn [parse_checked] in Hc.
  - destruct v; discriminate H.
  - injection H as ->. exact Hc.
  - contradiction.
Qed.

Lemma parse_value_error_witness :
  exists m, FilterParser.parse "a:between:1 and @" = Raise (ValueError m)
            /\ m = "Unknown operator: between".
Proof.
  exists "Unknown operator: between". split; [vm_compute; reflexivity|].
  apply (parse_value_error "a:between:1 and @"). vm_compute. reflexivity.
Defined.

Lemma each_operand_between_free model operands :
  Forall (fun n => range_free n = true ->
                   forall p, SQLAlchemyFilterBuilder.build_filter n model = Ok p ->
                             between_free p = true) operands ->
  forallb range_free operands = true ->
  forall cs, each_operand model operands = Ok cs -> forallb between_free cs = true.
Proof.
  induction 1 as [|n l Hn _ IH]; intros Hr cs H.
  - injection H as <-. reflexivity.
  - cbn [forallb] in Hr. apply andb_prop in Hr as [Hrn Hrl].
    cbn [each_operand] in H. fold (each_operand model) in H.
    destruct (SQLAlchemyFilterBuilder.build_filter n model) as [p|] eqn:Ep;
      [|discriminate].
    cbn [bind] in H. destruct (each_operand model l) as [cs'|]; [|discriminate].
    injection H as <-. cbn [forallb].
    rewrite (Hn Hrn p eq_refl), (IH Hrl cs' eq_refl). reflexivity.
Qed.

Lemma build_filter_between_free model n :
  range_free n = true ->
  forall p, SQLAlchemyFilterBuilder.build_filter n model = Ok p ->
            between_free p = true.
Proof.
  induction n as [f o v | f o vs | f a b | f o pat | op operands IH]
    using FilterNode_nested_ind; intros Hr p.
  1-4: first
         [ discriminate Hr
         | cbn [SQLAlchemyFilterBuilder.build_filter];
           unfold SQLAlchemyFilterBuilder.visit_comparison_node,
                  SQLAlchemyFilterBuilder.visit_collection_node,
                  SQLAlchemyFilterBuilder.visit_text_search_node,
                  SQLAlchemyFilterBuilder.column_of;
           destruct (model f) as [[c|obj]|]; cbn [bind]; [| |discriminate];
           try destruct o; intros H;
           first [ injection H as <-; reflexivity
                 | destruct (operate_value _ _ _ H) as [[b ->] | [r ->]];
                   reflexivity ] ].
  cbn [range_free] in Hr. rewrite build_filter_logical.
  destruct (each_operand model operands) as [cs|] eqn:E; [|discriminate].
  pose proof (each_operand_between_free model operands IH Hr cs E) as Hc.
  cbn [bind]. destruct op.
  - intros H. injection H as <-. exact Hc.
  - intros H. injection H as <-. exact Hc.
  - unfold sql_not. destruct cs as [|c [|c' cs']]; try discriminate.
    intros H. injection H as <-. cbn [forallb] in Hc.
    rewrite andb_true_r in Hc. exact Hc.
Qed.

(** No filter text reaches the Range family: the AST of a parse holds no
    Range node, whatever the text, so [visit_range_node] is never called
    for it and no predicate built from it has a [BETWEEN] clause. *)
Theorem no_range_from_text s n :
  FilterParser.parse s = Ok n ->
  range_free n = true
  /\ forall model p,
       SQLAlchemyFilterBuilder.build_filter n model = Ok p -> between_free p = true.
Proof.
  intros H.
  pose proof (parse_from_state_checked (String.length s) (mkState [start_state] []) s
                eq_refl I (le_n _)) as Hc.
  unfold FilterParser.parse, FilterParser.run in H.
  destruct (parse_from_state lex callback (String.length s) _ s) as [[v|e]|];
    cbn [parse_checked] in Hc; try discriminate H.
  destruct v; try discriminate H. injection H as <-.
  destruct Hc as [_ Hc]. cbn [checked] in Hc. split; [exact Hc|].
  intros model p. apply build_filter_between_free, Hc.
Qed.

Lemma no_range_from_text_witness :
  range_free (Collection_Node "id" CollectionOp.IN
                [VFloat (S754_finite false 4503599627370496 (-52));
                 VFloat (S754_finite false 4503599627370496 (-51))]) = true
  /\ forall model p,
       SQLAlchemyFilterBuilder.build_filter
         (Collection_Node "id" CollectionOp.IN
            [VFloat (S754_finite false 4503599627370496 (-52));
             VFloat (S754_finite false 4503599627370496 (-51))]) model = Ok p ->
       between_free p = true.
Proof. apply (no_range_from_text "id:in:1,2"). vm_compute. reflexivity. Defined.

Lemma total_app a b : total (a ++ b) = (total a + total b)%Z.
Proof. unfold total. induction a as [|x a IH]; simpl; [reflexivity|]. rewrite IH. lia. Qed.

Lemma batches_prefix count b n j :
  (0 < b)%Z -> (0 < count)%Z -> n = ((count - 1) / b + 1)%Z ->
  (Z.of_nat j <= n)%Z ->
  let sizes := map (fun i => Z.max 0 (Z.min b (count - i)))
                   (map (fun k => (0 + Z.of_nat k * b)%Z) (seq 0 j)) in
  total sizes = Z.min count (Z.of_nat j * b)
  /\ Forall (fun x => (0 < x <= b)%Z) sizes.
Proof.
  intros Hb Hc Hn. cbv zeta.
  pose proof (Z.div_mod (count - 1) b ltac:(lia)) as Hd.
  pose proof (Z.mod_pos_bound (count - 1) b Hb) as Hm.
  induction j as [|j IH]; intros Hj.
  - simpl. split; [lia | constructor].
  - rewrite seq_S, !map_app, total_app. cbn [map Nat.add total fold_right].
    destruct IH as [IH1 IH2]; [lia|]. rewrite IH1. split.
    + nia.
    + apply Forall_app. split; [exact IH2|]. constructor; [|constructor]. nia.
Qed.

(** With a positive [count] and a positive [batch_size], the loop of
    [populate_users_in_db] saves [count] users in all, in batches that
    hold at least one user and at most [batch_size]. *)
Theorem batches_add_up count batch_size :
  (0 < count)%Z -> (0 < batch_size)%Z ->
  exists sizes,
    batch_sizes count batch_size = Some sizes
    /\ total sizes = count
    /\ Forall (fun x => (0 < x <= batch_size)%Z) sizes.
Proof.
  intros Hc Hb. unfold batch_sizes.
  set (b := if (batch_size >? count)%Z then count else batch_size).
  assert (Hb' : (0 < b <= batch_size)%Z /\ (b <= count)%Z).
  { unfold b. destruct (batch_size >? count)%Z eqn:E; lia. }
  unfold py_range.
  destruct (b =? 0)%Z eqn:E0; [apply Z.eqb_eq in E0; lia|].
  destruct (0 <? b)%Z eqn:E1; [|apply Z.ltb_ge in E1; lia].
  destruct (count <=? 0)%Z eqn:E2; [apply Z.leb_le in E2; lia|].
  rewrite Z.sub_0_r.
  set (n := ((count - 1) / b + 1)%Z).
  pose proof (Z.div_mod (count - 1) b ltac:(lia)) as Hd.
  pose proof (Z.mod_pos_bound (count - 1) b ltac:(lia)) as Hm.
  assert (Hn : (0 <= n)%Z).
  { unfold n. pose proof (Z.div_pos (count - 1) b ltac:(lia) ltac:(lia)). lia. }
  destruct (batches_prefix count b n (Z.to_nat n) ltac:(lia) Hc eq_refl ltac:(lia))
    as [Ht Hf].
  eexists. split; [reflexivity|]. split.
  - rewrite Ht. rewrite Z2Nat.id by lia. unfold n. nia.
  - eapply List.Forall_impl; [|exact Hf]. cbv beta. intros x Hx. lia.
Qed.

Lemma batches_add_up_witness :
  batch_sizes 2500 1000 = Some [1000; 1000; 500]%Z
  /\ batch_sizes 0 1000 = None.
Proof.
  split; [|reflexivity].
  destruct (batches_add_up 2500 1000) as (sizes & Hs & _); [lia | lia |].
  vm_compute in Hs. injection Hs as <-. reflexivity.
Defined.


(** ** Keywords in field position, and the cache over two calls *)

(** The states with a transition on [field]: the start state and the
    states after [not], [and] and [or]. *)
Lemma field_states q :
  action_of q (N field) <> None -> q = 0 \/ q = 5 \/ q = 8 \/ q = 9.
Proof.
  intros Hq.
  destruct (le_lt_dec (length states) q) as [Hge|Hlt].
  - exfalso. apply Hq, action_of_overflow, Hge.
  - revert Hq. change (length states) with 27 in Hlt.
    do 27 (destruct q as [|q];
           [ intros Hq;
             first [ exfalso; apply Hq; vm_compute; reflexivity
                   | auto ]
           | ]).
    lia.
Qed.

Lemma lex_keyword_in_field_state q rest :
  action_of q (N field) <> None ->
  lex q ("and:" ++ rest) = Ok (Some (mkToken CNAME "and", (":" ++ rest)%string))
  /\ lex q ("or:" ++ rest) = Ok (Some (mkToken CNAME "or", (":" ++ rest)%string))
  /\ lex q ("not:" ++ rest) = Ok (Some (mkToken NOT "not", (":" ++ rest)%string)).
Proof.
  intros Hq.
  destruct (field_states q Hq) as [-> | [-> | [-> | ->]]];
    repeat split; vm_compute; reflexivity.
Qed.

Lemma shift_NOT q : action_of q (N field) <> None -> action_of q (T NOT) = Some (LALR.Shift 5).
Proof.
  intros Hq.
  destruct (field_states q Hq) as [-> | [-> | [-> | ->]]]; vm_compute; reflexivity.
Qed.

Lemma lex_colon_after_not rest :
  lex 5 (":" ++ rest) = Raise (UnexpectedToken "COLON").
Proof. vm_compute. reflexivity. Qed.

(** Where a field may begin, [not:] ends the parse: [not] is shifted as the
    keyword, and the colon is no token that may follow it. *)
Lemma not_in_field_state q ss vs rounds ws rest :
  action_of q (N field) <> None -> all_chars is_ws ws = true ->
  parse_from_state lex callback (S rounds) (mkState (q :: ss) vs)
    (ws ++ "not:" ++ rest)%string
  = Some (Raise (UnexpectedToken "COLON")).
Proof.
  intros Hq Hws.
  cbn [parse_from_state state_stack].
  rewrite (lex_skip_ws _ _ _ Hws).
  destruct (lex_keyword_in_field_state q rest Hq) as (_ & _ & ->).
  cbn [feed_fuel]. rewrite feed_token_step. unfold feed_body.
  cbn [state_stack value_stack type]. rewrite (shift_NOT q Hq).
  destruct rounds; cbn [parse_from_state state_stack];
    rewrite lex_colon_after_not; reflexivity.
Qed.

Lemma advance_parse n : forall ps s ps' s' r r',
  advance n ps s = Some (ps', s') ->
  String.length s <= r -> String.length s' <= r' ->
  parse_from_state lex callback r ps s = parse_from_state lex callback r' ps' s'.
Proof.
  induction n as [|n IH]; intros [stack vs] s ps' s' r r' H Hr Hr'.
  - injection H as <- <-. apply parse_from_state_rounds; assumption.
  - cbn [advance state_stack] in H.
    destruct stack as [|q stack]; [discriminate|].
    destruct (lex q s) as [[[tok rest]|]|e] eqn:El; try discriminate.
    destruct (feed_token callback (feed_fuel (q :: stack)) (mkState (q :: stack) vs)
                tok false) as [[[ps1|v]|e]|] eqn:Ef; try discriminate.
    pose proof (lex_consumes _ _ _ _ El) as [Hlen _].
    destruct r as [|r]; [lia|].
    cbn [parse_from_state state_stack]. rewrite El, Ef.
    apply (IH ps1 rest ps' s'); [exact H | lia | exact Hr'].
Qed.

(** In whatever place of a text a field may begin, [not:] there has the
    parse raise [UnexpectedToken]. *)
Lemma not_in_field_position n s q ss vs ws rest :
  advance n (mkState [start_state] []) s
  = Some (mkState (q :: ss) vs, (ws ++ "not:" ++ rest)%string) ->
  action_of q (N field) <> None -> all_chars is_ws ws = true ->
  FilterParser.parse s = Raise (UnexpectedToken "COLON").
Proof.
  intros Ha Hq Hws. unfold FilterParser.parse, FilterParser.run.
  rewrite (advance_parse n _ _ _ _ _ (S (String.length (ws ++ "not:" ++ rest)%string))
             Ha (le_n _) (Nat.le_succ_diag_r _)).
  rewrite (not_in_field_state q ss vs _ ws rest Hq Hws). reflexivity.
Qed.

(** C4 (as the code has it): where a field may begin (at the start of the
    text and after [and], [or] and [not]) the contextual lexer knows only
    the terminals [CNAME] and [NOT].  So it reads [and] and [or] as
    identifiers there, and they serve as field names; [not] alone remains
    a keyword, and in every such place of a text [not:] has the parse
    raise [UnexpectedToken]. *)
Theorem keywords_in_field_position :
  (forall q s tok rest,
      action_of q (N field) <> None -> lex q s = Ok (Some (tok, rest)) ->
      type tok = CNAME \/ type tok = NOT)
  /\ (forall rest, lex start_state ("and:" ++ rest)
                   = Ok (Some (mkToken CNAME "and", (":" ++ rest)%string)))
  /\ (forall rest, lex start_state ("or:" ++ rest)
                   = Ok (Some (mkToken CNAME "or", (":" ++ rest)%string)))
  /\ (forall rest, FilterParser.parse ("not:" ++ rest) = Raise (UnexpectedToken "COLON"))
  /\ FilterParser.parse "or:eq:Y" = Ok (Comparison_Node "or" ComparisonOp.EQ (VStr "Y"))
  /\ (forall q ws rest,
        action_of q (N field) <> None -> all_chars is_ws ws = true ->
        lex q (ws ++ "and:" ++ rest)%string
        = Ok (Some (mkToken CNAME "and", (":" ++ rest)%string))
        /\ lex q (ws ++ "or:" ++ rest)%string
           = Ok (Some (mkToken CNAME "or", (":" ++ rest)%string))
        /\ lex q (ws ++ "not:" ++ rest)%string
           = Ok (Some (mkToken NOT "not", (":" ++ rest)%string)))
  /\ (forall q ss vs rounds ws rest,
        action_of q (N field) <> None -> all_chars is_ws ws = true ->
        parse_from_state lex callback (S rounds) (mkState (q :: ss) vs)
          (ws ++ "not:" ++ rest)%string
        = Some (Raise (UnexpectedToken "COLON")))
  /\ (forall n s q ss vs ws rest,
        advance n (mkState [start_state] []) s
        = Some (mkState (q :: ss) vs, (ws ++ "not:" ++ rest)%string) ->
        action_of q (N field) <> None -> all_chars is_ws ws = true ->
        FilterParser.parse s = Raise (UnexpectedToken "COLON"))
  /\ FilterParser.parse "a:eq:1 and not:eq:2" = Raise (UnexpectedToken "COLON")
  /\ FilterParser.parse "a:eq:1 or not:eq:2" = Raise (UnexpectedToken "COLON")
  /\ FilterParser.parse "not not:eq:Y" = Raise (UnexpectedToken "COLON")
  /\ FilterParser.parse "a:eq:x and or:eq:Y"
     = Ok (Logical_Node LogicalOp.AND
             [Comparison_Node "a" ComparisonOp.EQ (VStr "x");
              Comparison_Node "or" ComparisonOp.EQ (VStr "Y")])
  /\ FilterParser.parse "not and:eq:Y"
     = Ok (Logical_Node LogicalOp.NOT
             [Comparison_Node "and" ComparisonOp.EQ (VStr "Y")]).
Proof.
  split.
  { intros q s tok rest Hq Hl. eapply field_state_accepts; [exact Hq|].
    eapply lex_accepted, Hl. }
  do 4 (split; [intros; vm_compute; reflexivity|]).
  split.
  { intros q ws rest Hq Hws. rewrite !(lex_skip_ws _ _ _ Hws).
    apply lex_keyword_in_field_state, Hq. }
  split; [intros; apply not_in_field_state; assumption|].
  split; [intros n s q ss vs ws rest; apply not_in_field_position|].
  repeat split; vm_compute; reflexivity.
Qed.

(** C4, counterexample: [and:eq:Y] parses, [and] being the field. *)
Lemma and_is_a_field_name :
  FilterParser.parse "and:eq:Y" = Ok (Comparison_Node "and" ComparisonOp.EQ (VStr "Y")).
Proof. vm_compute. reflexivity. Qed.

(** ** The cache over two calls *)

(** C7: in every state of [_AST_CACHE] that calls from the empty dict
    reach, two calls with the same string, whatever calls come between,
    return the same result.  When the string parses, both calls return
    the AST of the parser, the first call leaves it in the dict under the
    string, it is still there at the later call, and the later call
    leaves the dict as it finds it.  When the parse of the string fails,
    the call leaves the dict as it was, the dict never holds the string
    as a key, and the later call parses again and ends as the parser
    does. *)
Theorem cache_property calls between s :
  let cache := after_calls calls ∅ in
  let first := optimized_parse_filters (ArgStr s) cache in
  let later := after_calls between (snd first) in
  let second := optimized_parse_filters (ArgStr s) later in
  fst first = fst second
  /\ (forall e, FilterParser.parse s = Raise e ->
        snd first = cache /\ cache !! s = None /\ later !! s = None
        /\ second = (answer (Raise e), later))
  /\ (forall ast, FilterParser.parse s = Ok ast ->
        fst first = Ok (Some ast) /\ snd first !! s = Some ast
        /\ later !! s = Some ast /\ second = (Ok (Some ast), later)).
Proof.
  intros cache first later second.
  assert (Hc : cache_sound cache) by apply reachable_sound.
  assert (Hf : cache_sound (snd first))
    by (apply optimized_parse_filters_sound, Hc).
  assert (Hl : cache_sound later) by (apply after_calls_sound, Hf).
  split; [|split].
  - unfold first, second.
    rewrite !optimized_parse_filters_result by assumption. reflexivity.
  - intros e Hp.
    destruct (optimized_parse_filters_failure s e cache Hc Hp) as [H1 H2].
    destruct (optimized_parse_filters_failure s e later Hl Hp) as [H3 H4].
    repeat split; try assumption.
    rewrite (surjective_pairing second). f_equal; [|exact H3].
    unfold second. rewrite optimized_parse_filters_result by assumption.
    rewrite parse_filters_ArgStr, Hp. reflexivity.
  - intros ast Hp.
    assert (H1 : snd first !! s = Some ast).
    { unfold first. rewrite optimized_parse_filters_lookup.
      destruct (cache !! s) as [ast'|] eqn:E.
      - rewrite (Hc s ast' E) in Hp. congruence.
      - cbn [is_str]. rewrite String.eqb_refl, Hp. reflexivity. }
    assert (H2 : later !! s = Some ast).
    { unfold later. apply after_calls_lookup; [exact Hf | left; exact H1]. }
    split; [|split; [exact H1 | split; [exact H2|]]].
    + unfold first. rewrite optimized_parse_filters_result by assumption.
      rewrite parse_filters_ArgStr, Hp. reflexivity.
    + unfold second, optimized_parse_filters.
      destruct s as [|c s'].
      { rewrite parse_empty in Hp. discriminate Hp. }
      cbn [nonempty_str]. rewrite H2. reflexivity.
Qed.

Lemma keywords_in_field_position_witness :
  FilterParser.parse "a:eq:1 and  not:eq:2" = Raise (UnexpectedToken "COLON")
  /\ FilterParser.parse "not a:eq:1 or not:x" = Raise (UnexpectedToken "COLON").
Proof.
  pose proof keywords_in_field_position as (_ & _ & _ & _ & _ & _ & _ & H & _).
  split.
  - apply (H 6 "a:eq:1 and  not:eq:2" 8
             [3; 0]
             [OTok (mkToken AND "and");
              ONode (Comparison_Node "a" ComparisonOp.EQ
                       (VFloat (S754_finite false 4503599627370496 (-52))))]
             "  " "eq:2");
      vm_compute; first [reflexivity | discriminate].
  - apply (H 7 "not a:eq:1 or not:x" 9
             [10; 5; 0]
             [OTok (mkToken OR "or");
              ONode (Comparison_Node "a" ComparisonOp.EQ
                       (VFloat (S754_finite false 4503599627370496 (-52))));
              OTok (mkToken NOT "not")]
             " " "x");
      vm_compute; first [reflexivity | discriminate].
Defined.

